(** * pathsqlx: from flat SQL rows to nested trees

    A shallow embedding of the Go package [pathsqlx]: the tree
    reconstruction pipeline of [pathsqlx.go] (getPaths, getAllRecords,
    groupBySeparator, addHashes, combineIntoTree, removeHashes, PathQuery),
    the cardinality inference of [path_inference.go] and the structural
    analyser.

    Go strings are byte strings and are modelled by [string] (a list of
    bytes).  An [*orderedmap.OrderedMap] is an association list in
    insertion order whose [Set] overwrites in place.  A Go run-time panic
    (slice out of range, nil dereference) is an outcome of its own. *)

From Stdlib Require Import ZArith Lia Bool Ascii String.
From stdpp Require Import base strings list gmap pretty.

Set Warnings "-register-all".

Local Open Scope string_scope.
Local Open Scope list_scope.

(** ** Outcomes of Go calls: a value, an [error], or a panic *)

Inductive outcome (A : Type) : Type :=
| Ok (a : A)
| Err (msg : string)
| Panic.

Arguments Ok {A} a.
Arguments Err {A} msg.
Arguments Panic {A}.

Definition bind {A B} (m : outcome A) (k : A -> outcome B) : outcome B :=
  match m with
  | Ok a => k a
  | Err e => Err e
  | Panic => Panic
  end.

Notation "x <~ m ;; k" := (bind m (fun x => k))
  (at level 100, m at next level, right associativity).

(** ** Values held in an [interface{}] *)

(** What [rows.SliceScan] puts in a cell ([driver.Value]).  A [float64]
    carries the decimal text it was read from. *)
Inductive scalar : Type :=
| SNil
| SInt (i : Z)
| SFloat (text : string)
| SBool (b : bool)
| SText (s : string).

(** A Go value of the pipeline: a scalar, an [*orderedmap.OrderedMap]
    or a [[]interface{}]. *)
Inductive value : Type :=
| VScalar (s : scalar)
| VMap (m : list (string * value))
| VSeq (l : list value).

Definition OrderedMap : Type := list (string * value).

(** [o.Get(key)] *)
Fixpoint oget {V} (key : string) (o : list (string * V)) : option V :=
  match o with
  | [] => None
  | (k, v) :: o' => if String.eqb k key then Some v else oget key o'
  end.

(** [o.Set(key, v)]: overwrite in place, or append a new key. *)
Fixpoint oset {V} (key : string) (v : V) (o : list (string * V))
  : list (string * V) :=
  match o with
  | [] => [(key, v)]
  | (k, w) :: o' =>
      if String.eqb k key then (k, v) :: o' else (k, w) :: oset key v o'
  end.

(** [o.Keys()] *)
Definition okeys {V} (o : list (string * V)) : list string := map fst o.

(** ** Byte-string helpers *)

Definition quote : string := String "034"%char EmptyString.

(** [s[:1] == "!" && s[len(s)-1:] == "!"], for a non-empty [s]. *)
Definition first_byte (s : string) : option ascii :=
  match s with
  | EmptyString => None
  | String c _ => Some c
  end.

Fixpoint last_byte (s : string) : option ascii :=
  match s with
  | EmptyString => None
  | String c EmptyString => Some c
  | String _ s' => last_byte s'
  end.

Definition is_bang (o : option ascii) : bool :=
  match o with
  | Some c => Ascii.eqb c "!"%char
  | None => false
  end.

Definition isHashKey (key : string) : bool :=
  is_bang (first_byte key) && is_bang (last_byte key).

(** ** removeHashes *)

(** The three accumulators of the loop of [removeHashes]. *)
Record rhState : Type := mkRh
  { rh_values : OrderedMap;
    rh_trees : OrderedMap;
    rh_results : list value }.

Definition rhEmpty : rhState := mkRh [] [] [].

Definition hiddenError (path hidden : string) : string :=
  "The path " +:+ quote +:+ path +:+ "." +:+ hidden +:+ quote
  +:+ " is hidden by the path " +:+ quote +:+ path +:+ "[]" +:+ quote.

(** What follows the loop of [removeHashes]. *)
Definition rhFinish (path : string) (st : rhState) : outcome value :=
  match rh_results st with
  | _ :: _ =>
      match okeys (rh_values st) ++ okeys (rh_trees st) with
      | hidden0 :: _ => Err (hiddenError path hidden0)
      | [] => Ok (VSeq (rh_results st))
      end
  | [] =>
      let mapResults :=
        fold_left (fun acc kv => oset (fst kv) (snd kv) acc)
          (rh_values st) [] in
      let mapResults :=
        fold_left (fun acc kv => oset (fst kv) (snd kv) acc)
          (rh_trees st) mapResults in
      Ok (VMap mapResults)
  end.

(** The recursion goes through the values stored in the map, so it is
    written over [value]; only an [*orderedmap.OrderedMap] is ever passed
    (the type assertion to an ordered map guards the call). *)
Fixpoint removeHashesNode (node : value) (path : string) {struct node}
  : outcome value :=
  match node with
  | VMap tree =>
      let fix loop (es : list (string * value)) (st : rhState) {struct es}
        : outcome rhState :=
        match es with
        | [] => Ok st
        | (key, v) :: es' =>
            match v with
            | VMap _ =>
                match key with
                | EmptyString => Panic
                | _ =>
                    if isHashKey key then
                      result <~ removeHashesNode v (path +:+ "[]") ;;
                      loop es'
                        (mkRh (rh_values st) (rh_trees st)
                           (rh_results st ++ [result]))
                    else
                      result <~ removeHashesNode v (path +:+ "." +:+ key) ;;
                      loop es'
                        (mkRh (rh_values st) (oset key result (rh_trees st))
                           (rh_results st))
                end
            | _ =>
                loop es'
                  (mkRh (oset key v (rh_values st)) (rh_trees st)
                     (rh_results st))
            end
        end in
      st <~ loop tree rhEmpty ;; rhFinish path st
  | _ => Panic
  end.

Definition removeHashes (tree : OrderedMap) (path : string) : outcome value :=
  removeHashesNode (VMap tree) path.

(** The loop of [removeHashes], standing alone. *)
Definition rhLoop (path : string)
  : list (string * value) -> rhState -> outcome rhState :=
  fix loop (es : list (string * value)) (st : rhState) {struct es}
    : outcome rhState :=
    match es with
    | [] => Ok st
    | (key, v) :: es' =>
        match v with
        | VMap _ =>
            match key with
            | EmptyString => Panic
            | _ =>
                if isHashKey key then
                  result <~ removeHashesNode v (path +:+ "[]") ;;
                  loop es'
                    (mkRh (rh_values st) (rh_trees st)
                       (rh_results st ++ [result]))
                else
                  result <~ removeHashesNode v (path +:+ "." +:+ key) ;;
                  loop es'
                    (mkRh (rh_values st) (oset key result (rh_trees st))
                       (rh_results st))
            end
        | _ =>
            loop es'
              (mkRh (oset key v (rh_values st)) (rh_trees st) (rh_results st))
        end
    end.

(** ** The shape of a merged tree *)

Definition isMap (v : value) : bool :=
  match v with VMap _ => true | _ => false end.

(** A child of a node is fingerprint-tagged when it is a nested map under a
    key that begins and ends with '!'; it is plain when it is a nested map
    under another key; anything else is a scalar leaf. *)
Definition isTaggedChild (kv : string * value) : bool :=
  isMap (snd kv) && isHashKey (fst kv).

Definition isPlainChild (kv : string * value) : bool :=
  isMap (snd kv) && negb (isHashKey (fst kv)).

Definition isLeaf (kv : string * value) : bool := negb (isMap (snd kv)).

(** The node itself mixes tagged children with leaves or plain children. *)
Definition conflictHere (tree : list (string * value)) : bool :=
  existsb isTaggedChild tree
  && (existsb isLeaf tree || existsb isPlainChild tree).

(** Some node of the tree does. *)
Fixpoint hasConflict (node : value) : bool :=
  match node with
  | VMap tree =>
      conflictHere tree || existsb (fun kv => hasConflict (snd kv)) tree
  | _ => false
  end.

(** Some nested map sits under the empty key. *)
Fixpoint hasEmptyMapKey (node : value) : bool :=
  match node with
  | VMap tree =>
      existsb (fun kv => isMap (snd kv) && String.eqb (fst kv) EmptyString)
        tree
      || existsb (fun kv => hasEmptyMapKey (snd kv)) tree
  | _ => false
  end.

(** The path [removeHashes] passes down to a child. *)
Definition childPath (path key : string) : string :=
  if isHashKey key then path +:+ "[]" else path +:+ "." +:+ key.

(** The first key hidden at a node: its first leaf, or else its first plain
    child. *)
Definition firstHidden (tree : list (string * value)) : option string :=
  match List.filter (fun kv => isLeaf kv) tree with
  | kv :: _ => Some (fst kv)
  | [] =>
      match List.filter (fun kv => isPlainChild kv) tree with
      | kv :: _ => Some (fst kv)
      | [] => None
      end
  end.

(** [ConflictAt tree path p h]: walking down from [tree], known under
    [path], there is a node known under [p] that mixes tagged children with
    others, and [h] is its first hidden key. *)
Inductive ConflictAt : list (string * value) -> string -> string -> string
                       -> Prop :=
| ConflictHere tree path h :
    conflictHere tree = true ->
    firstHidden tree = Some h ->
    ConflictAt tree path path h
| ConflictBelow tree path key sub p h :
    In (key, VMap sub) tree ->
    ConflictAt sub (childPath path key) p h ->
    ConflictAt tree path p h.

(** What the resolver is meant to produce, following the specification: a
    node with tagged children becomes the sequence of their resolved
    values, any other node the mapping of its leaves followed by its
    resolved nested children. *)
Definition setAll (kvs : list (string * value)) (o : OrderedMap)
  : OrderedMap :=
  fold_left (fun acc kv => oset (fst kv) (snd kv) acc) kvs o.

Fixpoint resolved (node : value) : value :=
  match node with
  | VMap tree =>
      let tagged :=
        flat_map (fun kv => if isTaggedChild kv then [resolved (snd kv)]
                            else []) tree in
      let values := setAll (List.filter (fun kv => isLeaf kv) tree) [] in
      let trees :=
        setAll
          (flat_map (fun kv => if isPlainChild kv
                               then [(fst kv, resolved (snd kv))] else [])
             tree) [] in
      match tagged with
      | [] => VMap (setAll trees (setAll values []))
      | _ :: _ => VSeq tagged
      end
  | other => other
  end.

Definition leavesOf (tree : list (string * value)) : list (string * value) :=
  List.filter (fun kv => isLeaf kv) tree.

Definition nestedOf (tree : list (string * value)) : list (string * value) :=
  flat_map (fun kv => if isPlainChild kv
                      then [(fst kv, resolved (snd kv))] else []) tree.

Definition taggedOf (tree : list (string * value)) : list value :=
  flat_map (fun kv => if isTaggedChild kv then [resolved (snd kv)] else [])
    tree.

(** What the resolver owes for one subtree known under [path]. *)
Definition resolves (sub : list (string * value)) (path : string) : Prop :=
  (hasConflict (VMap sub) = true ->
   exists p h, ConflictAt sub path p h
               /\ removeHashesNode (VMap sub) path = Err (hiddenError p h))
  /\ (hasConflict (VMap sub) = false ->
      removeHashesNode (VMap sub) path = Ok (resolved (VMap sub))).

Definition childResolves (kv : string * value) : Prop :=
  match snd kv with
  | VMap sub => fst kv <> EmptyString /\ forall path, resolves sub path
  | _ => True
  end.


(** ** Properties of every node of a tree *)

(** [f] holds of every map node reached through nested maps, the walk of
    [removeHashes]. *)
Fixpoint allNodes (f : list (string * value) -> bool) (node : value) : bool :=
  match node with
  | VMap tree => f tree && forallb (fun kv => allNodes f (snd kv)) tree
  | _ => true
  end.

Fixpoint nodupb (l : list string) : bool :=
  match l with
  | [] => true
  | x :: l' => negb (existsb (String.eqb x) l') && nodupb l'
  end.

(** The invariant of an ordered map: no key twice. *)
Definition uniqueKeys : value -> bool :=
  allNodes (fun tree => nodupb (okeys tree)).

(** No key is a fingerprint token. *)
Definition noHashKeys : value -> bool :=
  allNodes (forallb (fun kv => negb (isHashKey (fst kv)))).

(** [strings.Contains(s, sub)] *)
Fixpoint hasPrefix (s pre : string) : bool :=
  match pre, s with
  | EmptyString, _ => true
  | String c pre', String d s' => Ascii.eqb c d && hasPrefix s' pre'
  | String _ _, EmptyString => false
  end.

Fixpoint contains (s sub : string) : bool :=
  hasPrefix s sub
  || match s with
     | EmptyString => false
     | String _ s' => contains s' sub
     end.

(** No key holds an array marker. *)
Definition noArrayMarkers : value -> bool :=
  allNodes (forallb (fun kv => negb (contains (fst kv) "[]"))).

(** Every entry that is not a nested map comes before every nested map. *)
Fixpoint leavesBeforeMaps (tree : list (string * value)) : bool :=
  match tree with
  | [] => true
  | kv :: tree' =>
      if isMap (snd kv) then forallb (fun kv' => isMap (snd kv')) tree'
      else leavesBeforeMaps tree'
  end.

Definition leavesFirst : value -> bool := allNodes leavesBeforeMaps.

(** The tree with, at every node, the entries that are not nested maps
    moved before the nested maps, each group keeping its order. *)
Fixpoint leavesFirstOrder (node : value) : value :=
  match node with
  | VMap tree =>
      VMap (List.filter (fun kv => isLeaf kv) tree
            ++ flat_map (fun kv => if isMap (snd kv)
                                   then [(fst kv, leavesFirstOrder (snd kv))]
                                   else []) tree)
  | other => other
  end.

(** ** The [strings] package, on byte strings *)

Fixpoint takeStr (n : nat) (s : string) : string :=
  match n, s with
  | S n', String c s' => String c (takeStr n' s')
  | _, _ => EmptyString
  end.

Fixpoint dropStr (n : nat) (s : string) : string :=
  match n, s with
  | S n', String _ s' => dropStr n' s'
  | _, _ => s
  end.

(** [strings.HasSuffix(s, suf)] *)
Definition hasSuffix (s suf : string) : bool :=
  (String.length suf <=? String.length s)%nat
  && String.eqb (dropStr (String.length s - String.length suf) s) suf.

(** [strings.LastIndex(s, sub)]; [None] stands for -1. *)
Fixpoint lastIndexFrom (s sub : string) (i : nat) : option nat :=
  match s with
  | EmptyString => if hasPrefix s sub then Some i else None
  | String _ s' =>
      match lastIndexFrom s' sub (S i) with
      | Some j => Some j
      | None => if hasPrefix s sub then Some i else None
      end
  end.

Definition lastIndex (s sub : string) : option nat := lastIndexFrom s sub 0.

(** [strings.Split(s, sep)] for a non-empty [sep]: [cur] is the piece being
    read and [skip] the bytes of a matched separator still to pass. *)
Fixpoint splitFrom (sep s : string) (skip : nat) (cur : string)
  : list string :=
  match s with
  | EmptyString => [cur]
  | String c s' =>
      match skip with
      | S n => splitFrom sep s' n cur
      | O =>
          if hasPrefix s sep
          then cur :: splitFrom sep s' (String.length sep - 1) EmptyString
          else splitFrom sep s' 0 (cur +:+ String c EmptyString)
      end
  end.

Definition split (s sep : string) : list string :=
  splitFrom sep s 0 EmptyString.

(** [strings.Join(parts, sep)] *)
Fixpoint join (parts : list string) (sep : string) : string :=
  match parts with
  | [] => EmptyString
  | [p] => p
  | p :: parts' => p +:+ sep +:+ join parts' sep
  end.

(** [strings.Replace(s, old, new, -1)] for a non-empty [old]. *)
Fixpoint replaceFrom (old new s : string) (skip : nat) : string :=
  match s with
  | EmptyString => EmptyString
  | String c s' =>
      match skip with
      | S n => replaceFrom old new s' n
      | O =>
          if hasPrefix s old
          then new +:+ replaceFrom old new s' (String.length old - 1)
          else String c (replaceFrom old new s' 0)
      end
  end.

Definition replaceAll (s old new : string) : string :=
  replaceFrom old new s 0.

(** ** getPaths *)

(** One round of the loop of [getPaths]: the running prefix [path] and the
    path given to [column].  [guarded] tells the revision apart: the later
    one tests [len(column) > 0] before slicing [column[0:1]], the earlier
    one slices at once, which is out of range for the empty name. *)
Definition getPathsStep (guarded : bool) (path column : string)
  : outcome (string * string) :=
  match column with
  | EmptyString =>
      if guarded then Ok (path, path +:+ "." +:+ column) else Panic
  | String c _ =>
      if Ascii.eqb c "$" then
        match lastIndex column "." with
        | Some pos =>
            let path' := takeStr pos column in
            let prop := dropStr (pos + 1) column in
            Ok (path', path' +:+ "." +:+ prop)
        | None => Ok (path, path +:+ "." +:+ column)
        end
      else Ok (path, path +:+ "." +:+ column)
  end.

Fixpoint getPathsLoop (guarded : bool) (path : string) (columns : list string)
  : outcome (list string) :=
  match columns with
  | [] => Ok []
  | column :: columns' =>
      r <~ getPathsStep guarded path column ;;
      rest <~ getPathsLoop guarded (fst r) columns' ;;
      Ok (snd r :: rest)
  end.

(** [getPaths] of the later revision (with the length test). *)
Definition getPaths (columns : list string) : outcome (list string) :=
  getPathsLoop true "$[]" columns.

(** [getPaths] of the earlier revision. *)
Definition getPaths_unguarded (columns : list string) : outcome (list string) :=
  getPathsLoop false "$[]" columns.

(** The prefix a column sets: the text before its last '.', for a column
    that starts with '$' and holds a '.'. *)
Definition dollarPrefix (column : string) : option string :=
  if hasPrefix column "$" then
    match lastIndex column "." with
    | Some pos => Some (takeStr pos column)
    | None => None
    end
  else None.

(** The text after the last '.' of such a column. *)
Definition dollarProp (column : string) : string :=
  match lastIndex column "." with
  | Some pos => dropStr (pos + 1) column
  | None => column
  end.

(** The words of the prefix rule.  A column names a path when it starts
    with '$' and holds a '.'; every other column is a bare name. *)
Definition namesPath (column : string) : bool :=
  hasPrefix column "$" && contains column ".".

(** [BeforeLastDot column prefix name]: [prefix] is the text of [column]
    before its last '.', and [name] the text after it. *)
Definition BeforeLastDot (column prefix name : string) : Prop :=
  column = prefix +:+ "." +:+ name /\ contains name "." = false.

(** [InheritedPrefix before prefix]: [prefix] is the text before the last
    '.' of the most recent column of [before] that names a path, or the
    default prefix when no column of [before] names one. *)
Inductive InheritedPrefix : list string -> string -> Prop :=
| InheritDefault before :
    Forall (fun c => namesPath c = false) before ->
    InheritedPrefix before "$[]"
| InheritLatest pre c prefix name post :
    namesPath c = true ->
    BeforeLastDot c prefix name ->
    Forall (fun c' => namesPath c' = false) post ->
    InheritedPrefix (pre ++ c :: post) prefix.

(** ** The reconstruction pipeline *)

(** [paths[i]] for the cell at index [i]; past the end it panics. *)
Definition pathAt (paths : list string) (i : nat) : outcome string :=
  match paths !! i with
  | Some p => Ok p
  | None => Panic
  end.

(** [s[1:]]; out of range for the empty string. *)
Definition dropFirst (s : string) : outcome string :=
  match s with
  | EmptyString => Panic
  | String _ s' => Ok s'
  end.

(** The inner loop of [getAllRecords] of [pathsqlx.go]: one row becomes one
    record, keyed by the paths without their first byte. *)
Fixpoint rowRecordFrom (paths : list string) (i : nat) (row : list scalar)
    (record : OrderedMap) : outcome OrderedMap :=
  match row with
  | [] => Ok record
  | cell :: row' =>
      p <~ pathAt paths i ;;
      key <~ dropFirst p ;;
      rowRecordFrom paths (S i) row' (oset key (VScalar cell) record)
  end.

Fixpoint getAllRecords (rows : list (list scalar)) (paths : list string)
  : outcome (list OrderedMap) :=
  match rows with
  | [] => Ok []
  | row :: rows' =>
      record <~ rowRecordFrom paths 0 row [] ;;
      records <~ getAllRecords rows' paths ;;
      Ok (record :: records)
  end.

(** [parts[:len(parts)-1]] and [parts[len(parts)-1]] *)
Definition initParts (parts : list string) : list string :=
  removelast parts.

Definition lastPart (parts : list string) : string :=
  List.last parts EmptyString.

(** A type assertion to an ordered map; [nil] when it fails. *)
Definition asMap (v : option value) : option OrderedMap :=
  match v with
  | Some (VMap m) => Some m
  | _ => None
  end.

(** One key of one record in [groupBySeparator]. *)
Definition groupKey (separator name : string) (v : value)
    (result : OrderedMap) : outcome OrderedMap :=
  let parts := split name separator in
  let newName := lastPart parts in
  let path := join (initParts parts) separator in
  let path :=
    if (0 <? length parts - 1)%nat then path +:+ separator else path in
  let result :=
    match oget path result with
    | Some _ => result
    | None => oset path (VMap []) result
    end in
  match asMap (oget path result) with
  | Some subResultMap =>
      Ok (oset path (VMap (oset newName v subResultMap)) result)
  | None => Panic
  end.

Fixpoint groupRecord (separator : string) (entries : list (string * value))
    (result : OrderedMap) : outcome OrderedMap :=
  match entries with
  | [] => Ok result
  | (name, v) :: entries' =>
      result' <~ groupKey separator name v result ;;
      groupRecord separator entries' result'
  end.

Fixpoint groupBySeparator (records : list OrderedMap) (separator : string)
  : outcome (list OrderedMap) :=
  match records with
  | [] => Ok []
  | record :: records' =>
      result <~ groupRecord separator record [] ;;
      results <~ groupBySeparator records' separator ;;
      Ok (result :: results)
  end.

(** [hex.EncodeToString] *)
Definition hexDigit (n : N) : ascii :=
  match n with
  | 0 => "0" | 1 => "1" | 2 => "2" | 3 => "3" | 4 => "4" | 5 => "5"
  | 6 => "6" | 7 => "7" | 8 => "8" | 9 => "9" | 10 => "a" | 11 => "b"
  | 12 => "c" | 13 => "d" | 14 => "e" | _ => "f"
  end%N%char.

Fixpoint hexEncodeToString (bytes : list ascii) : string :=
  match bytes with
  | [] => EmptyString
  | b :: bytes' =>
      String (hexDigit (N.div (N_of_ascii b) 16))
        (String (hexDigit (N.modulo (N_of_ascii b) 16))
           (hexEncodeToString bytes'))
  end.

(** Insertion sort by [ByRevLen.Less], longer strings first; strings of
    equal length keep the order they came in. *)
Fixpoint insertByRevLen (x : string) (l : list string) : list string :=
  match l with
  | [] => [x]
  | y :: l' =>
      if (String.length x <? String.length y)%nat
      then y :: insertByRevLen x l'
      else x :: y :: l'
  end.

Fixpoint sortByRevLen (l : list string) : list string :=
  match l with
  | [] => []
  | x :: l' => insertByRevLen x (sortByRevLen l')
  end.

(** What the pipeline takes from outside the package. *)
Section Pipeline.

  (** [json.Marshal] of the leaves of one group; it can fail. *)
Variable jsonMarshal : value -> outcome string.

  (** [md5.Sum], sixteen bytes. *)
Variable md5Sum : string -> list ascii.

  (** The order in which [for key := range mapping] yields the keys of the
      Go map, given here in the order they were stored.  The language
      leaves it unspecified, and [sort.Sort] with [ByRevLen] fixes the
      order between keys of different lengths only. *)
Variable rangeOrder : list string -> list string.

  (** The first loop of [addHashes] over one record: the rewriting table. *)
Fixpoint hashMapping (entries : list (string * value))
      (mapping : list (string * string)) : outcome (list (string * string)) :=
    match entries with
    | [] => Ok mapping
    | (key, part) :: entries' =>
        if hasSuffix key "[]" then
          bytes <~ jsonMarshal part ;;
          let hash := hexEncodeToString (md5Sum bytes) in
          hashMapping entries'
            (oset key
               (takeStr (String.length key - 2) key +:+ ".!" +:+ hash +:+ "!")
               mapping)
        else hashMapping entries' mapping
    end.

  (** [mapping[search]], the empty string for a missing key. *)
Definition mappingAt (mapping : list (string * string)) (search : string)
    : string :=
    match oget search mapping with
    | Some s => s
    | None => EmptyString
    end.

  (** The inner loop over [mappingKeys] for one key. *)
Definition rewriteKey (mapping : list (string * string))
      (mappingKeys : list string) (key : string) : string :=
    fold_left
      (fun key search => replaceAll key search (mappingAt mapping search))
      mappingKeys key.

Definition addHashesRecord (record : OrderedMap) : outcome OrderedMap :=
    mapping <~ hashMapping record [] ;;
    let mappingKeys := sortByRevLen (rangeOrder (okeys mapping)) in
    Ok (fold_left
          (fun result kv =>
             oset (rewriteKey mapping mappingKeys (fst kv)) (snd kv) result)
          record []).

Fixpoint addHashes (records : list OrderedMap)
    : outcome (list OrderedMap) :=
    match records with
    | [] => Ok []
    | record :: records' =>
        result <~ addHashesRecord record ;;
        results <~ addHashes records' ;;
        Ok (result :: results)
    end.

End Pipeline.

(** The walk of [combineIntoTree] along one path: [current] is the map the
    walk stands on; a step onto an entry that is not a map leaves a nil
    map, and the next access to it panics. *)
Fixpoint setAtPath (path : list string) (v : value) (current : OrderedMap)
  : outcome OrderedMap :=
  match path with
  | [] => Panic
  | [newName] => Ok (oset newName v current)
  | p :: path' =>
      let current' :=
        match oget p current with
        | Some _ => current
        | None => oset p (VMap []) current
        end in
      match asMap (oget p current') with
      | Some nextMap =>
          nextMap' <~ setAtPath path' v nextMap ;;
          Ok (oset p (VMap nextMap') current')
      | None => Panic
      end
  end.

(** The loop over the keys of one group of one record. *)
Fixpoint combineGroup (separator name : string)
    (entries : list (string * value)) (results : OrderedMap)
  : outcome OrderedMap :=
  match entries with
  | [] => Ok results
  | (key, v) :: entries' =>
      results' <~ setAtPath (split (name +:+ key) separator) v results ;;
      combineGroup separator name entries' results'
  end.

Fixpoint combineRecord (separator : string) (record : list (string * value))
    (results : OrderedMap) : outcome OrderedMap :=
  match record with
  | [] => Ok results
  | (name, v) :: record' =>
      match asMap (Some v) with
      | Some valueMap =>
          results' <~ combineGroup separator name valueMap results ;;
          combineRecord separator record' results'
      | None => Panic
      end
  end.

Fixpoint combineRecords (separator : string) (records : list OrderedMap)
    (results : OrderedMap) : outcome OrderedMap :=
  match records with
  | [] => Ok results
  | record :: records' =>
      results' <~ combineRecord separator record results ;;
      combineRecords separator records' results'
  end.

(** [combineIntoTree]: the merged tree is what sits under the empty key; a
    nil map ([None]) when nothing does. *)
Definition combineIntoTree (records : list OrderedMap) (separator : string)
  : outcome (option OrderedMap) :=
  results <~ combineRecords separator records [] ;;
  Ok (asMap (oget EmptyString results)).

(** [removeHashes] on the tree of [combineIntoTree]; ranging over the keys
    of a nil map dereferences it. *)
Definition removeHashesOpt (tree : option OrderedMap) (path : string)
  : outcome value :=
  match tree with
  | Some t => removeHashes t path
  | None => Panic
  end.

(** The four stages after the records are read. *)
Definition fullPipeline (jsonMarshal : value -> outcome string)
    (md5Sum : string -> list ascii) (rangeOrder : list string -> list string)
    (records : list OrderedMap) : outcome value :=
  groups <~ groupBySeparator records "[]" ;;
  hashes <~ addHashes jsonMarshal md5Sum rangeOrder groups ;;
  tree <~ combineIntoTree hashes "." ;;
  removeHashesOpt tree "$".

(** [PathQuery] of [pathsqlx.go], from the column names and rows the query
    returned. *)
Definition PathQuery (jsonMarshal : value -> outcome string)
    (md5Sum : string -> list ascii) (rangeOrder : list string -> list string)
    (columns : list string) (rows : list (list scalar)) : outcome value :=
  paths <~ getPaths_unguarded columns ;;
  records <~ getAllRecords rows paths ;;
  fullPipeline jsonMarshal md5Sum rangeOrder records.

(** ** Queries without joins and without path hints *)

(** An output column name that is no path and holds no separator of the
    pipeline. *)
Definition plainColumn (column : string) : bool :=
  negb (String.eqb column EmptyString)
  && negb (hasPrefix column "$")
  && negb (contains column ".")
  && negb (contains column "[]").

(** The flat object of one row: the column names, in output order, each
    with the cell of the row. *)
Definition flatObject (columns : list string) (row : list scalar)
  : OrderedMap :=
  zip columns (map VScalar row).

(** The leaves of one row as [addHashes] finds them in the only group of
    the record, the one under the key of the root array marker. *)
Definition rowPart (columns : list string) (row : list scalar) : value :=
  VMap (zip (map (fun c => "." +:+ c) columns) (map VScalar row)).

(** The fingerprint token made from the marshalled leaves. *)
Definition hashToken (md5Sum : string -> list ascii) (bytes : string)
  : string :=
  "!" +:+ hexEncodeToString (md5Sum bytes) +:+ "!".

(** ** Stand-ins used to evaluate examples

    The encoder and the digest are outside the package.  To run the
    pipeline on concrete rows the examples use an encoder that writes a
    map of integer and text cells in the manner of JSON, the identity as
    digest (so that different encodings give different tokens) and, for
    the range over the rewriting table, the order of insertion or its
    reverse. *)

Definition sampleScalar (s : scalar) : string :=
  match s with
  | SNil => "null"
  | SInt i => pretty.pretty i
  | SFloat text => text
  | SBool true => "true"
  | SBool false => "false"
  | SText t => quote +:+ t +:+ quote
  end.

Definition sampleMarshal (v : value) : outcome string :=
  match v with
  | VMap m =>
      Ok ("{"
          +:+ join (map (fun kv =>
                           quote +:+ fst kv +:+ quote +:+ ":"
                           +:+ match snd kv with
                               | VScalar s => sampleScalar s
                               | _ => "?"
                               end) m) ","
          +:+ "}")
  | VScalar s => Ok (sampleScalar s)
  | VSeq _ => Ok "?"
  end.

Definition sampleMd5 (bytes : string) : list ascii :=
  list_ascii_of_string bytes.

Definition insertionOrder (keys : list string) : list string := keys.

Definition reverseOrder (keys : list string) : list string := rev keys.

(** ** Cardinality inference ([path_inference.go]) *)

(** [JoinColumn]: one equality of an ON clause. *)
Record JoinColumn : Type := mkJoinColumn
  { jcLeftAlias : string;
    jcLeftColumn : string;
    jcRightAlias : string;
    jcRightColumn : string }.

(** [JoinInfo] *)
Record JoinInfo : Type := mkJoinInfo
  { LeftAlias : string;
    LeftTable : string;
    RightAlias : string;
    RightTable : string;
    JoinType : string;
    Condition : string;
    OnColumns : list JoinColumn }.

(** [ForeignKey] *)
Record ForeignKey : Type := mkForeignKey
  { FromTable : string;
    FromColumn : string;
    ToTable : string;
    ToColumn : string }.

(** [QueryAnalysis]: the two Go maps are finite maps; the order in which a
    [range] over [Tables] yields the aliases is not part of the value. *)
Record QueryAnalysis : Type := mkQueryAnalysis
  { Tables : gmap string string;
    Joins : list JoinInfo;
    PathHints : gmap string string }.

Definition isLeftJoin (join : JoinInfo) : bool :=
  String.eqb (JoinType join) "LEFT" || String.eqb (JoinType join) "LEFT OUTER".

(** The right table has a foreign key to the left table on the column the
    predicate names on the right alias's side. *)
Definition rightToLeft (join : JoinInfo) (jc : JoinColumn) (fk : ForeignKey)
  : bool :=
  String.eqb (FromTable fk) (RightTable join)
  && String.eqb (ToTable fk) (LeftTable join)
  && ((String.eqb (jcRightAlias jc) (RightAlias join)
       && String.eqb (jcRightColumn jc) (FromColumn fk))
      || (String.eqb (jcLeftAlias jc) (RightAlias join)
          && String.eqb (jcLeftColumn jc) (FromColumn fk))).

(** The left table has a foreign key to the right table on the column the
    predicate names on the left alias's side. *)
Definition leftToRight (join : JoinInfo) (jc : JoinColumn) (fk : ForeignKey)
  : bool :=
  String.eqb (FromTable fk) (LeftTable join)
  && String.eqb (ToTable fk) (RightTable join)
  && ((String.eqb (jcLeftAlias jc) (LeftAlias join)
       && String.eqb (jcLeftColumn jc) (FromColumn fk))
      || (String.eqb (jcRightAlias jc) (LeftAlias join)
          && String.eqb (jcRightColumn jc) (FromColumn fk))).

(** The body of the inner loop: [Some b] stands for [return b]. *)
Definition fkVerdict (join : JoinInfo) (jc : JoinColumn) (fk : ForeignKey)
  : option bool :=
  if rightToLeft join jc fk then Some true
  else if leftToRight join jc fk then Some false
  else None.

(** A loop that returns from its first iteration that has a verdict. *)
Fixpoint firstVerdict {A} (body : A -> option bool) (l : list A)
  : option bool :=
  match l with
  | [] => None
  | x :: l' =>
      match body x with
      | Some b => Some b
      | None => firstVerdict body l'
      end
  end.

Definition isOneToManyJoin (join : JoinInfo) (allFKs : list ForeignKey)
  : bool :=
  match OnColumns join with
  | [] => isLeftJoin join
  | _ :: _ =>
      match firstVerdict
              (fun jc => firstVerdict (fkVerdict join jc) allFKs)
              (OnColumns join) with
      | Some b => b
      | None => isLeftJoin join
      end
  end.

(** The set built by the first loop over the joins. *)
Definition joinedAliases (joins : list JoinInfo) : gset string :=
  list_to_set (map RightAlias joins).

(** The loop that looks for the root: the first alias the range yields
    that is no join's right side; the empty string when there is none. *)
Fixpoint findRoot (order : list string) (joined : gset string) : string :=
  match order with
  | [] => EmptyString
  | alias :: order' =>
      if decide (alias ∈ joined) then findRoot order' joined else alias
  end.

(** The flag of the root, from the hint found for it. *)
Definition rootFlag (hint : option string) (joins : list JoinInfo) : bool :=
  match hint with
  | Some hintPath =>
      if hasSuffix hintPath "[]" then true
      else if String.eqb hintPath "$" then false
      else (0 <? length joins)%nat
  | None => true
  end.

(** [buildCardinalityMap].  [allFKs] is what [GetAllForeignKeys] returned
    and [order] the order in which the range over [analysis.Tables] yields
    its aliases.  The function writes to the analysis it is given: the
    result holds the analysis as it is left and the map. *)
Definition buildCardinalityMap (allFKs : outcome (list ForeignKey))
    (order : list string) (analysis : QueryAnalysis)
  : outcome (QueryAnalysis * gmap string bool) :=
  fks <~ allFKs ;;
  let joined := joinedAliases (Joins analysis) in
  let rootAlias := findRoot order joined in
  let '(rootAlias, analysis) :=
    match PathHints analysis !! "$" with
    | Some hintPath =>
        let '(rootAlias, tables) :=
          if String.eqb rootAlias EmptyString
          then ("$", <["$" := "$"]> (Tables analysis))
          else (rootAlias, Tables analysis) in
        (rootAlias,
         mkQueryAnalysis tables (Joins analysis)
           (<[rootAlias := hintPath]> (PathHints analysis)))
    | None => (rootAlias, analysis)
    end in
  let cardinality : gmap string bool :=
    if String.eqb rootAlias EmptyString then ∅
    else {[ rootAlias := rootFlag (PathHints analysis !! rootAlias)
                           (Joins analysis) ]} in
  let cardinality :=
    fold_left
      (fun c join => <[RightAlias join := isOneToManyJoin join fks]> c)
      (Joins analysis) cardinality in
  let cardinality :=
    map_fold
      (fun alias _ c =>
         match c !! alias with
         | Some _ => c
         | None => <[alias := true]> c
         end)
      cardinality (Tables analysis) in
  Ok (analysis, cardinality).



(** The hint that decides the flag of the root: a hint for [$], when the
    query has one, is written over the hint of the root. *)
Definition effectiveHint (analysis : QueryAnalysis) (root : string)
  : option string :=
  match PathHints analysis !! "$" with
  | Some hintPath => Some hintPath
  | None => PathHints analysis !! root
  end.

(** ** convertBytes

    [fmt.Sscanf] and [strconv] are modelled on bytes below 128 and, for
    floating-point tokens, on plain decimal numerals (digits with at most
    one period, after an optional sign).  Where the input leaves that
    fragment the model answers [None]. *)

Definition isDigit (c : ascii) : bool :=
  (48 <=? nat_of_ascii c)%nat && (nat_of_ascii c <=? 57)%nat.

Definition isSign (c : ascii) : bool :=
  Ascii.eqb c "+" || Ascii.eqb c "-".

(** [isSpace] on bytes below 128, the newline apart. *)
Definition isBlank (c : ascii) : bool :=
  match nat_of_ascii c with
  | 9 | 11 | 12 | 13 | 32 => true
  | _ => false
  end.

Definition isAscii (s : string) : bool :=
  forallb (fun c => (nat_of_ascii c <? 128)%nat) (list_ascii_of_string s).

(** [SkipSpace] of a scan where a newline is no space: [None] is the error
    unexpected newline. *)
Fixpoint skipSpace (s : string) : option string :=
  match s with
  | EmptyString => Some s
  | String c s' =>
      if Ascii.eqb c "010" then None
      else if isBlank c then skipSpace s'
      else Some s
  end.

(** [for s.accept(digits) {}]: the digits read and the rest. *)
Fixpoint spanDigits (s : string) : string * string :=
  match s with
  | EmptyString => (EmptyString, s)
  | String c s' =>
      if isDigit c
      then let '(ds, rest) := spanDigits s' in (String c ds, rest)
      else (EmptyString, s)
  end.

(** [s.accept(sign)] and [s.accept(period)] *)
Definition acceptIf (ok : ascii -> bool) (s : string) : string * string :=
  match s with
  | String c s' => if ok c then (String c EmptyString, s') else (EmptyString, s)
  | EmptyString => (EmptyString, s)
  end.

Definition digitValue (c : ascii) : Z := Z.of_nat (nat_of_ascii c) - 48.

Definition digitsValue (ds : string) : Z :=
  fold_left (fun acc c => 10 * acc + digitValue c)%Z
    (list_ascii_of_string ds) 0%Z.

(** [strconv.ParseInt(tok, 10, 64)] on a token made of an optional sign
    and digits: out of range is an error. *)
Definition parseInt64 (signTok digits : string) : option Z :=
  let v := if String.eqb signTok "-" then (- digitsValue digits)%Z
           else digitsValue digits in
  if ((- 2 ^ 63 <=? v) && (v <? 2 ^ 63))%Z then Some v else None.

(** [fmt.Sscanf(s, "%d", &i)]: the integer, or [None] for an error. *)
Definition sscanfInt (s : string) : option Z :=
  match skipSpace s with
  | None => None
  | Some s1 =>
      match skipSpace s1 with
      | None => None
      | Some EmptyString => None
      | Some s2 =>
          let '(sg, s3) := acceptIf isSign s2 in
          let '(ds, _) := spanDigits s3 in
          match ds with
          | EmptyString => None
          | _ => parseInt64 sg ds
          end
      end
  end.

(** A byte that makes [floatToken] leave the plain decimal numerals: the
    letters of NaN and Inf, of the exponent and of the hexadecimal prefix,
    and the underscore. *)
Definition leadsOutside (c : ascii) : bool :=
  existsb (Ascii.eqb c)
    (list_ascii_of_string "nNiIeEpPxX_").

(** [floatToken] on plain decimal numerals: sign, digits, period, digits.
    [None] when the byte at which a group ends could extend the token
    outside the fragment. *)
Definition floatToken (s : string) : option string :=
  let '(sg, s1) := acceptIf isSign s in
  let '(ds, s2) := spanDigits s1 in
  let '(pt, s3) := acceptIf (Ascii.eqb ".") s2 in
  let '(fs, s4) := if String.eqb pt "." then spanDigits s3
                   else (EmptyString, s3) in
  let stops (rest : string) :=
    match rest with
    | String c _ => leadsOutside c
    | EmptyString => false
    end in
  match s with
  | String c _ => if leadsOutside c then None
                  else if stops s1 || stops s2 || stops s4 then None
                  else Some (sg +:+ ds +:+ pt +:+ fs)
  | EmptyString => Some EmptyString
  end.

(** [strconv.ParseFloat] accepts a plain decimal numeral exactly when it
    has a digit. *)
Definition hasDigit (tok : string) : bool :=
  existsb isDigit (list_ascii_of_string tok).

(** [strconv.ParseFloat(tok, 64)] reports a range error for a plain
    decimal numeral that rounds to an infinity: one whose whole part is
    at least 2^1024 - 2^970, half a unit in the last place above the
    largest float64 (the digits after the period cannot bring a smaller
    whole part there). *)
Definition floatOverflows (tok : string) : bool :=
  let '(_, s1) := acceptIf isSign tok in
  let '(ds, _) := spanDigits s1 in
  (2 ^ 1024 - 2 ^ 970 <=? digitsValue ds)%Z.

(** [fmt.Sscanf(s, "%f", &f)]: [Some (Some tok)] when it stores the number
    written [tok], [Some None] when it returns an error (no digit, or a
    number out of the range of float64), [None] outside the fragment. *)
Definition sscanfFloat (s : string) : option (option string) :=
  match skipSpace s with
  | None => Some None
  | Some s1 =>
      match skipSpace s1 with
      | None => Some None
      | Some EmptyString => Some None
      | Some s2 =>
          match floatToken s2 with
          | None => None
          | Some tok =>
              Some (if hasDigit tok && negb (floatOverflows tok)
                    then Some tok else None)
          end
      end
  end.

(** [fmt.Sprintf("%d", i)] *)
Definition sprintfInt (i : Z) : string := pretty.pretty i.

(** [convertBytes]; [None] outside the modelled fragment. *)
Definition convertBytes (b : string) : option scalar :=
  if negb (isAscii b) then None
  else
    let s := b in
    match (match sscanfInt s with
           | Some i => if String.eqb (sprintfInt i) s then Some i else None
           | None => None
           end) with
    | Some i => Some (SInt i)
    | None =>
        match sscanfFloat s with
        | None => None
        | Some (Some tok) =>
            if contains s "." then Some (SFloat tok) else Some (SText s)
        | Some None => Some (SText s)
        end
    end.

(** ** The later [PathQuery]: two shortcuts before the pipeline *)

(** The key [getAllRecords] of the later revision stores a cell under: the
    path without its leading '$' and without an array marker at the end
    of its last segment. *)
Definition recordKey (path : string) : string :=
  let path := if hasPrefix path "$" then dropStr 1 path else path in
  match lastIndex path "." with
  | Some lastDot =>
      let finalKey := dropStr (lastDot + 1) path in
      if hasSuffix finalKey "[]"
      then takeStr (lastDot + 1) path
           +:+ takeStr (String.length finalKey - 2) finalKey
      else path
  | None => path
  end.

(** The two flags computed from the paths. *)
Definition isObjectResult (paths : list string) : bool :=
  forallb
    (fun path =>
       negb (contains path "[]")
       && negb (negb (hasPrefix path "$.") || hasPrefix path "$[]."
                || hasPrefix path "$[]"))
    paths.

Definition hasArrayMarkers (paths : list string) : bool :=
  existsb (fun path => contains path "[]") paths.

(** The walk of the object shortcut along the parts of one key: an entry
    on the way that is no map is replaced by a new map. *)
Fixpoint setAtPathLenient (parts : list string) (v : value)
    (current : OrderedMap) : OrderedMap :=
  match parts with
  | [] => current
  | [lastName] => oset lastName v current
  | part :: parts' =>
      let current' :=
        match oget part current with
        | Some _ => current
        | None => oset part (VMap []) current
        end in
      let nextMap :=
        match asMap (oget part current') with
        | Some m => m
        | None => []
        end in
      oset part (VMap (setAtPathLenient parts' v nextMap)) current'
  end.

(** One key of the first record in the object shortcut. *)
Definition objectKey (result : OrderedMap) (kv : string * value)
  : OrderedMap :=
  let key := fst kv in
  let key := if hasPrefix key "." then dropStr 1 key else key in
  if contains key "."
  then setAtPathLenient (split key ".") (snd kv) result
  else oset key (snd kv) result.

(** The object shortcut: the nested object built from one record. *)
Definition objectShortcut (record : OrderedMap) : OrderedMap :=
  fold_left objectKey record [].

(** The array shortcut: every record as a flat mapping of its own. *)
Definition arrayShortcut (records : list OrderedMap) : value :=
  VSeq (map (fun record => VMap (setAll record [])) records).

(** The full pipeline of the later revision, which reports a nil tree as
    an error. *)
Definition fullPipelineChecked (jsonMarshal : value -> outcome string)
    (md5Sum : string -> list ascii) (rangeOrder : list string -> list string)
    (records : list OrderedMap) : outcome value :=
  groups <~ groupBySeparator records "[]" ;;
  hashes <~ addHashes jsonMarshal md5Sum rangeOrder groups ;;
  tree <~ combineIntoTree hashes "." ;;
  match tree with
  | None => Err "combineIntoTree returned nil tree"
  | Some t => removeHashes t "$"
  end.

(** The end of the later [PathQuery], from the assigned paths and the
    records read. *)
Definition reconstruct (jsonMarshal : value -> outcome string)
    (md5Sum : string -> list ascii) (rangeOrder : list string -> list string)
    (paths : list string) (records : list OrderedMap) : outcome value :=
  if isObjectResult paths && (0 <? length records)%nat then
    match records with
    | record :: _ => Ok (VMap (objectShortcut record))
    | [] => Panic
    end
  else if negb (hasArrayMarkers paths) then Ok (arrayShortcut records)
  else fullPipelineChecked jsonMarshal md5Sum rangeOrder records.

(** No key of the value, at any depth, holds a period. *)
Fixpoint dotFree (v : value) : bool :=
  match v with
  | VScalar _ => true
  | VMap m =>
      forallb (fun kv => negb (contains (fst kv) ".") && dotFree (snd kv)) m
  | VSeq l => forallb dotFree l
  end.

(** ** The structural analyser

    The regular expressions of the analyser, [strings.ToUpper] and
    [strings.TrimSpace] are library code: the analyser is modelled over
    what they return (a match of a regular expression cannot fail).  The
    slice [condition[:idx]] and the writes to the maps are the analyser's
    own. *)

(** [strings.Index(s, sub)]; [None] stands for -1. *)
Fixpoint indexFrom (s sub : string) (i : nat) : option nat :=
  if hasPrefix s sub then Some i
  else match s with
       | EmptyString => None
       | String _ s' => indexFrom s' sub (S i)
       end.

Definition index (s sub : string) : option nat := indexFrom s sub 0.

(** [s[:idx]]; out of range when [idx] is past the end. *)
Definition sliceTo (s : string) (idx : nat) : outcome string :=
  if (idx <=? String.length s)%nat then Ok (takeStr idx s) else Panic.

Definition stopWords : list string :=
  ["WHERE"; "GROUP BY"; "GROUP"; "ORDER BY"; "ORDER"; "LIMIT"; "HAVING"].

Definition clauseKeywords : list string :=
  ["WHERE"; "LEFT"; "RIGHT"; "INNER"; "OUTER"; "JOIN"; "ORDER"; "GROUP";
   "LIMIT"; "HAVING"].

Section Analyser.

  (** [strings.ToUpper] and [strings.TrimSpace] *)
Variable toUpper : string -> string.
Variable trimSpace : string -> string.

  (** The submatches (alias, path) of the hint expression, in order. *)
Variable hintMatches : string -> list (string * string).

  (** [removeComments] *)
Variable removeComments : string -> string.

  (** The first submatch of the FROM expression, when it matches. *)
Variable fromMatch : string -> option string.

  (** The split of a table specification on runs of white space. *)
Variable spaceSplit : string -> list string.

  (** The four submatches of every match of the JOIN expression. *)
Variable joinMatches : string -> list (string * string * string * string).

  (** [parseJoinCondition]: the equalities found in a condition. *)
Variable parseJoinCondition : string -> list JoinColumn.

  (** The order of a range over the table map. *)
Variable rangeTables : gmap string string -> list (string * string).

Definition extractPathHints (sql : string) : gmap string string :=
    fold_left (fun hints m => <[fst m := snd m]> hints) (hintMatches sql) ∅.

  (** One item of the FROM list. *)
Definition fromItem (tables : gmap string string) (tableSpec : string)
    : gmap string string :=
    let tableSpec := trimSpace tableSpec in
    if String.eqb tableSpec EmptyString then tables
    else
      match spaceSplit tableSpec with
      | [] => tables
      | tableName :: rest =>
          let alias :=
            match rest with
            | [] => tableName
            | second :: rest' =>
                match rest' with
                | third :: _ =>
                    if String.eqb (toUpper second) "AS" then third
                    else second
                | [] =>
                    if String.eqb (toUpper second) "AS" then tableName
                    else second
                end
            end in
          if existsb (String.eqb (toUpper alias)) clauseKeywords
          then tables
          else <[alias := tableName]> tables
      end.

Definition extractFromClause (sql : string) (tables : gmap string string)
    : gmap string string :=
    match fromMatch (removeComments sql) with
    | Some tableList => fold_left fromItem (split tableList ",") tables
    | None => tables
    end.

  (** The loop over the stop words: the condition is cut at the first stop
      word found in its upper-case copy, at the index found there. *)
Fixpoint trimAtStopWord (words : list string) (condition : string)
    : outcome string :=
    match words with
    | [] => Ok condition
    | word :: words' =>
        match index (toUpper condition) word with
        | Some idx =>
            cut <~ sliceTo condition idx ;; Ok (trimSpace cut)
        | None => trimAtStopWord words' condition
        end
    end.

  (** The first alias of the range that is not [alias]. *)
Fixpoint firstOther (alias : string) (entries : list (string * string))
    : string * string :=
    match entries with
    | [] => (EmptyString, EmptyString)
    | (a, t) :: entries' =>
        if String.eqb a alias then firstOther alias entries' else (a, t)
    end.

  (** One match of the JOIN expression. *)
Definition joinStep (analysis : QueryAnalysis)
      (m : string * string * string * string) : outcome QueryAnalysis :=
    let '(kind, tableName, aliasMatch, conditionMatch) := m in
    let joinType := trimSpace (toUpper kind) in
    let joinType :=
      if String.eqb joinType EmptyString then "INNER"
      else trimSpace joinType in
    let alias :=
      if String.eqb aliasMatch EmptyString then tableName else aliasMatch in
    condition <~ trimAtStopWord stopWords (trimSpace conditionMatch) ;;
    let tables := <[alias := tableName]> (Tables analysis) in
    let onColumns := parseJoinCondition condition in
    let '(leftAlias, leftTable) :=
      match onColumns with
      | jc :: _ =>
          let '(leftAlias, leftTable) :=
            if String.eqb (jcRightAlias jc) alias
            then (jcLeftAlias jc, EmptyString)
            else if String.eqb (jcLeftAlias jc) alias
                 then (jcRightAlias jc, EmptyString)
                 else firstOther alias (rangeTables tables) in
          if String.eqb leftAlias EmptyString then (leftAlias, leftTable)
          else match tables !! leftAlias with
               | Some lt => (leftAlias, lt)
               | None => (leftAlias, leftTable)
               end
      | [] => firstOther alias (rangeTables tables)
      end in
    Ok (mkQueryAnalysis tables
          (Joins analysis
           ++ [mkJoinInfo leftAlias leftTable alias tableName joinType
                 condition onColumns])
          (PathHints analysis)).

Fixpoint joinLoop (analysis : QueryAnalysis)
      (ms : list (string * string * string * string))
    : outcome QueryAnalysis :=
    match ms with
    | [] => Ok analysis
    | m :: ms' =>
        analysis' <~ joinStep analysis m ;; joinLoop analysis' ms'
    end.

Definition extractJoins (sql : string) (analysis : QueryAnalysis)
    : outcome QueryAnalysis :=
    joinLoop analysis (joinMatches (removeComments sql)).

  (** [AnalyzeQuery]: the analysis and the error it returns with it, which
      is always nil. *)
Definition AnalyzeQuery (sql : string)
    : outcome (QueryAnalysis * option string) :=
    let hints := extractPathHints sql in
    let tables := extractFromClause sql ∅ in
    analysis <~ extractJoins sql (mkQueryAnalysis tables [] hints) ;;
    Ok (analysis, None).

End Analyser.

(** The letter U+0250 (two bytes in UTF-8) and its upper case U+2C6F (three
    bytes). *)
Definition turnedA : string := String "201" (String "144" EmptyString).

Definition turnedCapitalA : string :=
  String "226" (String "177" (String "175" EmptyString)).

Fixpoint repeatStr (n : nat) (s : string) : string :=
  match n with
  | O => EmptyString
  | S n' => s +:+ repeatStr n' s
  end.

(** An ON condition that names a column of six such letters, up to the
    WHERE that follows it, and its upper-case copy. *)
Definition growingCondition : string := repeatStr 6 turnedA +:+ " WHERE".

Definition growingConditionUpper : string :=
  repeatStr 6 turnedCapitalA +:+ " WHERE".

(** ** Definitions used by the proofs *)

Definition mapsOf (g : value -> value) (tree : list (string * value))
  : list (string * value) :=
  flat_map (fun kv => if isMap (snd kv) then [(fst kv, g (snd kv))] else [])
    tree.

(** The tree of two entries, a nested map before a leaf. *)
Definition mapBeforeLeaf : OrderedMap :=
  [("a", VMap [("x", VScalar (SInt 1))]); ("b", VScalar (SInt 2))].

(** The tree of one nested map under the empty key. *)
Definition emptyKeyTree : OrderedMap :=
  [(EmptyString, VMap [("x", VScalar (SInt 1))])].

Definition runningPrefix (p0 : string) (cols : list string) : string :=
  fold_left (fun p c => match dollarPrefix c with Some p' => p' | None => p end)
    cols p0.

Definition assignedPath (p column : string) : string :=
  match dollarPrefix column with
  | Some p' => p' +:+ "." +:+ dollarProp column
  | None => p +:+ "." +:+ column
  end.

Definition mapKeys (pre : string -> string) (cvs : list (string * value))
  : list (string * value) :=
  map (fun kv => (pre (fst kv), snd kv)) cvs.

(** The map found under [tok], empty when there is none. *)
Definition mapUnder (tok : string) (T : OrderedMap) : OrderedMap :=
  match asMap (oget tok T) with
  | Some M => M
  | None => []
  end.

(** Under [tok] there is a map or nothing. *)
Definition mapOrAbsent (tok : string) (T : OrderedMap) : Prop :=
  oget tok T = None \/ exists M, oget tok T = Some (VMap M).

(** One row put into the tree of tokens: its leaves are set in the map
    under its token. *)
Definition putRow (tok : string) (cvs : list (string * value))
    (T : OrderedMap) : OrderedMap :=
  oset tok (VMap (setAll cvs (mapUnder tok T))) T.

(** Every entry of the tree of tokens is the flat object of some row. *)
Definition flatEntry (columns : list string) (kv : string * value) : Prop :=
  exists row : list scalar,
    snd kv = VMap (flatObject columns row) /\ length row = length columns.

(** The record [addHashes] makes from one row, given its token. *)
Definition hashedRecord (columns : list string) (tr : string * list scalar)
  : OrderedMap :=
  [("." +:+ fst tr,
    VMap (mapKeys (fun c => "." +:+ c) (flatObject columns (snd tr))))].

Definition tokenEntries (columns : list string)
    (trs : list (string * list scalar)) : OrderedMap :=
  map (fun tr => (fst tr, VMap (flatObject columns (snd tr)))) trs.

Definition goodRow (columns : list string) (tr : string * list scalar)
  : Prop :=
  contains (fst tr) "." = false /\ length (snd tr) = length columns.

(** One row under three columns with paths: two array boundaries of the
    same length, the end of the first being the start of the second, and a
    third boundary that holds both. *)
Definition overlappingRecord : OrderedMap :=
  [(".aaa[].x", VScalar (SInt 1));
   ("[].b[].y", VScalar (SInt 2));
   (".aaa[].b[].c[].z", VScalar (SInt 3))].

(** Its three groups, as [groupBySeparator] leaves them. *)
Definition overlappingGroups : list OrderedMap :=
  [[(".aaa[]", VMap [(".x", VScalar (SInt 1))]);
    ("[].b[]", VMap [(".y", VScalar (SInt 2))]);
    (".aaa[].b[].c[]", VMap [(".z", VScalar (SInt 3))])]].

(** The record after [addHashes] when [".aaa[]"] is replaced before
    ["[].b[]"], for the digests [h1], [h2], [h3] of the three groups. *)
Definition hashedOuterFirst (h1 h2 h3 : string) : list OrderedMap :=
  [[(".aaa.!" +:+ h1 +:+ "!", VMap [(".x", VScalar (SInt 1))]);
    ("[].b.!" +:+ h2 +:+ "!", VMap [(".y", VScalar (SInt 2))]);
    (".aaa.!" +:+ h1 +:+ "!.b[].c.!" +:+ h3 +:+ "!",
     VMap [(".z", VScalar (SInt 3))])]].

(** The same when ["[].b[]"] is replaced before [".aaa[]"]. *)
Definition hashedInnerFirst (h1 h2 h3 : string) : list OrderedMap :=
  [[(".aaa.!" +:+ h1 +:+ "!", VMap [(".x", VScalar (SInt 1))]);
    ("[].b.!" +:+ h2 +:+ "!", VMap [(".y", VScalar (SInt 2))]);
    (".aaa.!" +:+ h1 +:+ "!.b.!" +:+ h2 +:+ "!.c.!" +:+ h3 +:+ "!",
     VMap [(".z", VScalar (SInt 3))])]].

(** The two trees [removeHashes] returns for them. *)
Definition treeOuterFirst : value :=
  VMap
    [("aaa",
      VSeq
        [VMap
           [("x", VScalar (SInt 1));
            ("b[]", VMap [("c", VSeq [VMap [("z", VScalar (SInt 3))]])])]])].

Definition treeInnerFirst : value :=
  VMap
    [("aaa",
      VSeq
        [VMap
           [("x", VScalar (SInt 1));
            ("b",
             VSeq [VMap [("c", VSeq [VMap [("z", VScalar (SInt 3))]])]])]])].

(** [err == nil] after a call. *)
Definition succeeds {A} (o : outcome A) : bool :=
  match o with
  | Ok _ => true
  | _ => false
  end.

(** The pair of predicate and foreign keys of the 1:1 join of the
    counterexample: posts point at their latest comment, comments at
    their post. *)
Definition latestCommentJoin : JoinInfo :=
  mkJoinInfo "p" "posts" "c" "comments" "INNER"
    "p.last_comment_id = c.id AND c.post_id = p.id"
    [mkJoinColumn "p" "last_comment_id" "c" "id";
     mkJoinColumn "c" "post_id" "p" "id"].

Definition blogForeignKeys : list ForeignKey :=
  [mkForeignKey "comments" "post_id" "posts" "id";
   mkForeignKey "posts" "last_comment_id" "comments" "id"].

(** The query of the counterexample: one table, a hint for its alias that
    ends with the array marker and a hint for [$] that is the bare root. *)
Definition twoHintsAnalysis : QueryAnalysis :=
  mkQueryAnalysis {[ "p" := "posts" ]} []
    {[ "p" := "$.x[]"; "$" := "$" ]}.

(** The query of the test named nested statistics object: one table, no
    join, a hint that neither ends with the array marker nor is the bare
    root. *)
Definition statisticsAnalysis : QueryAnalysis :=
  mkQueryAnalysis {[ "p" := "posts" ]} [] {[ "p" := "$.statistics" ]}.

(** An entry of a record under object-shaped paths: the key starts with a
    period and holds no array marker, the value is a cell. *)
Definition objectKeyShape (kv : string * value) : Prop :=
  hasPrefix (fst kv) "." = true
  /\ contains (fst kv) "[]" = false
  /\ isMap (snd kv) = false.

Definition ensureMap (p : string) (T : OrderedMap) : OrderedMap :=
  match oget p T with
  | Some _ => T
  | None => oset p (VMap []) T
  end.

Definition rhDotFree (st : rhState) : Prop :=
  dotFree (VMap (rh_values st)) = true
  /\ dotFree (VMap (rh_trees st)) = true
  /\ forallb dotFree (rh_results st) = true.

(** A record read under paths without array markers: at least one cell,
    no key twice, every key with a period (every assigned path has one
    before its last segment) and without an array marker, every value a
    cell. *)
Definition flatRecordShape (record : OrderedMap) : Prop :=
  record <> []
  /\ NoDup (okeys record)
  /\ Forall (fun kv => contains (fst kv) "[]" = false
                       /\ contains (fst kv) "." = true
                       /\ dotFree (snd kv) = true) record.

Definition nestedBeforeLeafRecord : OrderedMap :=
  [(".a.x", VScalar (SInt 1)); (".b", VScalar (SInt 2))].

Definition unrootedRecords : list OrderedMap :=
  [[("a.b", VScalar (SInt 1))]; [("a.b", VScalar (SInt 2))]].

(** * Further code of the package *)

(** ** splitSelectColumns and splitRespectingParentheses

    Both functions have the same body.  [for _, ch := range s] yields the
    runes of the clause, and every rune is written back with [WriteRune]:
    the clause is taken as the list of runes the range yields, and a piece
    as the list of runes written to the builder (which holds a byte as soon
    as it holds a rune).  [depth] is a Go [int], of 64 bits.  The bytes
    that the range reads and the builder holds come further down, with
    [splitSelectColumnsBytes]. *)
Definition rune : Type := Z.

Definition runeOf (c : ascii) : rune := Z.of_N (N_of_ascii c).

Definition wrapInt (z : Z) : Z := ((z + 2 ^ 63) mod 2 ^ 64 - 2 ^ 63)%Z.

Record splitter : Type := mkSplitter
  { sp_result : list (list rune);
    sp_current : list rune;
    sp_depth : Z }.

(** One round of the loop. *)
Definition splitRune (st : splitter) (ch : rune) : splitter :=
  if (ch =? runeOf "(")%Z then
    mkSplitter (sp_result st) (sp_current st ++ [ch])
      (wrapInt (sp_depth st + 1))
  else if (ch =? runeOf ")")%Z then
    mkSplitter (sp_result st) (sp_current st ++ [ch])
      (wrapInt (sp_depth st - 1))
  else if (ch =? runeOf ",")%Z then
    if (sp_depth st =? 0)%Z
    then mkSplitter (sp_result st ++ [sp_current st]) [] (sp_depth st)
    else mkSplitter (sp_result st) (sp_current st ++ [ch]) (sp_depth st)
  else mkSplitter (sp_result st) (sp_current st ++ [ch]) (sp_depth st).

Definition splitSelectColumns (selectClause : list rune) : list (list rune) :=
  let st := fold_left splitRune selectClause (mkSplitter [] [] 0) in
  if (0 <? length (sp_current st))%nat
  then sp_result st ++ [sp_current st]
  else sp_result st.

Definition splitRespectingParentheses (s : list rune) : list (list rune) :=
  splitSelectColumns s.


(** The runes of a text of bytes below 128. *)
Definition runesOf (s : string) : list rune :=
  map runeOf (list_ascii_of_string s).

(** The state in which the loop starts. *)
Definition splitStart : splitter := mkSplitter [] [] 0.

(** A piece the loop reads from the start without cutting it. *)
Definition uncut (p : list rune) : Prop :=
  exists depth, fold_left splitRune p splitStart = mkSplitter [] p depth.

Definition noParen (ch : rune) : Prop :=
  ch <> runeOf "(" /\ ch <> runeOf ")".

(** ** The clause as bytes

    The clause is a Go string: bytes.  [for _, ch := range s] reads them
    as UTF-8, one rune a round; a byte that starts no well-formed
    sequence is yielded as the rune U+FFFD and the next round starts one
    byte further.  [WriteRune] appends the UTF-8 bytes of the rune to the
    builder.  Bytes are numbers below 256. *)

(** [byte(x)] *)
Definition byte (x : Z) : Z := (x mod 256)%Z.

(** The byte [b] as an element of a string. *)
Definition byteChar (b : Z) : ascii := ascii_of_N (Z.to_N b).

Definition runeError : rune := 0xFFFD%Z.

(** [locb <= b && b <= hicb] *)
Definition continues (b : Z) : bool := ((0x80 <=? b) && (b <=? 0xBF))%Z.

(** [decoderune] of the run time, at the start of [s]: the rune and the
    number of bytes read. *)
Definition decoderune (s : string) : rune * nat :=
  let bad := (runeError, 1%nat) in
  match s with
  | EmptyString => bad
  | String c0 rest =>
      let b0 := runeOf c0 in
      if ((0xC0 <=? b0) && (b0 <? 0xE0))%Z then
        match rest with
        | String c1 _ =>
            let b1 := runeOf c1 in
            if continues b1 then
              let r := Z.lor (Z.shiftl (Z.land b0 0x1F) 6) (Z.land b1 0x3F) in
              if (0x7F <? r)%Z then (r, 2%nat) else bad
            else bad
        | _ => bad
        end
      else if ((0xE0 <=? b0) && (b0 <? 0xF0))%Z then
        match rest with
        | String c1 (String c2 _) =>
            let b1 := runeOf c1 in
            let b2 := runeOf c2 in
            if continues b1 && continues b2 then
              let r := Z.lor (Z.lor (Z.shiftl (Z.land b0 0x0F) 12)
                                    (Z.shiftl (Z.land b1 0x3F) 6))
                             (Z.land b2 0x3F) in
              if ((0x7FF <? r) && negb ((0xD800 <=? r) && (r <=? 0xDFFF)))%Z
              then (r, 3%nat) else bad
            else bad
        | _ => bad
        end
      else if ((0xF0 <=? b0) && (b0 <? 0xF8))%Z then
        match rest with
        | String c1 (String c2 (String c3 _)) =>
            let b1 := runeOf c1 in
            let b2 := runeOf c2 in
            let b3 := runeOf c3 in
            if continues b1 && continues b2 && continues b3 then
              let r := Z.lor (Z.lor (Z.lor (Z.shiftl (Z.land b0 0x07) 18)
                                           (Z.shiftl (Z.land b1 0x3F) 12))
                                    (Z.shiftl (Z.land b2 0x3F) 6))
                             (Z.land b3 0x3F) in
              if ((0xFFFF <? r) && (r <=? 0x10FFFF))%Z
              then (r, 4%nat) else bad
            else bad
        | _ => bad
        end
      else bad
  end.

(** One round of a range over [s]: a byte below [RuneSelf] is its own
    rune, any other start goes through [decoderune]. *)
Definition rangeRound (s : string) : rune * nat :=
  match s with
  | String c _ =>
      if (runeOf c <? 0x80)%Z then (runeOf c, 1%nat) else decoderune s
  | EmptyString => (runeError, 1%nat)
  end.

(** The runes a range over [s] yields.  Every round reads at least one
    byte, so [rounds] rounds read a string of [rounds] bytes to its
    end. *)
Fixpoint rangeFrom (rounds : nat) (s : string) : list rune :=
  match rounds, s with
  | S rounds', String _ _ =>
      fst (rangeRound s) :: rangeFrom rounds' (dropStr (snd (rangeRound s)) s)
  | _, _ => []
  end.

Definition rangeString (s : string) : list rune :=
  rangeFrom (String.length s) s.

(** [WriteRune(r)]: the bytes appended, those of [utf8.EncodeRune]; [i] is
    [uint32(r)] and [cont x] the byte [tx | byte(x)&maskx].  (A rune that
    a range yields is not negative.) *)
Definition writeRune (r : rune) : string :=
  let i := (r mod 2 ^ 32)%Z in
  let cont (x : Z) := byteChar (Z.lor 0x80 (Z.land (byte x) 0x3F)) in
  let three (r : rune) :=
    String (byteChar (Z.lor 0xE0 (byte (Z.shiftr r 12))))
      (String (cont (Z.shiftr r 6)) (String (cont r) EmptyString)) in
  if (i <=? 0x7F)%Z then String (byteChar (byte r)) EmptyString
  else if (i <=? 0x7FF)%Z then
    String (byteChar (Z.lor 0xC0 (byte (Z.shiftr r 6))))
      (String (cont r) EmptyString)
  else if ((0x10FFFF <? i) || ((0xD800 <=? i) && (i <=? 0xDFFF)))%Z then
    three runeError
  else if (i <=? 0xFFFF)%Z then three r
  else
    String (byteChar (Z.lor 0xF0 (byte (Z.shiftr r 18))))
      (String (cont (Z.shiftr r 12))
         (String (cont (Z.shiftr r 6)) (String (cont r) EmptyString))).


(** The loop of [splitSelectColumns] on the clause as it is, with the
    builder and the pieces as byte strings. *)
Record byteSplitter : Type := mkByteSplitter
  { bs_result : list string;
    bs_current : string;
    bs_depth : Z }.

Definition splitRound (st : byteSplitter) (ch : rune) : byteSplitter :=
  if (ch =? runeOf "(")%Z then
    mkByteSplitter (bs_result st) (bs_current st +:+ writeRune ch)
      (wrapInt (bs_depth st + 1))
  else if (ch =? runeOf ")")%Z then
    mkByteSplitter (bs_result st) (bs_current st +:+ writeRune ch)
      (wrapInt (bs_depth st - 1))
  else if (ch =? runeOf ",")%Z then
    if (bs_depth st =? 0)%Z
    then mkByteSplitter (bs_result st ++ [bs_current st]) EmptyString
           (bs_depth st)
    else mkByteSplitter (bs_result st) (bs_current st +:+ writeRune ch)
           (bs_depth st)
  else mkByteSplitter (bs_result st) (bs_current st +:+ writeRune ch)
         (bs_depth st).

Definition splitSelectColumnsBytes (selectClause : string) : list string :=
  let st := fold_left splitRound (rangeString selectClause)
              (mkByteSplitter [] EmptyString 0) in
  if (0 <? String.length (bs_current st))%nat
  then bs_result st ++ [bs_current st]
  else bs_result st.


Definition utf8 (r : Z) : string :=
  let tail (x : Z) := byteChar (0x80 + x mod 64) in
  if (r <? 0x80)%Z then String (byteChar r) EmptyString
  else if (r <? 0x800)%Z then
    String (byteChar (0xC0 + r / 64)) (String (tail r) EmptyString)
  else if (r <? 0x10000)%Z then
    String (byteChar (0xE0 + r / 4096))
      (String (tail (r / 64)%Z) (String (tail r) EmptyString))
  else
    String (byteChar (0xF0 + r / 262144))
      (String (tail (r / 4096)%Z)
         (String (tail (r / 64)%Z) (String (tail r) EmptyString))).



(** ** Path inference ([path_inference.go])

    The engine holds a [MetadataReader]; the methods it calls are taken
    as what they return.  A [range] over [analysis.Tables] yields the
    entries of the map in an order of its own, which can differ from one
    range to the next: every range takes the list of entries it yields. *)

(** [TableMetadata] *)
Record TableMetadata : Type := mkTableMetadata
  { tmName : string;
    tmColumns : list string;
    tmPrimaryKeys : list string;
    tmForeignKeys : list ForeignKey }.

(** The five ranges over the tables met while one column is given its
    path: three in [guessAliasForColumn], one in [findRootAlias], one in
    [buildPathRecursive]. *)
Record columnRanges : Type := mkColumnRanges
  { rangeOnly : list (string * string);
    rangeMetadata : list (string * string);
    rangeFirst : list (string * string);
    rangeRoot : list (string * string);
    rangePath : list (string * string) }.

(** [cardinality[alias]]: false for a missing key. *)
Definition cardinalityOf (cardinality : gmap string bool) (alias : string)
  : bool :=
  default false (cardinality !! alias).

(** [findRootAlias] *)
Definition findRootAlias (range : list (string * string))
    (analysis : QueryAnalysis) : string :=
  findRoot (map fst range) (joinedAliases (Joins analysis)).

(** [buildPathRecursive] *)
Definition buildPathRecursive (range : list (string * string))
    (targetAlias : string) (analysis : QueryAnalysis)
    (cardinality : gmap string bool) (visited : gset string) : string :=
  if decide (targetAlias ∈ visited) then EmptyString
  else
    let rootAlias :=
      findRoot (map fst range) (joinedAliases (Joins analysis)) in
    let isRoot := String.eqb targetAlias rootAlias in
    if isRoot then
      if cardinalityOf cardinality targetAlias
      then "$[]." +:+ targetAlias
      else "$." +:+ targetAlias
    else if cardinalityOf cardinality rootAlias then
      if cardinalityOf cardinality targetAlias
      then "$[]." +:+ targetAlias +:+ "[]"
      else "$[]." +:+ targetAlias
    else if cardinalityOf cardinality targetAlias
         then "$." +:+ targetAlias +:+ "[]"
         else "$." +:+ targetAlias.

(** [buildPathToTable] *)
Definition buildPathToTable (range : list (string * string))
    (targetAlias : string) (analysis : QueryAnalysis)
    (cardinality : gmap string bool) : string :=
  buildPathRecursive range targetAlias analysis cardinality ∅.

Section Inference.

  (** [e.metadata.GetTableMetadata] *)
Variable getTableMetadata : string -> outcome TableMetadata.

  (** The second loop of [guessAliasForColumn]: the first table of the
      range whose metadata lists the column; a table whose metadata cannot
      be read is passed over. *)
Fixpoint guessFromMetadata (column : string)
    (range : list (string * string)) : outcome (option string) :=
  match range with
  | [] => Ok None
  | (alias, tableName) :: range' =>
      match getTableMetadata tableName with
      | Ok metadata =>
          if existsb (fun col => String.eqb col column) (tmColumns metadata)
          then Ok (Some alias)
          else guessFromMetadata column range'
      | Err _ => guessFromMetadata column range'
      | Panic => Panic
      end
  end.

  (** [guessAliasForColumn] *)
Definition guessAliasForColumn (ranges : columnRanges) (column : string)
    (analysis : QueryAnalysis) : outcome string :=
  match (if (size (Tables analysis) =? 1)%nat then rangeOnly ranges else [])
  with
  | (alias, _) :: _ => Ok alias
  | [] =>
      found <~ guessFromMetadata column (rangeMetadata ranges) ;;
      match found with
      | Some alias => Ok alias
      | None =>
          match rangeFirst ranges with
          | (alias, _) :: _ => Ok alias
          | [] => Ok EmptyString
          end
      end
  end.

  (** The path under a hint: the hint gets an array marker when the table
      has many rows and the hint does not end with one. *)
Definition underHint (hintPath colName : string) (many : bool) : string :=
  if many then
    if negb (hasSuffix hintPath "[]")
    then hintPath +:+ "[]." +:+ colName
    else hintPath +:+ "." +:+ colName
  else hintPath +:+ "." +:+ colName.

  (** The first part of [inferColumnPath]: either the path is returned
      ([inl]) or the alias and the column name are known ([inr]). *)
Definition columnAlias (ranges : columnRanges) (column : string)
    (analysis : QueryAnalysis) (cardinality : gmap string bool)
    : outcome (string + string * string) :=
  match split column "." with
  | [alias; colName] =>
      match PathHints analysis !! alias with
      | Some hintPath =>
          Ok (inl (underHint hintPath colName
                     (cardinalityOf cardinality alias)))
      | None => Ok (inr (alias, colName))
      end
  | _ =>
      let colName := column in
      alias <~ guessAliasForColumn ranges colName analysis ;;
      if String.eqb alias EmptyString then
        match PathHints analysis !! "$" with
        | Some hintPath => Ok (inl (hintPath +:+ "." +:+ colName))
        | None => Ok (inl ("$." +:+ colName))
        end
      else
        match PathHints analysis !! alias with
        | Some hintPath =>
            Ok (inl (underHint hintPath colName
                       (cardinalityOf cardinality alias)))
        | None => Ok (inr (alias, colName))
        end
  end.

  (** The path of a table under the hint of the root. *)
Definition underRootHint (rootHint rootAlias alias colName : string)
    (cardinality : gmap string bool) : string :=
  if String.eqb alias rootAlias then
    underHint rootHint colName (cardinalityOf cardinality alias)
  else if cardinalityOf cardinality rootAlias then
    if cardinalityOf cardinality alias then
      if negb (hasSuffix rootHint "[]")
      then rootHint +:+ "[]." +:+ alias +:+ "[]." +:+ colName
      else rootHint +:+ "." +:+ alias +:+ "[]." +:+ colName
    else
      if negb (hasSuffix rootHint "[]")
      then rootHint +:+ "[]." +:+ alias +:+ "." +:+ colName
      else rootHint +:+ "." +:+ alias +:+ "." +:+ colName
  else
    if cardinalityOf cardinality alias
    then rootHint +:+ "." +:+ alias +:+ "[]." +:+ colName
    else rootHint +:+ "." +:+ alias +:+ "." +:+ colName.

  (** [inferColumnPath]; the error it returns is always nil. *)
Definition inferColumnPath (ranges : columnRanges) (column : string)
    (analysis : QueryAnalysis) (cardinality : gmap string bool)
    : outcome string :=
  r <~ columnAlias ranges column analysis cardinality ;;
  match r with
  | inl path => Ok path
  | inr (alias, colName) =>
      if (length (Joins analysis) =? 0)%nat then
        if cardinalityOf cardinality alias
        then Ok ("$[]." +:+ colName)
        else Ok ("$." +:+ colName)
      else
        let rootAlias := findRootAlias (rangeRoot ranges) analysis in
        match PathHints analysis !! rootAlias with
        | Some rootHint =>
            Ok (underRootHint rootHint rootAlias alias colName cardinality)
        | None =>
            let path :=
              buildPathToTable (rangePath ranges) alias analysis
                cardinality in
            Ok (path +:+ "." +:+ colName)
        end
  end.

  (** The loop of [InferPaths] over the columns; [ranges i] holds the
      ranges met for the column at index [i]. *)
Fixpoint inferLoop (ranges : nat -> columnRanges) (i : nat)
    (columns : list string) (analysis : QueryAnalysis)
    (cardinality : gmap string bool) (paths : gmap string string)
    : outcome (gmap string string) :=
  match columns with
  | [] => Ok paths
  | col :: columns' =>
      path <~ inferColumnPath (ranges i) col analysis cardinality ;;
      inferLoop ranges (S i) columns' analysis cardinality
        (<[col := path]> paths)
  end.

  (** [InferPaths].  [allFKs] is what [GetAllForeignKeys] returns and
      [order] the range of [buildCardinalityMap]; the columns are given
      their paths in the analysis as [buildCardinalityMap] leaves it. *)
Definition InferPaths (allFKs : outcome (list ForeignKey))
    (order : list string) (ranges : nat -> columnRanges)
    (analysis : QueryAnalysis) (columns : list string)
    : outcome (gmap string string) :=
  r <~ buildCardinalityMap allFKs order analysis ;;
  inferLoop ranges 0 columns (fst r) (snd r) ∅.

  (** [InferPathsWithFallback] *)
Definition InferPathsWithFallback (allFKs : outcome (list ForeignKey))
    (order : list string) (ranges : nat -> columnRanges)
    (analysis : QueryAnalysis) (columns : list string)
    : outcome (gmap string string) :=
  match InferPaths allFKs order ranges analysis columns with
  | Ok paths => Ok paths
  | Err _ =>
      Ok (fold_left (fun paths col => <[col := "$[]." +:+ col]> paths)
            columns ∅)
  | Panic => Panic
  end.

End Inference.

(** [ValidatePaths]; [paths] are the values of the map in the order the
    range yields them, [None] is the nil error. *)
Definition conflictingPaths (basePath : string) : string :=
  "conflicting paths: both " +:+ basePath +:+ " and " +:+ basePath
  +:+ "[] exist".

Fixpoint validateLoop (paths : list string) (pathMap : gset string)
  : option string :=
  match paths with
  | [] => None
  | path :: paths' =>
      let parts := split path "." in
      if (1 <? length parts)%nat then
        let basePath := join (initParts parts) "." in
        let arrayPath := basePath +:+ "[]" in
        if bool_decide (basePath ∈ pathMap) && contains path "[]"
        then Some (conflictingPaths basePath)
        else if bool_decide (arrayPath ∈ pathMap)
                && negb (contains path "[]")
             then Some (conflictingPaths basePath)
             else validateLoop paths' ({[ path ]} ∪ pathMap)
      else validateLoop paths' pathMap
  end.

Definition ValidatePaths (paths : list string) : option string :=
  validateLoop paths ∅.

(** ** Definitions used by the proofs about the inference *)

(** The column name [inferColumnPath] ends the path with: the part after
    the period of [alias.column], the whole name otherwise. *)
Definition columnName (column : string) : string :=
  match split column "." with
  | [_; colName] => colName
  | _ => column
  end.

(** Every range met for a column yields the entries of the table map. *)
Definition rangesOver (tables : gmap string string) (ranges : columnRanges)
  : Prop :=
  rangeOnly ranges ≡ₚ map_to_list tables
  /\ rangeMetadata ranges ≡ₚ map_to_list tables
  /\ rangeFirst ranges ≡ₚ map_to_list tables
  /\ rangeRoot ranges ≡ₚ map_to_list tables
  /\ rangePath ranges ≡ₚ map_to_list tables.

(** The path of a column of a query without joins and hints. *)
Definition defaultPath (tables : gmap string string) (column : string)
  : string :=
  match split column "." with
  | [alias; colName] =>
      if decide (alias ∈ dom tables) then "$[]." +:+ colName
      else "$." +:+ colName
  | _ =>
      if decide (tables = ∅) then "$." +:+ column else "$[]." +:+ column
  end.

(** The same range at every site. *)
Definition sameRange (range : list (string * string)) : columnRanges :=
  mkColumnRanges range range range range range.

(** A reader without metadata, and one that knows the columns of the
    tables of the blog. *)
Definition noMetadata (tableName : string) : outcome TableMetadata :=
  Err "unsupported driver: sqlite3".

Definition blogMetadata (tableName : string) : outcome TableMetadata :=
  if String.eqb tableName "posts"
  then Ok (mkTableMetadata "posts" ["id"; "title"; "category_id"] ["id"] [])
  else if String.eqb tableName "categories"
       then Ok (mkTableMetadata "categories" ["id"; "name"] ["id"] [])
       else Err "no such table".

(** One table, no join, no hint. *)
Definition postsAnalysis : QueryAnalysis :=
  mkQueryAnalysis {[ "posts" := "posts" ]} [] ∅.

(** Two tables in the FROM list and a joined one. *)
Definition commaJoinAnalysis : QueryAnalysis :=
  mkQueryAnalysis
    {[ "p" := "posts"; "cat" := "categories"; "c" := "comments" ]}
    [mkJoinInfo "p" "posts" "c" "comments" "LEFT" "c.post_id = p.id"
       [mkJoinColumn "c" "post_id" "p" "id"]]
    ∅.

(** Two tables in the FROM list, no join. *)
Definition twoTablesAnalysis : QueryAnalysis :=
  mkQueryAnalysis {[ "p" := "posts"; "cat" := "categories" ]} [] ∅.

(** ** The metadata reader ([metadata.go])

    The reader is taken one call at a time (the mutex is not modelled).
    What the database answers during a call is given with the call: the
    foreign keys [getMySQLForeignKeys] and [getPostgresForeignKeys] read,
    and, for each of the four queries of [getColumns] and
    [getPrimaryKeys], the names read for a table.  [fkCache] is a slice
    that is nil or holds a key: every slice written to it is built by
    [append] from a nil slice, so that [fkCache != nil] is the test that
    the list is not empty. *)
Inductive nameQuery : Type :=
| MySQLColumns
| PostgresColumns
| MySQLPrimaryKeys
| PostgresPrimaryKeys.

Record database : Type := mkDatabase
  { dbMySQLForeignKeys : outcome (list ForeignKey);
    dbPostgresForeignKeys : outcome (list ForeignKey);
    dbNames : nameQuery -> string -> outcome (list string) }.

(** [metadataReaderImpl] *)
Record metadataReader : Type := mkMetadataReader
  { driverName : string;
    cache : gmap string TableMetadata;
    fkCache : list ForeignKey }.

Definition NewMetadataReader (driver : string) : metadataReader :=
  mkMetadataReader driver ∅ [].

Definition InvalidateCache (r : metadataReader) : metadataReader :=
  mkMetadataReader (driverName r) ∅ [].

Definition unsupportedDriver (driver : string) : string :=
  "unsupported driver: " +:+ driver.

(** [GetAllForeignKeys]: what it returns and the reader as it leaves it. *)
Definition GetAllForeignKeys (db : database) (r : metadataReader)
  : outcome (list ForeignKey) * metadataReader :=
  match fkCache r with
  | _ :: _ => (Ok (fkCache r), r)
  | [] =>
      let read :=
        if String.eqb (driverName r) "mysql" then dbMySQLForeignKeys db
        else if String.eqb (driverName r) "postgres"
             then dbPostgresForeignKeys db
             else Err (unsupportedDriver (driverName r)) in
      match read with
      | Ok fks => (Ok fks, mkMetadataReader (driverName r) (cache r) fks)
      | Err e => (Err e, r)
      | Panic => (Panic, r)
      end
  end.

(** [GetForeignKeys] *)
Definition GetForeignKeys (db : database) (r : metadataReader)
    (tableName : string) : outcome (list ForeignKey) * metadataReader :=
  let '(allFKs, r) := GetAllForeignKeys db r in
  (fks <~ allFKs ;;
   Ok (List.filter (fun fk => String.eqb (FromTable fk) tableName) fks),
   r).

(** [getColumns] and [getPrimaryKeys] *)
Definition getColumns (db : database) (r : metadataReader)
    (tableName : string) : outcome (list string) :=
  if String.eqb (driverName r) "mysql" then dbNames db MySQLColumns tableName
  else if String.eqb (driverName r) "postgres"
       then dbNames db PostgresColumns tableName
       else Err (unsupportedDriver (driverName r)).

Definition getPrimaryKeys (db : database) (r : metadataReader)
    (tableName : string) : outcome (list string) :=
  if String.eqb (driverName r) "mysql"
  then dbNames db MySQLPrimaryKeys tableName
  else if String.eqb (driverName r) "postgres"
       then dbNames db PostgresPrimaryKeys tableName
       else Err (unsupportedDriver (driverName r)).

(** [GetTableMetadata] *)
Definition GetTableMetadata (db : database) (r : metadataReader)
    (tableName : string) : outcome TableMetadata * metadataReader :=
  match cache r !! tableName with
  | Some cached => (Ok cached, r)
  | None =>
      match getColumns db r tableName with
      | Ok columns =>
          match getPrimaryKeys db r tableName with
          | Ok pks =>
              let '(fks, r) := GetForeignKeys db r tableName in
              match fks with
              | Ok fks =>
                  let metadata := mkTableMetadata tableName columns pks fks in
                  (Ok metadata,
                   mkMetadataReader (driverName r)
                     (<[tableName := metadata]> (cache r)) (fkCache r))
              | Err e => (Err e, r)
              | Panic => (Panic, r)
              end
          | Err e => (Err e, r)
          | Panic => (Panic, r)
          end
      | Err e => (Err e, r)
      | Panic => (Panic, r)
      end
  end.

(** A database of the blog, and the same after the comments lost their
    foreign key and the posts gained a column. *)
Definition blogDatabase : database :=
  mkDatabase (Ok blogForeignKeys) (Ok blogForeignKeys)
    (fun q tableName =>
       match q with
       | MySQLColumns | PostgresColumns =>
           if String.eqb tableName "posts" then Ok ["id"; "title"]
           else Ok ["id"; "post_id"]
       | _ => Ok ["id"]
       end).

Definition laterDatabase : database :=
  mkDatabase (Ok []) (Ok [])
    (fun q tableName =>
       match q with
       | MySQLColumns | PostgresColumns =>
           if String.eqb tableName "posts" then Ok ["id"; "title"; "views"]
           else Ok ["id"; "post_id"]
       | _ => Ok ["id"]
       end).

(** ** Reading an analysis *)

(** [GetTableForAlias] *)
Definition GetTableForAlias (a : QueryAnalysis) (alias : string)
  : string * bool :=
  match Tables a !! alias with
  | Some table => (table, true)
  | None => (EmptyString, false)
  end.

(** The loop of [GetJoinForTable]: the first join with that right alias. *)
Fixpoint firstJoinFor (joins : list JoinInfo) (alias : string)
  : option JoinInfo :=
  match joins with
  | [] => None
  | join :: joins' =>
      if String.eqb (RightAlias join) alias then Some join
      else firstJoinFor joins' alias
  end.

(** [GetJoinForTable]; [None] is the nil pointer. *)
Definition GetJoinForTable (a : QueryAnalysis) (alias : string)
  : option JoinInfo :=
  firstJoinFor (Joins a) alias.

(** The last join with that right alias. *)
Definition lastJoinFor (joins : list JoinInfo) (alias : string)
  : option JoinInfo :=
  firstJoinFor (rev joins) alias.

(** The analysis of a query with one table in its FROM list and one
    join, and the join. *)
Definition postsCommentsJoin : JoinInfo :=
  mkJoinInfo "p" "posts" "c" "comments" "LEFT" "c.post_id = p.id"
    [mkJoinColumn "c" "post_id" "p" "id"].

Definition postsCommentsAnalysis : QueryAnalysis :=
  mkQueryAnalysis {[ "p" := "posts"; "c" := "comments" ]}
    [postsCommentsJoin] ∅.

(** ** Definitions used by the proofs about the pipeline *)

(** The group a key of a record is put in by [groupBySeparator], and the
    name it has there. *)
Definition groupOf (separator name : string) : string :=
  let parts := split name separator in
  let path := join (initParts parts) separator in
  if (0 <? length parts - 1)%nat then path +:+ separator else path.

Definition nameInGroup (separator name : string) : string :=
  lastPart (split name separator).

(** The cell of a record is found in the grouped record. *)
Definition cellKept (separator : string) (result : OrderedMap)
    (kv : string * value) : Prop :=
  exists sub,
    oget (groupOf separator (fst kv)) result = Some (VMap sub)
    /\ oget (nameInGroup separator (fst kv)) sub = Some (snd kv).

(** Reading a tree along a path, as [combineIntoTree] walks it. *)
Fixpoint getAtPath (path : list string) (current : OrderedMap)
  : option value :=
  match path with
  | [] => None
  | [name] => oget name current
  | p :: path' =>
      match oget p current with
      | Some (VMap next) => getAtPath path' next
      | _ => None
      end
  end.

(** The walk along the path meets, before its last name, an entry that is
    no map. *)
Fixpoint blockedPath (path : list string) (current : OrderedMap) : bool :=
  match path with
  | [] => false
  | [name] => false
  | p :: path' =>
      match oget p current with
      | Some (VMap next) => blockedPath path' next
      | Some _ => true
      | None => false
      end
  end.

(** ** The later [PathQuery]: from the column names to the paths

    [selectColumns] are the pieces [splitSelectColumns] returned for the
    SELECT clause (none when the expression for the clause does not
    match). *)

(** [strings.SplitN(s, sep, 2)] *)
Definition splitFirst (s sep : string) : list string :=
  match index s sep with
  | Some i => [takeStr i s; dropStr (i + String.length sep) s]
  | None => [s]
  end.

Section PathSelection.

Variable trimSpace : string -> string.
Variable getTableMetadata : string -> outcome TableMetadata.

  (** One round of the loop over the columns: the name the inference is
      asked about. *)
Definition mapColumn (tables : gmap string string)
    (selectColumns : list string) (i : nat) (col : string) : string :=
  if hasPrefix col "$" then col
  else
    match selectColumns !! i with
    | Some piece =>
        let selectCol := trimSpace piece in
        if contains selectCol "." && negb (contains selectCol "(") then
          match splitFirst selectCol "." with
          | [part0; _] =>
              let tableAlias := trimSpace part0 in
              match tables !! tableAlias with
              | Some _ => tableAlias +:+ "." +:+ col
              | None => col
              end
          | _ => col
          end
        else col
    | None => col
    end.

Definition columnMapping (tables : gmap string string)
    (selectColumns columns : list string) : list string :=
  imap (mapColumn tables selectColumns) columns.

Definition hasExplicitPaths (columns : list string) : bool :=
  existsb (fun col => hasPrefix col "$") columns.

  (** The paths of the columns: those of [getPaths] as soon as one
      column is a path, the inferred ones otherwise. *)
Definition choosePaths (allFKs : outcome (list ForeignKey))
    (order : list string) (ranges : nat -> columnRanges)
    (analysis : QueryAnalysis) (selectColumns columns : list string)
    : outcome (list string) :=
  let mapping := columnMapping (Tables analysis) selectColumns columns in
  if hasExplicitPaths columns then getPaths columns
  else
    inferredPaths <~ InferPathsWithFallback getTableMetadata allFKs order
                       ranges analysis mapping ;;
    Ok (imap
          (fun i col =>
             match mapping !! i with
             | Some name =>
                 match inferredPaths !! name with
                 | Some path => path
                 | None => "$[]." +:+ col
                 end
             | None => "$[]." +:+ col
             end)
          columns).

End PathSelection.
(** * Proofs *)

(** ** Induction over values, through the maps and sequences they hold *)

Section ValueInd.
Variable P : value -> Prop.
Hypothesis Hscalar : forall s, P (VScalar s).
Hypothesis Hmap :
    forall m, Forall (fun kv => P (snd kv)) m -> P (VMap m).
Hypothesis Hseq : forall l, Forall P l -> P (VSeq l).

Fixpoint value_nested_ind (v : value) : P v :=
    match v with
    | VScalar s => Hscalar s
    | VMap m =>
        Hmap m
          ((fix go (m : list (string * value))
              : Forall (fun kv => P (snd kv)) m :=
              match m with
              | [] => List.Forall_nil _
              | kv :: m' =>
                  List.Forall_cons _ kv m' (value_nested_ind (snd kv)) (go m')
              end) m)
    | VSeq l =>
        Hseq l
          ((fix go (l : list value) : Forall P l :=
              match l with
              | [] => List.Forall_nil _
              | x :: l' => List.Forall_cons _ x l' (value_nested_ind x) (go l')
              end) l)
    end.
End ValueInd.

(** ** Ordered maps *)

Lemma okeys_oset_head {V} (k : string) (v : V) (o : list (string * V)) :
  head (okeys (oset k v o)) = head (okeys (o ++ [(k, v)])).
Proof.
  destruct o as [|[k0 w] o]; simpl; [reflexivity|].
  destruct (String.eqb k0 k); reflexivity.
Qed.

Lemma oset_nonempty {V} (k : string) (v : V) (o : list (string * V)) :
  oset k v o <> [].
Proof.
  destruct o as [|[k0 w] o]; simpl; [discriminate|].
  destruct (String.eqb k0 k); discriminate.
Qed.

Lemma setAll_head (kvs o : OrderedMap) :
  head (okeys (setAll kvs o)) = head (okeys (o ++ kvs)).
Proof.
  revert o. induction kvs as [|[k v] kvs IH]; intros o; simpl.
  - now rewrite app_nil_r.
  - unfold setAll in *. simpl. rewrite IH.
    destruct o as [|[k0 w] o]; simpl; [reflexivity|].
    destruct (String.eqb k0 k); reflexivity.
Qed.

Lemma setAll_nil_iff (kvs : OrderedMap) : setAll kvs [] = [] <-> kvs = [].
Proof.
  split; [|intros ->; reflexivity].
  intros H. pose proof (setAll_head kvs []) as Hh. rewrite H in Hh.
  destruct kvs; [reflexivity|discriminate].
Qed.

(** ** removeHashes, node by node *)

Lemma removeHashesNode_map (tree : list (string * value)) (path : string) :
  removeHashesNode (VMap tree) path
  = (st <~ rhLoop path tree rhEmpty ;; rhFinish path st).
Proof. reflexivity. Qed.

Lemma rhLoop_cons (path key : string) (v : value) es st :
  rhLoop path ((key, v) :: es) st
  = match v with
    | VMap _ =>
        match key with
        | EmptyString => Panic
        | _ =>
            result <~ removeHashesNode v (childPath path key) ;;
            rhLoop path es
              (if isHashKey key
               then mkRh (rh_values st) (rh_trees st)
                      (rh_results st ++ [result])
               else mkRh (rh_values st) (oset key result (rh_trees st))
                      (rh_results st))
        end
    | _ =>
        rhLoop path es
          (mkRh (oset key v (rh_values st)) (rh_trees st) (rh_results st))
    end.
Proof.
  unfold childPath. destruct v; try reflexivity.
  destruct key; [reflexivity|]. simpl.
  destruct (isHashKey (String a key)); reflexivity.
Qed.

Lemma resolved_map (tree : list (string * value)) :
  resolved (VMap tree)
  = match taggedOf tree with
    | [] => VMap (setAll (setAll (nestedOf tree) [])
                    (setAll (setAll (leavesOf tree) []) []))
    | _ :: _ => VSeq (taggedOf tree)
    end.
Proof. reflexivity. Qed.

Lemma hasConflict_leaf (v : value) : isMap v = false -> hasConflict v = false.
Proof. destruct v; simpl; congruence. Qed.

Lemma rhLoop_spec (path : string) (es : list (string * value)) :
  Forall childResolves es ->
  forall st,
    (existsb (fun kv => hasConflict (snd kv)) es = true ->
     exists key sub p h,
       In (key, VMap sub) es
       /\ ConflictAt sub (childPath path key) p h
       /\ rhLoop path es st = Err (hiddenError p h))
    /\ (existsb (fun kv => hasConflict (snd kv)) es = false ->
        rhLoop path es st
        = Ok (mkRh (setAll (leavesOf es) (rh_values st))
                (setAll (nestedOf es) (rh_trees st))
                (rh_results st ++ taggedOf es))).
Proof.
  induction 1 as [|[key v] es Hkv Hes IH]; intros st.
  - split; [discriminate|]. intros _. simpl. rewrite app_nil_r.
    destruct st; reflexivity.
  - rewrite rhLoop_cons. cbn [existsb snd].
    destruct v as [s|sub|l].
    + cbn [hasConflict orb].
      destruct (IH (mkRh (oset key (VScalar s) (rh_values st)) (rh_trees st)
                      (rh_results st))) as [IHe IHo].
      split.
      * intros Hc. destruct (IHe Hc) as (k & sb & p & h & Hin & Hca & Heq).
        exists k, sb, p, h. split; [right; exact Hin|]. split; assumption.
      * intros Hc. rewrite (IHo Hc). reflexivity.
    + destruct Hkv as [Hne Hsub]. cbn [fst snd] in Hne, Hsub.
      destruct key as [|a key]; [congruence|].
      destruct (Hsub (childPath path (String a key))) as [Herr Hok].
      destruct (hasConflict (VMap sub)) eqn:Hc.
      * split; [|discriminate]. intros _.
        destruct (Herr eq_refl) as (p & h & Hca & Heq).
        exists (String a key), sub, p, h.
        split; [left; reflexivity|]. split; [exact Hca|].
        rewrite Heq. reflexivity.
      * rewrite (Hok eq_refl). cbn [bind orb].
        set (st' := if isHashKey (String a key) then _ else _).
        destruct (IH st') as [IHe IHo]. split.
        -- intros Hex. destruct (IHe Hex) as (k & sb & p & h & Hin & Hca & Heq).
           exists k, sb, p, h. split; [right; exact Hin|]. split; assumption.
        -- intros Hex. rewrite (IHo Hex). subst st'.
           unfold leavesOf, nestedOf, taggedOf. cbn [List.filter flat_map].
           unfold isLeaf, isPlainChild, isTaggedChild. cbn [fst snd isMap].
           cbn [negb andb].
           destruct (isHashKey (String a key)); cbn [negb app rh_values
             rh_trees rh_results setAll fold_left fst snd].
           ++ rewrite <- app_assoc. reflexivity.
           ++ reflexivity.
    + cbn [hasConflict orb].
      destruct (IH (mkRh (oset key (VSeq l) (rh_values st)) (rh_trees st)
                      (rh_results st))) as [IHe IHo].
      split.
      * intros Hc. destruct (IHe Hc) as (k & sb & p & h & Hin & Hca & Heq).
        exists k, sb, p, h. split; [right; exact Hin|]. split; assumption.
      * intros Hc. rewrite (IHo Hc). reflexivity.
Qed.

Lemma taggedOf_nil_iff (tree : list (string * value)) :
  taggedOf tree = [] <-> existsb isTaggedChild tree = false.
Proof.
  induction tree as [|kv tree IH]; simpl; [tauto|].
  destruct (isTaggedChild kv); simpl; [split; discriminate|exact IH].
Qed.

Lemma nestedOf_nil_iff (tree : list (string * value)) :
  nestedOf tree = [] <-> existsb isPlainChild tree = false.
Proof.
  induction tree as [|kv tree IH]; simpl; [tauto|].
  destruct (isPlainChild kv); simpl; [split; discriminate|exact IH].
Qed.

Lemma leavesOf_nil_iff (tree : list (string * value)) :
  leavesOf tree = [] <-> existsb isLeaf tree = false.
Proof.
  induction tree as [|kv tree IH]; simpl; [tauto|].
  destruct (isLeaf kv); simpl; [split; discriminate|exact IH].
Qed.

Lemma nestedOf_head_key (tree : list (string * value)) :
  head (okeys (nestedOf tree))
  = head (okeys (List.filter (fun kv => isPlainChild kv) tree)).
Proof.
  induction tree as [|kv tree IH]; simpl; [reflexivity|].
  destruct (isPlainChild kv); simpl; [reflexivity|exact IH].
Qed.

(** The keys hidden at a node, in the order [removeHashes] lists them. *)
Lemma hidden_keys (tree : list (string * value)) :
  head (okeys (setAll (leavesOf tree) [])
        ++ okeys (setAll (nestedOf tree) []))
  = firstHidden tree.
Proof.
  unfold firstHidden. fold (leavesOf tree).
  destruct (leavesOf tree) as [|kv lv] eqn:Hl.
  - cbn [setAll fold_left okeys map app].
    change (map fst (fold_left (fun acc kv => oset (fst kv) (snd kv) acc)
                       (nestedOf tree) []))
      with (okeys (setAll (nestedOf tree) [])).
    rewrite setAll_head, app_nil_l, nestedOf_head_key.
    destruct (List.filter (fun kv => isPlainChild kv) tree); reflexivity.
  - pose proof (setAll_head (kv :: lv) []) as Hh. rewrite app_nil_l in Hh.
    destruct (setAll (kv :: lv) []) as [|x xs] eqn:Hs.
    + apply (proj1 (setAll_nil_iff _)) in Hs. discriminate.
    + simpl in *. exact Hh.
Qed.

Lemma conflictHere_false_tagged (tree : list (string * value)) :
  conflictHere tree = false ->
  existsb isTaggedChild tree = true ->
  leavesOf tree = [] /\ nestedOf tree = [].
Proof.
  unfold conflictHere. intros Hc Ht. rewrite Ht in Hc. simpl in Hc.
  apply orb_false_elim in Hc as [Hl Hp].
  split; [apply leavesOf_nil_iff|apply nestedOf_nil_iff]; assumption.
Qed.

(** The resolver meets its specification on every tree in which no nested
    map sits under the empty key. *)
Lemma removeHashes_resolves (node : value) :
  hasEmptyMapKey node = false ->
  match node with
  | VMap tree => forall path, resolves tree path
  | _ => True
  end.
Proof.
  induction node as [s|tree IH|l _] using value_nested_ind; try exact (fun _ => I).
  intros Hne path.
  cbn [hasEmptyMapKey] in Hne. apply orb_false_elim in Hne as [Hk Hsub].
  assert (Hkids : Forall childResolves tree).
  { clear path. induction tree as [|[k v] tree IHt]; constructor.
    - inversion_clear IH as [|? ? Hv _]. cbn [existsb fst snd] in Hk, Hsub.
      apply orb_false_elim in Hk as [Hk _].
      apply orb_false_elim in Hsub as [Hsub _].
      unfold childResolves. cbn [fst snd] in *.
      destruct v as [s|sub|l]; try exact I. split.
      + intros ->. discriminate.
      + exact (Hv Hsub).
    - inversion_clear IH. cbn [existsb] in Hk, Hsub.
      apply orb_false_elim in Hk as [_ Hk].
      apply orb_false_elim in Hsub as [_ Hsub]. auto. }
  destruct (rhLoop_spec path tree Hkids rhEmpty) as [Lerr Lok].
  unfold resolves. rewrite removeHashesNode_map. cbn [hasConflict].
  destruct (existsb (fun kv => hasConflict (snd kv)) tree) eqn:Hbelow.
  - rewrite orb_true_r. split; [|discriminate]. intros _.
    destruct (Lerr eq_refl) as (key & sub & p & h & Hin & Hca & Heq).
    exists p, h. split; [eapply ConflictBelow; eassumption|].
    rewrite Heq. reflexivity.
  - rewrite orb_false_r, (Lok eq_refl). cbn [bind rhEmpty rh_values rh_trees
      rh_results app]. unfold rhFinish. cbn [rh_values rh_trees rh_results].
    split.
    + intros Hc. assert (Hc' := Hc). unfold conflictHere in Hc'.
      apply andb_true_iff in Hc' as [Ht Ho].
      destruct (taggedOf tree) eqn:Htag.
      { apply (proj1 (taggedOf_nil_iff _)) in Htag. congruence. }
      pose proof (hidden_keys tree) as Hh.
      destruct (okeys (setAll (leavesOf tree) [])
                ++ okeys (setAll (nestedOf tree) [])) as [|h0 hs] eqn:Hhid.
      * exfalso. apply app_eq_nil in Hhid as [H1 H2].
        apply map_eq_nil in H1, H2.
        apply (proj1 (setAll_nil_iff _)) in H1, H2.
        apply (proj1 (leavesOf_nil_iff _)) in H1.
        apply (proj1 (nestedOf_nil_iff _)) in H2.
        rewrite H1, H2 in Ho. discriminate.
      * exists path, h0. split; [|reflexivity].
        constructor; [exact Hc|]. simpl in Hh. congruence.
    + intros Hc. rewrite resolved_map.
      destruct (taggedOf tree) eqn:Htag; [reflexivity|].
      assert (Ht : existsb isTaggedChild tree = true).
      { destruct (existsb isTaggedChild tree) eqn:E; [reflexivity|].
        apply (proj2 (taggedOf_nil_iff _)) in E. congruence. }
      destruct (conflictHere_false_tagged tree Hc Ht) as [-> ->].
      reflexivity.
Qed.

(** [removeHashes] on a tree without a nested map under the empty key:
    it reports a conflict exactly when some node has one, names that
    node's path and first hidden key, and otherwise returns the resolved
    tree. *)
Lemma removeHashes_conflict_iff (tree : OrderedMap) (path : string) :
  hasEmptyMapKey (VMap tree) = false ->
  ((exists msg, removeHashes tree path = Err msg)
   <-> hasConflict (VMap tree) = true)
  /\ (hasConflict (VMap tree) = true ->
      exists p h, ConflictAt tree path p h
                  /\ removeHashes tree path = Err (hiddenError p h))
  /\ (hasConflict (VMap tree) = false ->
      removeHashes tree path = Ok (resolved (VMap tree))).
Proof.
  intros Hne. destruct (removeHashes_resolves (VMap tree) Hne path) as [He Ho].
  unfold removeHashes. split; [|split; assumption].
  destruct (hasConflict (VMap tree)) eqn:Hc.
  - split; [reflexivity|]. intros _.
    destruct (He eq_refl) as (p & h & _ & Heq). eauto.
  - rewrite (Ho eq_refl). split; [|discriminate]. intros [msg Hm]. discriminate.
Qed.

(** ** Trees without fingerprint tokens *)

Lemma nodupb_NoDup (l : list string) : nodupb l = true -> NoDup l.
Proof.
  induction l as [|x l IH]; simpl; intros H; constructor.
  - apply andb_prop in H as [H _]. apply negb_true_iff in H.
    intros Hin. apply list_elem_of_In in Hin.
    assert (existsb (String.eqb x) l = true); [|congruence].
    apply existsb_exists. exists x. split; [exact Hin|apply String.eqb_refl].
  - apply IH. apply andb_prop in H as [_ H]. exact H.
Qed.

Lemma oset_fresh {V} (k : string) (v : V) (o : list (string * V)) :
  ~ In k (okeys o) -> oset k v o = o ++ [(k, v)].
Proof.
  induction o as [|[k0 w] o IH]; simpl; intros Hn; [reflexivity|].
  destruct (String.eqb_spec k0 k) as [->|Hne]; [tauto|].
  rewrite IH; [reflexivity|tauto].
Qed.

Lemma setAll_fresh (kvs o : OrderedMap) :
  NoDup (okeys o ++ okeys kvs) -> setAll kvs o = o ++ kvs.
Proof.
  revert o. induction kvs as [|[k v] kvs IH]; intros o Hnd.
  - simpl. now rewrite app_nil_r.
  - unfold setAll in *. cbn [fold_left fst snd].
    assert (Hk : ~ In k (okeys o)).
    { intros Hin. apply NoDup_app in Hnd as (_ & Hd & _).
      apply (Hd k); [apply list_elem_of_In; exact Hin|].
      simpl. left. }
    rewrite (oset_fresh k v o Hk), IH.
    + rewrite <- app_assoc. reflexivity.
    + unfold okeys in *. rewrite map_app. cbn [map fst].
      rewrite <- app_assoc. exact Hnd.
Qed.

Lemma setAll_unique (kvs : OrderedMap) :
  NoDup (okeys kvs) -> setAll kvs [] = kvs.
Proof. intros H. apply (setAll_fresh kvs []). exact H. Qed.

Lemma leavesOf_keys (tree : list (string * value)) (k : string) :
  In k (okeys (leavesOf tree)) -> In k (okeys tree).
Proof.
  induction tree as [|kv tree IH]; simpl; [tauto|].
  destruct (isLeaf kv); simpl; tauto.
Qed.

Lemma mapsOf_keys g (tree : list (string * value)) (k : string) :
  In k (okeys (mapsOf g tree)) -> In k (okeys tree).
Proof.
  induction tree as [|kv tree IH]; simpl; [tauto|].
  destruct (isMap (snd kv)); simpl; tauto.
Qed.

Lemma partition_keys_NoDup g (tree : list (string * value)) :
  NoDup (okeys tree) ->
  NoDup (okeys (leavesOf tree) ++ okeys (mapsOf g tree)).
Proof.
  induction tree as [|[k v] tree IH]; intros Hnd; [constructor|].
  pose proof (NoDup_cons_1_1 _ _ Hnd) as Hk. apply NoDup_cons_1_2 in Hnd.
  rewrite list_elem_of_In in Hk. specialize (IH Hnd).
  unfold leavesOf, mapsOf, isLeaf in *. cbn [List.filter flat_map fst snd].
  assert (Hfresh : ~ In k (okeys (leavesOf tree) ++ okeys (mapsOf g tree))).
  { rewrite in_app_iff. intros [H|H];
      [apply leavesOf_keys in H|apply mapsOf_keys in H]; tauto. }
  destruct (isMap v); cbn [negb app okeys map fst].
  - rewrite <- Permutation_middle.
    apply NoDup_cons_2; [rewrite list_elem_of_In; exact Hfresh|exact IH].
  - apply NoDup_cons_2; [rewrite list_elem_of_In; exact Hfresh|exact IH].
Qed.

Lemma noHash_taggedOf (tree : list (string * value)) :
  forallb (fun kv => negb (isHashKey (fst kv))) tree = true ->
  taggedOf tree = [] /\ nestedOf tree = mapsOf resolved tree.
Proof.
  induction tree as [|[k v] tree IH]; simpl; [tauto|].
  intros H. apply andb_prop in H as [Hk Ht]. destruct (IH Ht) as [IH1 IH2].
  unfold isTaggedChild, isPlainChild. cbn [fst snd].
  apply negb_true_iff in Hk. rewrite Hk, andb_false_r, andb_true_r.
  split; [exact IH1|]. rewrite IH2. reflexivity.
Qed.

Lemma noHash_conflictHere (tree : list (string * value)) :
  forallb (fun kv => negb (isHashKey (fst kv))) tree = true ->
  conflictHere tree = false.
Proof.
  intros H. unfold conflictHere.
  destruct (noHash_taggedOf tree H) as [Ht _].
  apply (proj1 (taggedOf_nil_iff _)) in Ht. rewrite Ht. reflexivity.
Qed.

Lemma allNodes_map f (tree : list (string * value)) :
  allNodes f (VMap tree) = true ->
  f tree = true /\ Forall (fun kv => allNodes f (snd kv) = true) tree.
Proof.
  cbn [allNodes]. intros H. apply andb_prop in H as [H1 H2].
  split; [exact H1|]. apply Forall_forall. intros kv Hin.
  rewrite forallb_forall in H2. apply H2. apply list_elem_of_In. exact Hin.
Qed.

Lemma noHash_hasConflict (node : value) :
  noHashKeys node = true -> hasConflict node = false.
Proof.
  induction node as [s|tree IH|l _] using value_nested_ind;
    try reflexivity.
  intros H. apply allNodes_map in H as [Hhere Hsub].
  cbn [hasConflict]. rewrite (noHash_conflictHere tree Hhere). simpl.
  clear Hhere. induction tree as [|kv tree IHt]; [reflexivity|].
  inversion_clear IH. inversion_clear Hsub. simpl.
  rewrite H by assumption. simpl. auto.
Qed.

Lemma mapsOf_ext g1 g2 (tree : list (string * value)) :
  Forall (fun kv => g1 (snd kv) = g2 (snd kv)) tree ->
  mapsOf g1 tree = mapsOf g2 tree.
Proof.
  induction 1 as [|kv tree Hkv _ IH]; [reflexivity|].
  unfold mapsOf in *. simpl. rewrite Hkv, IH. reflexivity.
Qed.

Lemma mapsOf_okeys g (tree : list (string * value)) :
  okeys (mapsOf g tree) = okeys (mapsOf (fun v => v) tree).
Proof.
  induction tree as [|kv tree IH]; [reflexivity|].
  unfold mapsOf in *. simpl. destruct (isMap (snd kv)); simpl;
    [f_equal|]; exact IH.
Qed.

(** Without fingerprint tokens, resolving only reorders each node. *)
Lemma resolved_leavesFirstOrder (node : value) :
  uniqueKeys node = true ->
  noHashKeys node = true ->
  resolved node = leavesFirstOrder node.
Proof.
  induction node as [s|tree IH|l _] using value_nested_ind;
    try reflexivity.
  intros Hu Hn.
  apply allNodes_map in Hu as [Hnd Hu]. apply allNodes_map in Hn as [Hh Hn].
  apply nodupb_NoDup in Hnd.
  rewrite resolved_map. destruct (noHash_taggedOf tree Hh) as [-> ->].
  cbn [leavesFirstOrder]. fold (leavesOf tree).
  fold (mapsOf leavesFirstOrder tree).
  assert (Hext : mapsOf resolved tree = mapsOf leavesFirstOrder tree).
  { apply mapsOf_ext. rewrite Forall_forall in *. intros kv Hin.
    apply IH; [exact Hin|apply Hu|apply Hn]; exact Hin. }
  rewrite Hext.
  pose proof (partition_keys_NoDup leavesFirstOrder tree Hnd) as Hp.
  assert (Hl : NoDup (okeys (leavesOf tree))).
  { apply NoDup_app in Hp. tauto. }
  assert (Hm : NoDup (okeys (mapsOf leavesFirstOrder tree))).
  { apply NoDup_app in Hp. tauto. }
  rewrite !(setAll_unique _ Hl), (setAll_unique _ Hm).
  rewrite (setAll_fresh _ _ Hp). reflexivity.
Qed.

Lemma mapsOf_all_maps (tree : list (string * value)) :
  forallb (fun kv => isMap (snd kv)) tree = true ->
  leavesOf tree = [] /\ mapsOf (fun v => v) tree = tree.
Proof.
  induction tree as [|[k v] tree IH]; simpl; [tauto|].
  intros H. apply andb_prop in H as [Hv Ht]. destruct (IH Ht) as [IH1 IH2].
  unfold leavesOf, mapsOf, isLeaf in *. cbn [List.filter flat_map fst snd].
  rewrite Hv. cbn [negb app]. rewrite IH1, IH2. tauto.
Qed.

Lemma leavesBeforeMaps_partition (tree : list (string * value)) :
  leavesBeforeMaps tree = true ->
  leavesOf tree ++ mapsOf (fun v => v) tree = tree.
Proof.
  induction tree as [|[k v] tree IH]; [reflexivity|].
  cbn [leavesBeforeMaps snd]. destruct (isMap v) eqn:Hv.
  - intros H. destruct (mapsOf_all_maps tree H) as [H1 H2].
    unfold leavesOf, mapsOf, isLeaf in *. cbn [List.filter flat_map fst snd].
    rewrite Hv. cbn [negb app]. rewrite H1, H2. reflexivity.
  - intros H. specialize (IH H).
    unfold leavesOf, mapsOf, isLeaf in *. cbn [List.filter flat_map fst snd].
    rewrite Hv. cbn [negb app]. rewrite IH. reflexivity.
Qed.

Lemma leavesFirstOrder_id (node : value) :
  leavesFirst node = true -> leavesFirstOrder node = node.
Proof.
  induction node as [s|tree IH|l _] using value_nested_ind;
    try reflexivity.
  intros H. apply allNodes_map in H as [Hhere Hsub].
  cbn [leavesFirstOrder]. fold (leavesOf tree).
  fold (mapsOf leavesFirstOrder tree).
  rewrite (mapsOf_ext leavesFirstOrder (fun v => v)).
  - rewrite (leavesBeforeMaps_partition tree Hhere). reflexivity.
  - rewrite Forall_forall in *. intros kv Hin. apply IH; [|apply Hsub]; exact Hin.
Qed.

(** C7, as stated, fails: a tree without array markers and without
    fingerprint tokens whose root lists a nested map before a leaf comes
    back with the two keys swapped. *)
Lemma removeHashes_swaps_keys :
  noArrayMarkers (VMap mapBeforeLeaf) = true
  /\ noHashKeys (VMap mapBeforeLeaf) = true
  /\ removeHashes mapBeforeLeaf "$"
     = Ok (VMap [("b", VScalar (SInt 2));
                 ("a", VMap [("x", VScalar (SInt 1))])])
  /\ removeHashes mapBeforeLeaf "$" <> Ok (VMap mapBeforeLeaf).
Proof. repeat split; try reflexivity. discriminate. Qed.

(** C7, amended: on a tree without fingerprint tokens (keys unique at each
    node, no nested map under the empty key) [removeHashes] succeeds and
    returns the tree with, at every node, the leaves moved before the
    nested maps and nothing else changed; the result equals the input,
    key order included, when every node already lists its leaves first. *)
Theorem removeHashes_no_tokens (tree : OrderedMap) (path : string) :
  uniqueKeys (VMap tree) = true ->
  noHashKeys (VMap tree) = true ->
  hasEmptyMapKey (VMap tree) = false ->
  removeHashes tree path = Ok (leavesFirstOrder (VMap tree))
  /\ (leavesFirst (VMap tree) = true ->
      removeHashes tree path = Ok (VMap tree)).
Proof.
  intros Hu Hn He.
  destruct (removeHashes_conflict_iff tree path He) as (_ & _ & Hok).
  assert (Hr : removeHashes tree path = Ok (leavesFirstOrder (VMap tree))).
  { rewrite (Hok (noHash_hasConflict _ Hn)).
    rewrite (resolved_leavesFirstOrder _ Hu Hn). reflexivity. }
  split; [exact Hr|]. intros Hl. rewrite Hr, (leavesFirstOrder_id _ Hl).
  reflexivity.
Qed.

Lemma removeHashes_no_tokens_witness :
  removeHashes mapBeforeLeaf "$"
  = Ok (VMap [("b", VScalar (SInt 2));
              ("a", VMap [("x", VScalar (SInt 1))])])
  /\ removeHashes [("b", VScalar (SInt 2));
                   ("a", VMap [("x", VScalar (SInt 1))])] "$"
     = Ok (VMap [("b", VScalar (SInt 2));
                 ("a", VMap [("x", VScalar (SInt 1))])]).
Proof.
  split.
  - apply (removeHashes_no_tokens mapBeforeLeaf "$"); reflexivity.
  - apply (removeHashes_no_tokens
             [("b", VScalar (SInt 2)); ("a", VMap [("x", VScalar (SInt 1))])]
             "$"); reflexivity.
Defined.

(** C1 at the tree whose root holds, under the empty key, the map of x to
    1: no node mixes tagged children with others, and the resolver neither
    succeeds nor reports a conflict, because the slice [key[:1]] of the
    empty key is out of range. *)
Theorem removeHashes_empty_key_panics :
  hasConflict (VMap emptyKeyTree) = false
  /\ removeHashes emptyKeyTree "$" = Panic.
Proof. split; reflexivity. Qed.

(** ** getPaths *)

Lemma hasPrefix_empty (s : string) : hasPrefix s EmptyString = true.
Proof. destruct s; reflexivity. Qed.

Lemma getPathsStep_guarded (p column : string) :
  getPathsStep true p column
  = Ok (match dollarPrefix column with Some p' => p' | None => p end,
        assignedPath p column).
Proof.
  unfold getPathsStep, assignedPath, dollarPrefix, dollarProp.
  destruct column as [|c s]; [reflexivity|].
  cbn [hasPrefix]. rewrite hasPrefix_empty, andb_true_r.
  rewrite (Ascii.eqb_sym "$" c).
  destruct (Ascii.eqb c "$"); [|reflexivity].
  destruct (lastIndex (String c s) "."); reflexivity.
Qed.

Lemma getPathsLoop_guarded (cols : list string) :
  forall p, exists paths,
    getPathsLoop true p cols = Ok paths
    /\ length paths = length cols
    /\ forall i column,
         cols !! i = Some column ->
         paths !! i
         = Some (assignedPath (runningPrefix p (take i cols)) column).
Proof.
  induction cols as [|c cols IH]; intros p.
  - exists []. repeat split. intros i column H. destruct i; discriminate.
  - cbn [getPathsLoop]. rewrite getPathsStep_guarded. cbn [bind fst snd].
    destruct (IH (match dollarPrefix c with Some p' => p' | None => p end))
      as (rest & Hrest & Hlen & Hat).
    rewrite Hrest. cbn [bind]. eexists. split; [reflexivity|].
    split; [simpl; congruence|].
    intros [|i] column H.
    + injection H as <-. reflexivity.
    + cbn in H |- *. exact (Hat i column H).
Qed.

(** The earlier revision agrees with the later one on non-empty names. *)
Lemma getPaths_unguarded_agrees (columns : list string) :
  Forall (fun c => c <> EmptyString) columns ->
  getPaths_unguarded columns = getPaths columns.
Proof.
  unfold getPaths_unguarded, getPaths. generalize "$[]".
  induction columns as [|c cols IH]; intros p H; [reflexivity|].
  inversion_clear H as [|? ? Hc Hcols]. cbn [getPathsLoop].
  destruct c as [|a s]; [congruence|].
  change (getPathsStep false p (String a s))
    with (getPathsStep true p (String a s)).
  destruct (getPathsStep true p (String a s)) as [r| |]; cbn [bind];
    try reflexivity.
  rewrite (IH (fst r) Hcols). reflexivity.
Qed.

(** ** Byte strings *)

Lemma app_str_nil_r (s : string) : s +:+ EmptyString = s.
Proof.
  induction s as [|c s IH]; [reflexivity|].
  change (String c s +:+ EmptyString) with (String c (s +:+ EmptyString)).
  now rewrite IH.
Qed.

Lemma app_str_assoc (a b c : string) : (a +:+ b) +:+ c = a +:+ (b +:+ c).
Proof.
  induction a as [|x a IH]; [reflexivity|].
  change (String x ((a +:+ b) +:+ c) = String x (a +:+ (b +:+ c))).
  now rewrite IH.
Qed.

Lemma contains_cons_false (c : ascii) (s sub : string) :
  contains (String c s) sub = false ->
  hasPrefix (String c s) sub = false /\ contains s sub = false.
Proof. cbn [contains]. intros H. apply orb_false_elim in H. exact H. Qed.

(** ** The prefix rule of getPaths *)

(** [strings.LastIndex(s, ".")] cuts [s] at its last '.'. *)
Lemma lastIndexFrom_dot (s : string) (i : nat) :
  match lastIndexFrom s "." i with
  | Some j =>
      (i <= j)%nat
      /\ BeforeLastDot s (takeStr (j - i) s) (dropStr (j - i + 1) s)
  | None => contains s "." = false
  end.
Proof.
  revert i. induction s as [|c s IH]; intros i; [reflexivity|].
  cbn [lastIndexFrom]. specialize (IH (S i)).
  destruct (lastIndexFrom s "." (S i)) as [j|].
  - destruct IH as (Hle & Hcut & Hname). split; [lia|].
    replace (j - i)%nat with (S (j - S i)) by lia.
    cbn [takeStr dropStr Nat.add]. split; [|exact Hname].
    change (String c s
            = String c (takeStr (j - S i) s +:+ "."
                        +:+ dropStr (j - S i + 1) s)).
    f_equal. exact Hcut.
  - cbn [hasPrefix]. rewrite hasPrefix_empty, andb_true_r.
    destruct (Ascii.eqb_spec "." c) as [<-|Hc].
    + rewrite Nat.sub_diag. split; [lia|]. split; [reflexivity|exact IH].
    + cbn [contains hasPrefix]. rewrite hasPrefix_empty, andb_true_r.
      destruct (Ascii.eqb_spec "." c) as [E|_]; [contradiction|exact IH].
Qed.

Lemma lastIndex_dot (s : string) :
  match lastIndex s "." with
  | Some pos => BeforeLastDot s (takeStr pos s) (dropStr (pos + 1) s)
  | None => contains s "." = false
  end.
Proof.
  unfold lastIndex. pose proof (lastIndexFrom_dot s 0) as H.
  destruct (lastIndexFrom s "." 0) as [j|]; [|exact H].
  rewrite Nat.sub_0_r in H. exact (proj2 H).
Qed.

Lemma BeforeLastDot_contains (column prefix name : string) :
  BeforeLastDot column prefix name -> contains column "." = true.
Proof.
  intros [-> _]. induction prefix as [|c prefix IH].
  { change (contains (String "." name) "." = true).
    cbn [contains hasPrefix Ascii.eqb Bool.eqb andb].
    rewrite hasPrefix_empty. reflexivity. }
  change (String c prefix +:+ "." +:+ name)
    with (String c (prefix +:+ "." +:+ name)).
  cbn [contains]. rewrite IH. apply orb_true_r.
Qed.

(** The prefix the loop takes from a column is the one of the rule. *)
Lemma dollarPrefix_rule (column : string) :
  match dollarPrefix column with
  | Some prefix =>
      namesPath column = true
      /\ BeforeLastDot column prefix (dollarProp column)
  | None => namesPath column = false
  end.
Proof.
  unfold dollarPrefix, dollarProp, namesPath.
  pose proof (lastIndex_dot column) as H.
  destruct (hasPrefix column "$"); [|reflexivity].
  destruct (lastIndex column ".") as [pos|].
  - split; [|exact H]. apply (BeforeLastDot_contains _ _ _ H).
  - rewrite H. reflexivity.
Qed.

Lemma runningPrefix_inherited (cols : list string) :
  InheritedPrefix cols (runningPrefix "$[]" cols).
Proof.
  induction cols as [|c cols IH] using rev_ind.
  - constructor. constructor.
  - unfold runningPrefix in *. rewrite fold_left_app. cbn [fold_left].
    pose proof (dollarPrefix_rule c) as Hc.
    destruct (dollarPrefix c) as [p|].
    + destruct Hc as [Hn Hcut].
      apply (InheritLatest cols c p (dollarProp c) []);
        [exact Hn|exact Hcut|constructor].
    + inversion IH as [before Hall Hb Hp
                      |pre c0 p name post Hn Hcut Hpost Hb Hp].
      * constructor. apply Forall_app. split; [exact Hall|].
        constructor; [exact Hc|constructor].
      * rewrite <- app_assoc. cbn [app].
        change (c0 :: post ++ [c]) with (c0 :: (post ++ [c])).
        apply (InheritLatest pre c0 _ name); [exact Hn|exact Hcut|].
        apply Forall_app. split; [exact Hpost|].
        constructor; [exact Hc|constructor].
Qed.

(** C9: [getPaths] threads one prefix through the columns.  In the later
    revision every list of columns gets its paths: a column that starts
    with '$' and holds a '.' is placed under the text before its last '.'
    (so it keeps its own name as its path), and any other column under
    the prefix of the most recent such column before it, or under the
    default prefix [$[]] when there is none; the bare column comments
    that follows $.stats.posts is placed at $.stats.comments.  The
    earlier revision does the same on every list without an empty name,
    and panics on an empty name, where it slices the name without a test
    of its length. *)
Theorem getPaths_stateful_prefix :
  (forall columns : list string,
     exists paths,
       getPaths columns = Ok paths
       /\ length paths = length columns
       /\ forall i column,
            columns !! i = Some column ->
            if namesPath column
            then exists prefix name,
                   BeforeLastDot column prefix name
                   /\ paths !! i = Some (prefix +:+ "." +:+ name)
            else exists prefix,
                   InheritedPrefix (take i columns) prefix
                   /\ paths !! i = Some (prefix +:+ "." +:+ column))
  /\ getPaths ["$.stats.posts"; "comments"]
     = Ok ["$.stats.posts"; "$.stats.comments"]
  /\ (forall columns : list string,
        Forall (fun c => c <> EmptyString) columns ->
        getPaths_unguarded columns = getPaths columns)
  /\ getPaths ["$.stats.posts"; EmptyString]
     = Ok ["$.stats.posts"; "$.stats."]
  /\ getPaths_unguarded ["$.stats.posts"; EmptyString] = Panic.
Proof.
  split; [|split; [reflexivity|split;
    [exact getPaths_unguarded_agrees|split; reflexivity]]].
  intros columns.
  destruct (getPathsLoop_guarded columns "$[]") as (paths & Hp & Hlen & Hat).
  exists paths. split; [exact Hp|]. split; [exact Hlen|].
  intros i column Hi. specialize (Hat i column Hi).
  unfold assignedPath in Hat.
  pose proof (dollarPrefix_rule column) as Hc.
  destruct (dollarPrefix column) as [prefix|].
  - destruct Hc as [-> Hcut]. exists prefix, (dollarProp column).
    split; [exact Hcut|exact Hat].
  - rewrite Hc. eexists. split; [apply runningPrefix_inherited|exact Hat].
Qed.

(** A string without the separator is one piece. *)
Lemma splitFrom_no_sep (sep s cur : string) :
  contains s sep = false ->
  splitFrom sep s 0 cur = [cur +:+ s].
Proof.
  revert cur. induction s as [|c s IH]; intros cur H.
  - simpl. now rewrite app_str_nil_r.
  - apply contains_cons_false in H as [Hp Hc]. cbn [splitFrom].
    rewrite Hp, (IH _ Hc), app_str_assoc. reflexivity.
Qed.

(** Splitting on '.': the text up to the first '.' is the first piece. *)
Lemma splitFrom_dot (a b cur : string) :
  contains a "." = false ->
  splitFrom "." (a +:+ "." +:+ b) 0 cur
  = (cur +:+ a) :: splitFrom "." b 0 EmptyString.
Proof.
  revert cur. induction a as [|c a IH]; intros cur H.
  - rewrite app_str_nil_r.
    change (EmptyString +:+ "." +:+ b) with (String "." b).
    cbn [splitFrom hasPrefix]. rewrite hasPrefix_empty. reflexivity.
  - apply contains_cons_false in H as [Hp Hc].
    change ((String c a) +:+ "." +:+ b) with (String c (a +:+ "." +:+ b)).
    cbn [splitFrom].
    assert (Hp' : hasPrefix (String c (a +:+ "." +:+ b)) "." = false).
    { cbn [hasPrefix] in Hp |- *. rewrite hasPrefix_empty in *. exact Hp. }
    rewrite Hp', (IH _ Hc), app_str_assoc. reflexivity.
Qed.

Lemma contains_app_false (a b sub : string) (c : ascii) :
  contains a (String c EmptyString) = false ->
  contains b (String c EmptyString) = false ->
  contains (a +:+ b) (String c EmptyString) = false.
Proof.
  intros Ha Hb. induction a as [|x a IH]; [exact Hb|].
  apply contains_cons_false in Ha as [Hp Hc].
  change (String x a +:+ b) with (String x (a +:+ b)). cbn [contains].
  rewrite (IH Hc), orb_false_r.
  cbn [hasPrefix] in Hp |- *. rewrite hasPrefix_empty in *. exact Hp.
Qed.

Lemma hexDigit_not_dot (n : N) :
  Ascii.eqb "." (hexDigit n) = false /\ Ascii.eqb "[" (hexDigit n) = false.
Proof.
  unfold hexDigit. destruct n as [|p]; [split; reflexivity|].
  do 5 (try destruct p as [p|p|]); split; reflexivity.
Qed.

Lemma hex_no_dot (bytes : list ascii) :
  contains (hexEncodeToString bytes) "." = false.
Proof.
  induction bytes as [|b bytes IH]; [reflexivity|].
  cbn [hexEncodeToString contains hasPrefix].
  rewrite !hasPrefix_empty, !andb_true_r, IH, orb_false_r.
  rewrite (proj1 (hexDigit_not_dot _)), (proj1 (hexDigit_not_dot _)).
  reflexivity.
Qed.

(** ** No joins, no hints: the stages on plain column names *)

Lemma plainColumn_spec (c : string) :
  plainColumn c = true ->
  c <> EmptyString /\ hasPrefix c "$" = false
  /\ contains c "." = false /\ contains c "[]" = false.
Proof.
  unfold plainColumn. intros H.
  repeat (apply andb_prop in H as [H ?]).
  repeat match goal with
         | H : negb _ = true |- _ => apply negb_true_iff in H
         end.
  repeat split; try assumption. intros ->. discriminate.
Qed.

Lemma getPathsStep_plain (p c : string) :
  plainColumn c = true ->
  getPathsStep false p c = Ok (p, p +:+ "." +:+ c).
Proof.
  intros H. apply plainColumn_spec in H as (Hne & Hd & _).
  destruct c as [|a s]; [congruence|]. cbn [getPathsStep].
  cbn [hasPrefix] in Hd. rewrite hasPrefix_empty, andb_true_r in Hd.
  rewrite Ascii.eqb_sym in Hd. rewrite Hd. reflexivity.
Qed.

Lemma getPaths_plain (columns : list string) :
  Forall (fun c => plainColumn c = true) columns ->
  getPaths_unguarded columns
  = Ok (map (fun c => "$[]" +:+ "." +:+ c) columns).
Proof.
  unfold getPaths_unguarded. generalize "$[]".
  induction 1 as [|c cs Hc _ IH]; [reflexivity|].
  cbn [getPathsLoop]. rewrite (getPathsStep_plain _ _ Hc). cbn [bind fst snd].
  rewrite IH. reflexivity.
Qed.

Lemma map_fmap {A B} (f : A -> B) (l : list A) : map f l = f <$> l.
Proof. reflexivity. Qed.

Lemma rowRecordFrom_zip (columns : list string) (row : list scalar) :
  forall i record,
    i + length row <= length columns ->
    rowRecordFrom (map (fun c => "$[]" +:+ "." +:+ c) columns) i row record
    = Ok (setAll
            (zip (drop i (map (fun c => "[]" +:+ "." +:+ c) columns))
               (map VScalar row)) record).
Proof.
  induction row as [|cell row IH]; intros i record Hlen.
  - cbn [map]. rewrite zip_nil_r. reflexivity.
  - cbn [length] in Hlen.
    destruct (lookup_lt_is_Some_2 columns i ltac:(lia)) as [c Hc].
    assert (Hat : forall f : string -> string,
               map f columns !! i = Some (f c)).
    { intros f. rewrite map_fmap, list_lookup_fmap, Hc. reflexivity. }
    cbn [rowRecordFrom]. unfold pathAt. rewrite Hat. cbn [bind].
    change (dropFirst ("$[]" +:+ "." +:+ c)) with (Ok ("[]" +:+ "." +:+ c)).
    cbn [bind]. rewrite IH by lia.
    rewrite (drop_S (map (fun c0 => "[]" +:+ "." +:+ c0) columns)
               ("[]" +:+ "." +:+ c) i) by apply Hat.
    reflexivity.
Qed.

Lemma zip_mapKeys (pre : string -> string) (columns : list string)
    (vals : list value) :
  zip (map pre columns) vals = mapKeys pre (zip columns vals).
Proof.
  revert vals. induction columns as [|c cs IH]; intros [|v vals];
    try reflexivity.
  cbn. f_equal. apply IH.
Qed.

Lemma okeys_mapKeys (pre : string -> string) (cvs : list (string * value)) :
  okeys (mapKeys pre cvs) = map pre (okeys cvs).
Proof.
  induction cvs as [|kv cvs IH]; [reflexivity|].
  cbn. f_equal. exact IH.
Qed.

Lemma NoDup_map_prefix (p : string) (l : list string) :
  NoDup l -> NoDup (map (fun c => p +:+ c) l).
Proof.
  intros H. rewrite map_fmap. apply (NoDup_fmap_2 (String.append p)).
  exact H.
Qed.

Lemma split_marker_plain (c : string) :
  contains c "[]" = false ->
  split ("[]" +:+ "." +:+ c) "[]" = [EmptyString; "." +:+ c].
Proof.
  intros H. unfold split.
  change ("[]" +:+ "." +:+ c) with (String "[" (String "]" (String "." c))).
  cbn [splitFrom hasPrefix Ascii.eqb Bool.eqb andb String.length Nat.sub].
  rewrite (splitFrom_no_sep "[]" c _ H). reflexivity.
Qed.

Lemma groupKey_plain (c : string) (v : value) (sub : OrderedMap) :
  plainColumn c = true ->
  groupKey "[]" ("[]" +:+ "." +:+ c) v [("[]", VMap sub)]
  = Ok [("[]", VMap (oset ("." +:+ c) v sub))].
Proof.
  intros H. apply plainColumn_spec in H as (_ & _ & _ & Hm).
  unfold groupKey. rewrite (split_marker_plain c Hm). reflexivity.
Qed.

Lemma groupKey_plain_first (c : string) (v : value) :
  plainColumn c = true ->
  groupKey "[]" ("[]" +:+ "." +:+ c) v []
  = Ok [("[]", VMap (oset ("." +:+ c) v []))].
Proof.
  intros H. apply plainColumn_spec in H as (_ & _ & _ & Hm).
  unfold groupKey. rewrite (split_marker_plain c Hm). reflexivity.
Qed.

Lemma groupRecord_plain (cvs : list (string * value)) :
  Forall (fun kv => plainColumn (fst kv) = true) cvs ->
  forall sub,
    groupRecord "[]" (mapKeys (fun c => "[]" +:+ "." +:+ c) cvs)
      [("[]", VMap sub)]
    = Ok [("[]", VMap (setAll (mapKeys (fun c => "." +:+ c) cvs) sub))].
Proof.
  induction 1 as [|[c v] cvs Hc _ IH]; intros sub; [reflexivity|].
  cbn [mapKeys map fst snd groupRecord].
  rewrite (groupKey_plain c v sub Hc). cbn [bind].
  exact (IH _).
Qed.

Lemma groupRecord_plain_first (cvs : list (string * value)) :
  cvs <> [] ->
  Forall (fun kv => plainColumn (fst kv) = true) cvs ->
  groupRecord "[]" (mapKeys (fun c => "[]" +:+ "." +:+ c) cvs) []
  = Ok [("[]", VMap (setAll (mapKeys (fun c => "." +:+ c) cvs) []))].
Proof.
  intros Hne H. destruct cvs as [|[c v] cvs]; [congruence|].
  inversion_clear H as [|? ? Hc Hcs].
  cbn [mapKeys map fst snd groupRecord].
  rewrite (groupKey_plain_first c v Hc). cbn [bind].
  exact (groupRecord_plain cvs Hcs _).
Qed.

Lemma replaceAll_whole_marker (new : string) :
  replaceAll "[]" "[]" new = new.
Proof.
  unfold replaceAll. cbn [replaceFrom hasPrefix Ascii.eqb Bool.eqb andb
    String.length Nat.sub].
  apply app_str_nil_r.
Qed.

Lemma addHashesRecord_root jsonMarshal md5Sum rangeOrder
    (part : value) (bytes : string) :
  (forall l : list string, rangeOrder l ≡ₚ l) ->
  jsonMarshal part = Ok bytes ->
  addHashesRecord jsonMarshal md5Sum rangeOrder [("[]", part)]
  = Ok [("." +:+ hashToken md5Sum bytes, part)].
Proof.
  intros Hperm Hm. unfold addHashesRecord. cbn [hashMapping].
  change (hasSuffix "[]" "[]") with true. cbn iota. rewrite Hm.
  cbn [bind hashMapping oset okeys map fst fold_left snd].
  rewrite (proj1 (Permutation_singleton_r _ _) (Hperm ["[]"])).
  cbn [sortByRevLen insertByRevLen fold_left rewriteKey].
  unfold mappingAt. cbn [oget String.eqb Ascii.eqb Bool.eqb].
  rewrite replaceAll_whole_marker. reflexivity.
Qed.

(** *** Ordered maps: reading back what was set *)

Lemma oget_oset_eq {V} (k : string) (v : V) (o : list (string * V)) :
  oget k (oset k v o) = Some v.
Proof.
  induction o as [|[k0 w] o IH]; cbn [oset oget].
  - rewrite String.eqb_refl. reflexivity.
  - destruct (String.eqb k0 k) eqn:E; cbn [oget]; rewrite E; auto.
Qed.

Lemma oset_oset {V} (k : string) (v v' : V) (o : list (string * V)) :
  oset k v' (oset k v o) = oset k v' o.
Proof.
  induction o as [|[k0 w] o IH]; cbn [oset].
  - rewrite String.eqb_refl. reflexivity.
  - destruct (String.eqb k0 k) eqn:E; cbn [oset]; rewrite E; [reflexivity|].
    rewrite IH. reflexivity.
Qed.

Lemma oset_same {V} (k : string) (v : V) (o : list (string * V)) :
  oget k o = Some v -> oset k v o = o.
Proof.
  induction o as [|[k0 w] o IH]; cbn [oset oget]; [discriminate|].
  destruct (String.eqb k0 k) eqn:E.
  - intros [= ->]. reflexivity.
  - intros H. rewrite (IH H). reflexivity.
Qed.

Lemma setAtPath_two (tok c : string) (v : value) (T : OrderedMap) :
  mapOrAbsent tok T ->
  setAtPath [tok; c] v T
  = Ok (oset tok (VMap (oset c v (mapUnder tok T))) T).
Proof.
  intros [Hn|[M HM]]; cbn [setAtPath]; unfold mapUnder.
  - rewrite Hn, oget_oset_eq. cbn [asMap bind]. rewrite oset_oset.
    reflexivity.
  - rewrite HM. cbn [asMap]. rewrite HM. cbn [asMap bind]. reflexivity.
Qed.

Lemma setAtPath_three (tok c : string) (v : value) (T : OrderedMap) :
  mapOrAbsent tok T ->
  setAtPath [EmptyString; tok; c] v [(EmptyString, VMap T)]
  = Ok [(EmptyString, VMap (oset tok (VMap (oset c v (mapUnder tok T))) T))].
Proof.
  intros H.
  change (setAtPath [EmptyString; tok; c] v [(EmptyString, VMap T)])
    with (nextMap' <~ setAtPath [tok; c] v T ;;
          Ok (oset EmptyString (VMap nextMap') [(EmptyString, VMap T)])).
  rewrite (setAtPath_two tok c v T H). reflexivity.
Qed.

Lemma setAtPath_three_first (tok c : string) (v : value) :
  setAtPath [EmptyString; tok; c] v []
  = Ok [(EmptyString, VMap [(tok, VMap [(c, v)])])].
Proof.
  cbn [setAtPath oget oset asMap String.eqb bind].
  rewrite !String.eqb_refl. reflexivity.
Qed.

Lemma hashToken_no_dot md5Sum (bytes : string) :
  contains (hashToken md5Sum bytes) "." = false.
Proof.
  unfold hashToken.
  change ("!" +:+ hexEncodeToString (md5Sum bytes) +:+ "!")
    with (String "!" (hexEncodeToString (md5Sum bytes) +:+ "!")).
  cbn [contains hasPrefix Ascii.eqb Bool.eqb andb orb].
  apply (contains_app_false _ _ EmptyString); [apply hex_no_dot|reflexivity].
Qed.

Lemma split_token_path (tok c : string) :
  contains tok "." = false ->
  contains c "." = false ->
  split (("." +:+ tok) +:+ ("." +:+ c)) "." = [EmptyString; tok; c].
Proof.
  intros Ht Hc. unfold split.
  change (("." +:+ tok) +:+ ("." +:+ c))
    with (EmptyString +:+ "." +:+ (tok +:+ "." +:+ c)).
  rewrite (splitFrom_dot EmptyString _ EmptyString eq_refl).
  rewrite (splitFrom_dot tok c EmptyString Ht).
  rewrite (splitFrom_no_sep "." c EmptyString Hc). reflexivity.
Qed.

Lemma combineGroup_present (tok : string) (cvs : list (string * value)) :
  contains tok "." = false ->
  Forall (fun kv => plainColumn (fst kv) = true) cvs ->
  forall T M,
    oget tok T = Some (VMap M) ->
    combineGroup "." ("." +:+ tok) (mapKeys (fun c => "." +:+ c) cvs)
      [(EmptyString, VMap T)]
    = Ok [(EmptyString, VMap (oset tok (VMap (setAll cvs M)) T))].
Proof.
  intros Ht. induction 1 as [|[c v] cvs Hc _ IH]; intros T M HM.
  - cbn [mapKeys map combineGroup setAll fold_left].
    rewrite (oset_same _ _ _ HM). reflexivity.
  - apply plainColumn_spec in Hc as (_ & _ & Hd & _).
    change (mapKeys ?f ((c, v) :: cvs)) with ((f c, v) :: mapKeys f cvs).
    cbn beta. cbn [combineGroup].
    rewrite (split_token_path tok c Ht Hd).
    rewrite (setAtPath_three tok c v T (or_intror (ex_intro _ M HM))).
    cbn [bind]. unfold mapUnder. rewrite HM. cbn [asMap].
    rewrite (IH _ (oset c v M) (oget_oset_eq _ _ _)), oset_oset.
    reflexivity.
Qed.

Lemma combineGroup_row (tok : string) (cvs : list (string * value))
    (T : OrderedMap) :
  contains tok "." = false ->
  Forall (fun kv => plainColumn (fst kv) = true) cvs ->
  cvs <> [] ->
  mapOrAbsent tok T ->
  combineGroup "." ("." +:+ tok) (mapKeys (fun c => "." +:+ c) cvs)
    [(EmptyString, VMap T)]
  = Ok [(EmptyString, VMap (putRow tok cvs T))].
Proof.
  intros Ht Hp Hne [Hn|[M HM]]; unfold putRow, mapUnder.
  - destruct cvs as [|[c v] cvs]; [congruence|].
    inversion_clear Hp as [|? ? Hc Hcs].
    apply plainColumn_spec in Hc as (_ & _ & Hd & _).
    change (mapKeys ?f ((c, v) :: cvs)) with ((f c, v) :: mapKeys f cvs).
    cbn beta. cbn [combineGroup].
    rewrite (split_token_path tok c Ht Hd).
    rewrite (setAtPath_three tok c v T (or_introl Hn)). cbn [bind].
    unfold mapUnder. rewrite Hn. cbn [asMap].
    rewrite (combineGroup_present tok cvs Ht Hcs _ (oset c v [])
               (oget_oset_eq _ _ _)), oset_oset.
    reflexivity.
  - rewrite HM. cbn [asMap]. apply combineGroup_present; assumption.
Qed.

Lemma combineGroup_row_first (tok : string) (cvs : list (string * value)) :
  contains tok "." = false ->
  Forall (fun kv => plainColumn (fst kv) = true) cvs ->
  cvs <> [] ->
  combineGroup "." ("." +:+ tok) (mapKeys (fun c => "." +:+ c) cvs) []
  = Ok [(EmptyString, VMap (putRow tok cvs []))].
Proof.
  intros Ht Hp Hne. destruct cvs as [|[c v] cvs]; [congruence|].
  inversion_clear Hp as [|? ? Hc Hcs].
  apply plainColumn_spec in Hc as (_ & _ & Hd & _).
  change (mapKeys ?f ((c, v) :: cvs)) with ((f c, v) :: mapKeys f cvs).
  cbn beta. cbn [combineGroup].
  rewrite (split_token_path tok c Ht Hd), setAtPath_three_first.
  cbn [bind].
  rewrite (combineGroup_present tok cvs Ht Hcs [(tok, VMap [(c, v)])]
             [(c, v)]).
  - unfold putRow, mapUnder. cbn [oget asMap oset setAll fold_left fst snd].
    rewrite String.eqb_refl. reflexivity.
  - cbn [oget]. rewrite String.eqb_refl. reflexivity.
Qed.

Lemma oset_middle {V} (k : string) (v v' : V) (pre rest : list (string * V)) :
  ~ In k (okeys pre) ->
  oset k v' (pre ++ (k, v) :: rest) = pre ++ (k, v') :: rest.
Proof.
  induction pre as [|[k0 w] pre IH]; intros Hn.
  - cbn [app oset]. rewrite String.eqb_refl. reflexivity.
  - cbn [app oset]. cbn in Hn.
    destruct (String.eqb_spec k0 k) as [->|Hne]; [tauto|].
    rewrite IH by tauto. reflexivity.
Qed.

Lemma setAll_zip_over (cs : list string) :
  NoDup cs ->
  forall (vals vals' : list value) (pre : OrderedMap),
    length vals = length cs ->
    length vals' = length cs ->
    (forall k, In k cs -> ~ In k (okeys pre)) ->
    setAll (zip cs vals') (pre ++ zip cs vals) = pre ++ zip cs vals'.
Proof.
  induction 1 as [|k cs Hk Hnd IH]; intros vals vals' pre Hl Hl' Hpre.
  - cbn. reflexivity.
  - destruct vals as [|v vals]; [discriminate|].
    destruct vals' as [|v' vals']; [discriminate|].
    cbn [zip zip_with]. unfold setAll. cbn [fold_left fst snd].
    rewrite oset_middle by (apply Hpre; left; reflexivity).
    change (pre ++ (k, v') :: zip cs vals)
      with (pre ++ [(k, v')] ++ zip cs vals).
    rewrite app_assoc. fold (setAll (zip cs vals') ((pre ++ [(k, v')]) ++ zip cs vals)).
    rewrite (IH vals vals' (pre ++ [(k, v')])).
    + rewrite <- app_assoc. reflexivity.
    + cbn in Hl. lia.
    + cbn in Hl'. lia.
    + intros k' Hin. unfold okeys. rewrite map_app, in_app_iff. cbn.
      intros [Hp|[->|[]]].
      * apply (Hpre k'); [right; exact Hin|exact Hp].
      * apply Hk. apply list_elem_of_In. exact Hin.
Qed.

Lemma oget_In {V} (k : string) (x : V) (o : list (string * V)) :
  oget k o = Some x -> In (k, x) o.
Proof.
  induction o as [|[k0 w] o IH]; cbn [oget]; [discriminate|].
  destruct (String.eqb_spec k0 k) as [->|Hne].
  - intros [= ->]. left. reflexivity.
  - intros H. right. exact (IH H).
Qed.

Lemma Forall_oset {V} (P : string * V -> Prop) (k : string) (v : V)
    (o : list (string * V)) :
  Forall P o -> P (k, v) -> Forall P (oset k v o).
Proof.
  intros Ho Hv. induction Ho as [|[k0 w] o Hkw Ho IH]; cbn [oset].
  - constructor; [apply Hv|constructor].
  - destruct (String.eqb_spec k0 k) as [->|Hne]; constructor; auto.
Qed.

Lemma Forall_setAll (P : string * value -> Prop) (kvs o : OrderedMap) :
  Forall P kvs -> Forall P o -> Forall P (setAll kvs o).
Proof.
  intros Hk. revert o. induction Hk as [|[k v] kvs Hkv _ IH]; intros o Ho.
  - exact Ho.
  - unfold setAll in *. cbn [fold_left fst snd]. apply IH.
    apply Forall_oset; assumption.
Qed.

Section FlatRows.
Variable columns : list string.
Hypothesis columns_NoDup : NoDup columns.
Hypothesis columns_plain : Forall (fun c => plainColumn c = true) columns.
Hypothesis columns_nonempty : columns <> [].

Lemma flatObject_keys (row : list scalar) :
    length row = length columns -> okeys (flatObject columns row) = columns.
  Proof using Type.
    intros H. unfold okeys, flatObject. rewrite map_fmap.
    apply fst_zip. rewrite length_map. lia.
  Qed.

Lemma flatObject_plain (row : list scalar) :
    Forall (fun kv => plainColumn (fst kv) = true) (flatObject columns row).
  Proof using columns_plain.
    apply Forall_forall. intros [c v] Hin. unfold flatObject in Hin.
    apply elem_of_zip_l in Hin. rewrite Forall_forall in columns_plain.
    apply columns_plain. exact Hin.
  Qed.

Lemma flatObject_nonempty (row : list scalar) :
    length row = length columns -> flatObject columns row <> [].
  Proof using columns_nonempty.
    intros H E. apply (f_equal (@length _)) in E. unfold flatObject in E.
    rewrite length_zip, length_map, H in E. cbn in E.
    apply columns_nonempty, nil_length_inv. lia.
  Qed.

Lemma putRow_flat (tok : string) (row : list scalar) (T : OrderedMap) :
    Forall (flatEntry columns) T ->
    length row = length columns ->
    putRow tok (flatObject columns row) T
    = oset tok (VMap (flatObject columns row)) T.
  Proof using columns_NoDup.
    intros HT Hl. unfold putRow, mapUnder. f_equal. f_equal.
    destruct (oget tok T) as [x|] eqn:Hg; cbn [asMap].
    - apply oget_In in Hg. rewrite Forall_forall in HT.
      destruct (HT _ (proj2 (list_elem_of_In _ _) Hg)) as (row0 & Hx & Hl0).
      cbn [snd] in Hx. subst x.
      apply (setAll_zip_over columns columns_NoDup
               (map VScalar row0) (map VScalar row) []).
      + rewrite length_map. exact Hl0.
      + rewrite length_map. exact Hl.
      + intros k _ [].
    - apply setAll_unique. rewrite (flatObject_keys row Hl).
      exact columns_NoDup.
  Qed.

Lemma flatEntry_mapOrAbsent (tok : string) (T : OrderedMap) :
    Forall (flatEntry columns) T -> mapOrAbsent tok T.
  Proof using Type.
    intros HT. unfold mapOrAbsent.
    destruct (oget tok T) as [x|] eqn:Hg; [right|left; reflexivity].
    apply oget_In in Hg. rewrite Forall_forall in HT.
    destruct (HT _ (proj2 (list_elem_of_In _ _) Hg)) as (row0 & Hx & _).
    cbn [snd] in Hx. subst x. eauto.
  Qed.

Lemma combineRecord_row (tr : string * list scalar) (T : OrderedMap) :
    (goodRow columns) tr ->
    Forall (flatEntry columns) T ->
    combineRecord "." ((hashedRecord columns) tr) [(EmptyString, VMap T)]
    = Ok [(EmptyString,
           VMap (oset (fst tr) (VMap (flatObject columns (snd tr))) T))].
  Proof using All.
    intros [Ht Hl] HT. unfold hashedRecord. cbn [combineRecord asMap].
    rewrite (combineGroup_row (fst tr) _ T Ht (flatObject_plain _)
               (flatObject_nonempty _ Hl) (flatEntry_mapOrAbsent _ _ HT)).
    cbn [bind combineRecord]. rewrite (putRow_flat _ _ _ HT Hl). reflexivity.
  Qed.

Lemma combineRecord_row_first (tr : string * list scalar) :
    (goodRow columns) tr ->
    combineRecord "." ((hashedRecord columns) tr) []
    = Ok [(EmptyString,
           VMap [(fst tr, VMap (flatObject columns (snd tr)))])].
  Proof using All.
    intros [Ht Hl]. unfold hashedRecord. cbn [combineRecord asMap].
    rewrite (combineGroup_row_first (fst tr) _ Ht (flatObject_plain _)
               (flatObject_nonempty _ Hl)).
    cbn [bind combineRecord].
    rewrite (putRow_flat _ _ [] (List.Forall_nil _) Hl). reflexivity.
  Qed.

Lemma flatEntry_row (k : string) (row : list scalar) :
    length row = length columns ->
    (flatEntry columns) (k, VMap (flatObject columns row)).
  Proof using Type. intros H. exists row. split; [reflexivity|exact H]. Qed.

Lemma combineRecords_rows (trs : list (string * list scalar)) :
    Forall (goodRow columns) trs ->
    forall T,
      Forall (flatEntry columns) T ->
      combineRecords "." (map (hashedRecord columns) trs) [(EmptyString, VMap T)]
      = Ok [(EmptyString, VMap (setAll ((tokenEntries columns) trs) T))].
  Proof using All.
    induction 1 as [|tr trs Htr _ IH]; intros T HT; [reflexivity|].
    cbn [map combineRecords]. rewrite (combineRecord_row tr T Htr HT).
    cbn [bind]. rewrite IH; [reflexivity|].
    apply Forall_oset; [exact HT|]. apply flatEntry_row. exact (proj2 Htr).
  Qed.

Lemma combineIntoTree_rows (trs : list (string * list scalar)) :
    trs <> [] ->
    Forall (goodRow columns) trs ->
    combineIntoTree (map (hashedRecord columns) trs) "."
    = Ok (Some (setAll ((tokenEntries columns) trs) [])).
  Proof using All.
    intros Hne H. destruct trs as [|tr trs]; [congruence|].
    inversion_clear H as [|? ? Htr Htrs]. unfold combineIntoTree.
    cbn [map combineRecords]. rewrite (combineRecord_row_first tr Htr).
    cbn [bind]. rewrite (combineRecords_rows trs Htrs).
    - reflexivity.
    - constructor; [|constructor]. apply flatEntry_row. exact (proj2 Htr).
  Qed.
End FlatRows.

(** *** Resolving a tree of tokens over flat objects *)

Lemma rhLoop_scalars (path : string) (cs : list string) :
  forall (row : list scalar) (st : rhState),
    rhLoop path (zip cs (map VScalar row)) st
    = Ok (mkRh (setAll (zip cs (map VScalar row)) (rh_values st))
            (rh_trees st) (rh_results st)).
Proof.
  induction cs as [|c cs IH]; intros row st.
  - destruct st; reflexivity.
  - destruct row as [|x row]; [destruct st; reflexivity|].
    cbn [map zip zip_with]. rewrite rhLoop_cons.
    change (zip_with pair cs (map VScalar row))
      with (zip cs (map VScalar row)).
    rewrite IH. reflexivity.
Qed.

Lemma removeHashesNode_flat (path : string) (columns : list string)
    (row : list scalar) :
  NoDup columns ->
  length row = length columns ->
  removeHashesNode (VMap (flatObject columns row)) path
  = Ok (VMap (flatObject columns row)).
Proof.
  intros Hnd Hl. rewrite removeHashesNode_map. unfold flatObject.
  rewrite rhLoop_scalars. cbn [bind rhEmpty rh_values rh_trees rh_results].
  unfold rhFinish. cbn [rh_values rh_trees rh_results fold_left].
  assert (Hk : NoDup (okeys (zip columns (map VScalar row)))).
  { fold (flatObject columns row).
    rewrite (flatObject_keys columns row Hl). exact Hnd. }
  fold (setAll (setAll (zip columns (map VScalar row)) []) []).
  rewrite !(setAll_unique _ Hk). reflexivity.
Qed.

Lemma isHashKey_nonempty (key : string) :
  isHashKey key = true -> key <> EmptyString.
Proof. intros H ->. discriminate. Qed.

Lemma rhLoop_tokens (path : string) (columns : list string)
    (T : OrderedMap) :
  NoDup columns ->
  Forall (fun kv => isHashKey (fst kv) = true /\ flatEntry columns kv) T ->
  forall st,
    rhLoop path T st
    = Ok (mkRh (rh_values st) (rh_trees st) (rh_results st ++ map snd T)).
Proof.
  intros Hnd. induction 1 as [|[k v] T [Hk (row & Hv & Hl)] _ IH]; intros st.
  - cbn. rewrite app_nil_r. destruct st; reflexivity.
  - cbn [fst snd] in Hk, Hv. subst v. rewrite rhLoop_cons.
    destruct k as [|a k]; [discriminate|].
    unfold childPath. rewrite Hk.
    rewrite (removeHashesNode_flat _ columns row Hnd Hl). cbn [bind].
    rewrite IH. cbn [rh_values rh_trees rh_results map snd].
    rewrite <- app_assoc. reflexivity.
Qed.

Lemma removeHashes_tokens (path : string) (columns : list string)
    (T : OrderedMap) :
  NoDup columns ->
  T <> [] ->
  Forall (fun kv => isHashKey (fst kv) = true /\ flatEntry columns kv) T ->
  removeHashes T path = Ok (VSeq (map snd T)).
Proof.
  intros Hnd Hne HT. unfold removeHashes. rewrite removeHashesNode_map.
  rewrite (rhLoop_tokens path columns T Hnd HT). cbn [bind rhEmpty rh_values
    rh_trees rh_results app]. unfold rhFinish.
  cbn [rh_values rh_trees rh_results okeys map app].
  destruct T as [|kv T]; [congruence|]. reflexivity.
Qed.

Lemma last_byte_app_bang (s : string) : last_byte (s +:+ "!") = Some "!"%char.
Proof.
  induction s as [|c s IH]; [reflexivity|].
  change (String c s +:+ "!") with (String c (s +:+ "!")).
  cbn [last_byte]. rewrite IH.
  destruct (s +:+ "!") eqn:E; [|reflexivity].
  destruct s; discriminate.
Qed.

Lemma hashToken_isHashKey md5Sum (bytes : string) :
  isHashKey (hashToken md5Sum bytes) = true.
Proof.
  unfold hashToken, isHashKey.
  change ("!" +:+ hexEncodeToString (md5Sum bytes) +:+ "!")
    with (String "!" (hexEncodeToString (md5Sum bytes) +:+ "!")).
  cbn [first_byte is_bang Ascii.eqb Bool.eqb andb].
  change (last_byte (String "!" ?s))
    with (match s with EmptyString => Some "!"%char | _ => last_byte s end).
  rewrite last_byte_app_bang.
  destruct (hexEncodeToString (md5Sum bytes) +:+ "!"); reflexivity.
Qed.

(** *** The stages over all rows *)

Section PlainQuery.
Variable jsonMarshal : value -> outcome string.
Variable md5Sum : string -> list ascii.
Variable rangeOrder : list string -> list string.
Variable columns : list string.
Hypothesis rangeOrder_perm : forall l : list string, rangeOrder l ≡ₚ l.
Hypothesis columns_NoDup : NoDup columns.
Hypothesis columns_plain : Forall (fun c => plainColumn c = true) columns.
Hypothesis columns_nonempty : columns <> [].

Lemma prefixed_keys_NoDup (p : string) (row : list scalar) :
    length row = length columns ->
    NoDup (okeys (mapKeys (fun c => p +:+ c) (flatObject columns row))).
  Proof using columns_NoDup.
    intros Hl. rewrite okeys_mapKeys, (flatObject_keys columns row Hl).
    apply NoDup_map_prefix. exact columns_NoDup.
  Qed.

Lemma getAllRecords_plain (rows : list (list scalar)) :
    Forall (fun r => length r = length columns) rows ->
    getAllRecords rows (map (fun c => "$[]" +:+ "." +:+ c) columns)
    = Ok (map (fun r => mapKeys (fun c => "[]." +:+ c)
                          (flatObject columns r)) rows).
  Proof using columns_NoDup.
    induction 1 as [|r rows Hr _ IH]; [reflexivity|].
    cbn [getAllRecords]. rewrite rowRecordFrom_zip by (cbn; lia).
    cbn [bind]. rewrite drop_0, IH. cbn [bind map]. do 2 f_equal.
    change (fun c => "[]" +:+ "." +:+ c) with (fun c => "[]." +:+ c).
    unfold flatObject. rewrite zip_mapKeys.
    apply setAll_unique. apply (prefixed_keys_NoDup "[]." r Hr).
  Qed.

Lemma rowPart_mapKeys (row : list scalar) :
    rowPart columns row
    = VMap (mapKeys (fun c => "." +:+ c) (flatObject columns row)).
  Proof using Type.
    unfold rowPart, flatObject. rewrite zip_mapKeys. reflexivity.
  Qed.

Lemma groupBySeparator_plain (rows : list (list scalar)) :
    Forall (fun r => length r = length columns) rows ->
    groupBySeparator
      (map (fun r => mapKeys (fun c => "[]." +:+ c) (flatObject columns r))
         rows) "[]"
    = Ok (map (fun r => [("[]", rowPart columns r)]) rows).
  Proof using All.
    induction 1 as [|r rows Hr _ IH]; [reflexivity|].
    cbn [map groupBySeparator].
    change (fun c => "[]." +:+ c) with (fun c => "[]" +:+ "." +:+ c).
    rewrite (groupRecord_plain_first _ (flatObject_nonempty columns
              columns_nonempty r Hr) (flatObject_plain columns columns_plain r)).
    cbn [bind].
    change (fun c => "[]" +:+ "." +:+ c) with (fun c => "[]." +:+ c).
    rewrite IH. cbn [bind]. rewrite rowPart_mapKeys.
    rewrite (setAll_unique _ (prefixed_keys_NoDup "." r Hr)). reflexivity.
  Qed.

Lemma addHashes_plain (rows : list (list scalar)) (bytes : list string) :
    Forall2 (fun r b => jsonMarshal (rowPart columns r) = Ok b) rows bytes ->
    addHashes jsonMarshal md5Sum rangeOrder
      (map (fun r => [("[]", rowPart columns r)]) rows)
    = Ok (map (hashedRecord columns)
            (zip (map (hashToken md5Sum) bytes) rows)).
  Proof using rangeOrder_perm.
    induction 1 as [|r b rows bytes Hb _ IH]; [reflexivity|].
    cbn [map addHashes].
    rewrite (addHashesRecord_root _ md5Sum _ _ b rangeOrder_perm Hb).
    cbn [bind]. rewrite IH. cbn [bind zip zip_with].
    unfold hashedRecord at 2. cbn [fst snd]. rewrite rowPart_mapKeys.
    reflexivity.
  Qed.

Lemma tokenEntries_zip (tokens : list string) (rows : list (list scalar)) :
    tokenEntries columns (zip tokens rows)
    = zip tokens (map (fun r => VMap (flatObject columns r)) rows).
  Proof using Type.
    revert rows. induction tokens as [|t tokens IH]; intros [|r rows];
      try reflexivity.
    cbn. f_equal. apply IH.
  Qed.

  (** C4, amended: a query without joins and hints, with distinct column
      names that are no paths, over at least one row.  Rows with the same
      fingerprint are merged: the result is the array of the flat objects
      kept under the distinct tokens, in the order the tokens first occur;
      when no two rows share a fingerprint this is one flat object per
      row, in row order, keyed by the column names in output order. *)
Theorem PathQuery_no_joins_no_hints (rows : list (list scalar))
      (bytes : list string) :
    rows <> [] ->
    Forall (fun r => length r = length columns) rows ->
    Forall2 (fun r b => jsonMarshal (rowPart columns r) = Ok b) rows bytes ->
    let tokens := map (hashToken md5Sum) bytes in
    let objects := map (fun r => VMap (flatObject columns r)) rows in
    PathQuery jsonMarshal md5Sum rangeOrder columns rows
    = Ok (VSeq (map snd (setAll (zip tokens objects) [])))
    /\ (NoDup tokens ->
        PathQuery jsonMarshal md5Sum rangeOrder columns rows
        = Ok (VSeq objects)).
  Proof using All.
    intros Hne Hlen Hbytes tokens objects.
    assert (Hmain : PathQuery jsonMarshal md5Sum rangeOrder columns rows
                    = Ok (VSeq (map snd (setAll (zip tokens objects) [])))).
    { unfold PathQuery. rewrite (getPaths_plain columns columns_plain).
      cbn [bind]. rewrite (getAllRecords_plain rows Hlen). cbn [bind].
      unfold fullPipeline. rewrite (groupBySeparator_plain rows Hlen).
      cbn [bind]. rewrite (addHashes_plain rows bytes Hbytes). cbn [bind].
      fold tokens.
      assert (Hgood : Forall (goodRow columns) (zip tokens rows)).
      { apply Forall_forall. intros [t r] Hin. split; cbn [fst snd].
        - apply elem_of_zip_l in Hin. subst tokens.
          rewrite map_fmap in Hin.
          apply list_elem_of_fmap in Hin as (b & -> & _).
          apply hashToken_no_dot.
        - apply elem_of_zip_r in Hin. rewrite Forall_forall in Hlen.
          apply Hlen. exact Hin. }
      assert (Hlt : length tokens = length rows).
      { subst tokens. rewrite length_map.
        symmetry. exact (Forall2_length _ _ _ Hbytes). }
      assert (Hzne : zip tokens rows <> []).
      { intros E. apply (f_equal (@length _)) in E.
        rewrite length_zip, Hlt in E. destruct rows; [congruence|].
        cbn in E. lia. }
      rewrite (combineIntoTree_rows columns columns_NoDup columns_plain
                 columns_nonempty _ Hzne Hgood).
      cbn [bind removeHashesOpt]. rewrite tokenEntries_zip. fold objects.
      apply (removeHashes_tokens "$" columns _ columns_NoDup).
      - intros E. apply (proj1 (setAll_nil_iff _)) in E.
        apply (f_equal (@length _)) in E. rewrite length_zip in E.
        subst objects. rewrite length_map, Hlt in E.
        destruct rows; [congruence|]. cbn in E. lia.
      - apply Forall_setAll; [|constructor].
        apply Forall_forall. intros [t o] Hin. cbn [fst snd]. split.
        + apply elem_of_zip_l in Hin. subst tokens.
          rewrite map_fmap in Hin.
          apply list_elem_of_fmap in Hin as (b & -> & _).
          apply hashToken_isHashKey.
        + apply elem_of_zip_r in Hin. subst objects.
          rewrite map_fmap in Hin.
          apply list_elem_of_fmap in Hin as (r & -> & Hr).
          apply flatEntry_row. rewrite Forall_forall in Hlen.
          apply Hlen. exact Hr. }
    split; [exact Hmain|]. intros Hnd. rewrite Hmain. do 2 f_equal.
    assert (Hlt : length tokens = length objects).
    { subst tokens objects. rewrite !length_map.
      symmetry. exact (Forall2_length _ _ _ Hbytes). }
    rewrite setAll_unique.
    - rewrite map_fmap. apply snd_zip. lia.
    - unfold okeys. rewrite map_fmap, fst_zip by lia. exact Hnd.
  Qed.
End PlainQuery.

(** Two rows with the same cells have the same fingerprint and come out
    as one object, whatever the encoder and the digest. *)
Lemma PathQuery_equal_rows_merge jsonMarshal md5Sum rangeOrder
    (bytes : string) :
  (forall l : list string, rangeOrder l ≡ₚ l) ->
  jsonMarshal (rowPart ["id"] [SInt 1]) = Ok bytes ->
  PathQuery jsonMarshal md5Sum rangeOrder ["id"] [[SInt 1]; [SInt 1]]
  = Ok (VSeq [VMap [("id", VScalar (SInt 1))]]).
Proof.
  intros Hperm Hb.
  destruct (PathQuery_no_joins_no_hints jsonMarshal md5Sum rangeOrder ["id"]
              Hperm) with (rows := [[SInt 1]; [SInt 1]])
                          (bytes := [bytes; bytes]) as [Hmain _].
  - apply NoDup_singleton.
  - repeat constructor.
  - discriminate.
  - discriminate.
  - repeat constructor.
  - repeat constructor; exact Hb.
  - rewrite Hmain. cbn [map zip zip_with setAll fold_left fst snd oset].
    rewrite String.eqb_refl. reflexivity.
Qed.

(** C4, as stated, fails: the query returns the rows (1) and (1) under the
    column id, and [PathQuery] returns one object, not two. *)
Lemma PathQuery_duplicate_rows :
  plainColumn "id" = true
  /\ PathQuery sampleMarshal sampleMd5 insertionOrder ["id"]
       [[SInt 1]; [SInt 1]]
     = Ok (VSeq [VMap [("id", VScalar (SInt 1))]])
  /\ PathQuery sampleMarshal sampleMd5 insertionOrder ["id"]
       [[SInt 1]; [SInt 1]]
     <> Ok (VSeq [VMap (flatObject ["id"] [SInt 1]);
                  VMap (flatObject ["id"] [SInt 1])]).
Proof.
  split; [reflexivity|].
  assert (H : PathQuery sampleMarshal sampleMd5 insertionOrder ["id"]
                [[SInt 1]; [SInt 1]]
              = Ok (VSeq [VMap [("id", VScalar (SInt 1))]])).
  { vm_compute. reflexivity. }
  split; [exact H|]. rewrite H. discriminate.
Qed.

(** Without rows the tree is nil and [removeHashes] dereferences it. *)
Example PathQuery_no_rows :
  PathQuery sampleMarshal sampleMd5 insertionOrder ["id"] [] = Panic.
Proof. reflexivity. Qed.

Lemma PathQuery_no_joins_no_hints_witness :
  PathQuery sampleMarshal sampleMd5 insertionOrder ["id"; "content"]
    [[SInt 1; SText "blog started"]; [SInt 2; SText "second"]]
  = Ok (VSeq [VMap [("id", VScalar (SInt 1));
                    ("content", VScalar (SText "blog started"))];
              VMap [("id", VScalar (SInt 2));
                    ("content", VScalar (SText "second"))]]).
Proof.
  refine (proj2 (PathQuery_no_joins_no_hints sampleMarshal sampleMd5
                   insertionOrder ["id"; "content"] _ _ _ _
                   [[SInt 1; SText "blog started"]; [SInt 2; SText "second"]]
                   [_; _] _ _ _) _).
  - intros l. reflexivity.
  - apply nodupb_NoDup. reflexivity.
  - repeat constructor.
  - discriminate.
  - discriminate.
  - repeat constructor.
  - repeat constructor; vm_compute; reflexivity.
  - apply nodupb_NoDup. vm_compute. reflexivity.
Defined.

(** ** The order of the range over the rewriting table *)

(** Replacing skips over a stretch without the first byte of the key. *)
Lemma replaceFrom_skip (c0 : ascii) (old' new h rest : string) :
  contains h (String c0 EmptyString) = false ->
  replaceFrom (String c0 old') new (h +:+ rest) 0
  = h +:+ replaceFrom (String c0 old') new rest 0.
Proof.
  induction h as [|c h IH]; intros Hh; [reflexivity|].
  apply contains_cons_false in Hh as [Hp Hc].
  change (String c h +:+ rest) with (String c (h +:+ rest)).
  change (String c h +:+ replaceFrom (String c0 old') new rest 0)
    with (String c (h +:+ replaceFrom (String c0 old') new rest 0)).
  cbn [replaceFrom hasPrefix] in *. rewrite hasPrefix_empty, andb_true_r in Hp.
  rewrite Hp. cbn [andb]. rewrite (IH Hc). reflexivity.
Qed.

(** Splitting at dots carries a stretch without dots into the piece. *)
Lemma splitFrom_skip (h rest cur : string) :
  contains h "." = false ->
  splitFrom "." (h +:+ rest) 0 cur = splitFrom "." rest 0 (cur +:+ h).
Proof.
  revert cur. induction h as [|c h IH]; intros cur Hh.
  - rewrite app_str_nil_r. reflexivity.
  - apply contains_cons_false in Hh as [Hp Hc].
    change (String c h +:+ rest) with (String c (h +:+ rest)).
    cbn [splitFrom hasPrefix] in *. rewrite hasPrefix_empty, andb_true_r in *.
    rewrite Hp. rewrite (IH _ Hc), app_str_assoc. reflexivity.
Qed.

Lemma append_cons (c : ascii) (s t : string) :
  String c s +:+ t = String c (s +:+ t).
Proof. reflexivity. Qed.

Lemma append_nil_l (t : string) : EmptyString +:+ t = t.
Proof. reflexivity. Qed.

Lemma isHashKey_token (h : string) : isHashKey (String "!" (h +:+ "!")) = true.
Proof.
  unfold isHashKey. cbn [first_byte is_bang Ascii.eqb Bool.eqb andb].
  change (last_byte (String "!" (h +:+ "!")))
    with (match h +:+ "!" with
          | EmptyString => Some "!"%char
          | _ => last_byte (h +:+ "!")
          end).
  rewrite last_byte_app_bang. destruct (h +:+ "!"); reflexivity.
Qed.

Lemma hex_no_bracket (bytes : list ascii) :
  contains (hexEncodeToString bytes) "[" = false.
Proof.
  induction bytes as [|b bytes IH]; [reflexivity|].
  cbn [hexEncodeToString contains hasPrefix].
  rewrite !hasPrefix_empty, !andb_true_r, IH, orb_false_r.
  rewrite (proj2 (hexDigit_not_dot _)), (proj2 (hexDigit_not_dot _)).
  reflexivity.
Qed.

Lemma eqb_app_l (h a b : string) :
  String.eqb (h +:+ a) (h +:+ b) = String.eqb a b.
Proof.
  induction h as [|c h IH]; [reflexivity|].
  rewrite !append_cons. cbn [String.eqb]. rewrite Ascii.eqb_refl. exact IH.
Qed.

Lemma rhLoop_nil (path : string) (st : rhState) : rhLoop path [] st = Ok st.
Proof. reflexivity. Qed.

(** Evaluation with digests that are not known: the literal parts compute,
    the digests are stepped over. *)
Ltac norm_str :=
  repeat (rewrite app_str_assoc || rewrite append_cons || rewrite append_nil_l
          || rewrite app_str_nil_r).

Ltac replace_steps :=
  repeat first
    [ progress cbn [replaceAll replaceFrom hasPrefix Ascii.eqb Bool.eqb
                      andb String.length Nat.sub]
    | progress norm_str
    | rewrite replaceFrom_skip by assumption ].

Ltac split_steps :=
  repeat first
    [ progress cbn [split splitFrom hasPrefix Ascii.eqb Bool.eqb andb
                      String.length Nat.sub]
    | progress norm_str
    | rewrite splitFrom_skip by assumption ].

Ltac tree_steps :=
  repeat first
    [ progress cbn [setAtPath oget oset asMap bind String.eqb Ascii.eqb
                      Bool.eqb]
    | rewrite String.eqb_refl ].

Ltac rh_steps :=
  repeat first
    [ rewrite removeHashesNode_map
    | rewrite rhLoop_cons
    | rewrite rhLoop_nil
    | rewrite isHashKey_token
    | progress change (isHashKey "aaa") with false
    | progress change (isHashKey "b") with false
    | progress change (isHashKey "b[]") with false
    | progress change (isHashKey "c") with false
    | progress cbn [bind rhFinish rhEmpty rh_values rh_trees rh_results app
                      okeys map fst snd fold_left oset String.eqb Ascii.eqb
                      Bool.eqb] ].

Section AnyDigest.
Variable jsonMarshal : value -> outcome string.
Variable md5Sum : string -> list ascii.
Variable b1 b2 b3 : string.
Hypothesis marshal1 : jsonMarshal (VMap [(".x", VScalar (SInt 1))]) = Ok b1.
Hypothesis marshal2 : jsonMarshal (VMap [(".y", VScalar (SInt 2))]) = Ok b2.
Hypothesis marshal3 : jsonMarshal (VMap [(".z", VScalar (SInt 3))]) = Ok b3.

(** [addHashes] on the three groups, for each order of the two keys of
    equal length: the third key keeps ["b[]"] in one and loses it in the
    other, whatever the digests are. *)
Lemma addHashes_tie_order :
  addHashes jsonMarshal md5Sum insertionOrder overlappingGroups
  = Ok (hashedOuterFirst (hexEncodeToString (md5Sum b1))
          (hexEncodeToString (md5Sum b2)) (hexEncodeToString (md5Sum b3)))
  /\ addHashes jsonMarshal md5Sum reverseOrder overlappingGroups
     = Ok (hashedInnerFirst (hexEncodeToString (md5Sum b1))
             (hexEncodeToString (md5Sum b2)) (hexEncodeToString (md5Sum b3))).
Proof using All.
  unfold overlappingGroups.
  cbn [addHashes]. unfold addHashesRecord. cbn [hashMapping].
  change (hasSuffix ".aaa[]" "[]") with true.
  change (hasSuffix "[].b[]" "[]") with true.
  change (hasSuffix ".aaa[].b[].c[]" "[]") with true.
  cbn iota. rewrite marshal1. cbn [bind hashMapping]. rewrite marshal2.
  cbn [bind hashMapping]. rewrite marshal3. cbn [bind hashMapping].
  pose proof (hex_no_dot (md5Sum b1)) as D1.
  pose proof (hex_no_dot (md5Sum b2)) as D2.
  pose proof (hex_no_dot (md5Sum b3)) as D3.
  pose proof (hex_no_bracket (md5Sum b1)) as B1.
  pose proof (hex_no_bracket (md5Sum b2)) as B2.
  pose proof (hex_no_bracket (md5Sum b3)) as B3.
  generalize dependent (hexEncodeToString (md5Sum b1)). intros h1 D1 B1.
  generalize dependent (hexEncodeToString (md5Sum b2)). intros h2 D2 B2.
  generalize dependent (hexEncodeToString (md5Sum b3)). intros h3 D3 B3.
  cbn [oset String.eqb Ascii.eqb Bool.eqb takeStr String.length Nat.sub
         okeys map fst].
  split; unfold insertionOrder, reverseOrder;
    cbn [rev app sortByRevLen insertByRevLen String.length Nat.ltb Nat.leb];
    cbn [fold_left fst snd]; unfold rewriteKey, mappingAt;
    cbn [fold_left oget String.eqb Ascii.eqb Bool.eqb];
    unfold replaceAll; replace_steps;
    cbn [oset String.eqb Ascii.eqb Bool.eqb];
    rewrite ?eqb_app_l; cbn [String.eqb Ascii.eqb Bool.eqb];
    reflexivity.
Qed.

End AnyDigest.

(** The tree of each of the two records, for digests without a dot. *)
Lemma tree_of_hashedOuterFirst (h1 h2 h3 : string) :
  contains h1 "." = false -> contains h2 "." = false ->
  contains h3 "." = false ->
  (tree <~ combineIntoTree (hashedOuterFirst h1 h2 h3) "." ;;
   removeHashesOpt tree "$") = Ok treeOuterFirst.
Proof.
  intros D1 D2 D3. unfold combineIntoTree, hashedOuterFirst.
  cbn [combineRecords combineRecord asMap combineGroup].
  unfold split. split_steps. tree_steps.
  unfold removeHashesOpt, removeHashes. rh_steps. reflexivity.
Qed.

Lemma tree_of_hashedInnerFirst (h1 h2 h3 : string) :
  contains h1 "." = false -> contains h2 "." = false ->
  contains h3 "." = false ->
  (tree <~ combineIntoTree (hashedInnerFirst h1 h2 h3) "." ;;
   removeHashesOpt tree "$") = Ok treeInnerFirst.
Proof.
  intros D1 D2 D3. unfold combineIntoTree, hashedInnerFirst.
  cbn [combineRecords combineRecord asMap combineGroup].
  unfold split. split_steps. tree_steps.
  unfold removeHashesOpt, removeHashes. rh_steps. reflexivity.
Qed.

(** C10 at that record: both orders are orders of a range over the table
    (each key once), [sort.Sort] keeps either, and, whenever
    [json.Marshal] succeeds on the three groups, the four stages return a
    different tree for each, whatever the digest function is. *)
Theorem pipeline_depends_on_range_order
    (jsonMarshal : value -> outcome string) (md5Sum : string -> list ascii) :
  succeeds (jsonMarshal (VMap [(".x", VScalar (SInt 1))])) = true ->
  succeeds (jsonMarshal (VMap [(".y", VScalar (SInt 2))])) = true ->
  succeeds (jsonMarshal (VMap [(".z", VScalar (SInt 3))])) = true ->
  (forall l : list string, insertionOrder l ≡ₚ l)
  /\ (forall l : list string, reverseOrder l ≡ₚ l)
  /\ getAllRecords [[SInt 1; SInt 2; SInt 3]]
       ["$.aaa[].x"; "$[].b[].y"; "$.aaa[].b[].c[].z"]
     = Ok [overlappingRecord]
  /\ fullPipeline jsonMarshal md5Sum insertionOrder [overlappingRecord]
     = Ok treeOuterFirst
  /\ fullPipeline jsonMarshal md5Sum reverseOrder [overlappingRecord]
     = Ok treeInnerFirst
  /\ treeOuterFirst <> treeInnerFirst.
Proof.
  intros H1 H2 H3.
  destruct (jsonMarshal (VMap [(".x", VScalar (SInt 1))])) as [b1| |] eqn:E1;
    try discriminate H1.
  destruct (jsonMarshal (VMap [(".y", VScalar (SInt 2))])) as [b2| |] eqn:E2;
    try discriminate H2.
  destruct (jsonMarshal (VMap [(".z", VScalar (SInt 3))])) as [b3| |] eqn:E3;
    try discriminate H3.
  destruct (addHashes_tie_order jsonMarshal md5Sum b1 b2 b3 E1 E2 E3)
    as [Hfirst Hsecond].
  assert (Hgroups : groupBySeparator [overlappingRecord] "[]"
                    = Ok overlappingGroups) by reflexivity.
  split; [intros l; reflexivity|].
  split; [intros l; unfold reverseOrder; symmetry; apply Permutation_rev|].
  split; [reflexivity|].
  unfold fullPipeline. rewrite Hgroups. cbn [bind].
  rewrite Hfirst, Hsecond. cbn [bind].
  split; [apply tree_of_hashedOuterFirst; apply hex_no_dot|].
  split; [apply tree_of_hashedInnerFirst; apply hex_no_dot|].
  discriminate.
Qed.

Lemma pipeline_depends_on_range_order_witness :
  succeeds (sampleMarshal (VMap [(".x", VScalar (SInt 1))])) = true
  /\ succeeds (sampleMarshal (VMap [(".y", VScalar (SInt 2))])) = true
  /\ succeeds (sampleMarshal (VMap [(".z", VScalar (SInt 3))])) = true
  /\ PathQuery sampleMarshal sampleMd5 insertionOrder
       ["$.aaa[].x"; "$[].b[].y"; "$.aaa[].b[].c[].z"]
       [[SInt 1; SInt 2; SInt 3]] = Ok treeOuterFirst
  /\ PathQuery sampleMarshal sampleMd5 reverseOrder
       ["$.aaa[].x"; "$[].b[].y"; "$.aaa[].b[].c[].z"]
       [[SInt 1; SInt 2; SInt 3]] = Ok treeInnerFirst.
Proof.
  assert (H1 : succeeds (sampleMarshal (VMap [(".x", VScalar (SInt 1))]))
               = true) by reflexivity.
  assert (H2 : succeeds (sampleMarshal (VMap [(".y", VScalar (SInt 2))]))
               = true) by reflexivity.
  assert (H3 : succeeds (sampleMarshal (VMap [(".z", VScalar (SInt 3))]))
               = true) by reflexivity.
  destruct (pipeline_depends_on_range_order sampleMarshal sampleMd5 H1 H2 H3)
    as (_ & _ & _ & Hfirst & Hsecond & _).
  split; [exact H1|]. split; [exact H2|]. split; [exact H3|].
  split; [exact Hfirst | exact Hsecond].
Defined.

(** ** isOneToManyJoin *)





(** When no foreign key matches in the direction left to right, the rule
    of the claim is the rule of the code. *)
Lemma isOneToManyJoin_one_direction (join : JoinInfo)
    (fks : list ForeignKey) :
  (forall jc fk, In jc (OnColumns join) -> In fk fks ->
                 leftToRight join jc fk = false) ->
  isOneToManyJoin join fks
  = (existsb (fun jc => existsb (rightToLeft join jc) fks) (OnColumns join)
     || isLeftJoin join).
Proof.
  intros Hno. unfold isOneToManyJoin.
  assert (H : forall jcs,
             (forall jc, In jc jcs -> In jc (OnColumns join)) ->
             firstVerdict (fun jc => firstVerdict (fkVerdict join jc) fks) jcs
             = if existsb (fun jc => existsb (rightToLeft join jc) fks) jcs
               then Some true else None).
  { induction jcs as [|jc jcs IH]; intros Hsub; [reflexivity|].
    cbn [firstVerdict existsb].
    assert (Hjc : firstVerdict (fkVerdict join jc) fks
                  = if existsb (rightToLeft join jc) fks
                    then Some true else None).
    { assert (Hin : forall fk, In fk fks -> leftToRight join jc fk = false).
      { intros fk Hf. apply Hno; [apply Hsub; left; reflexivity|exact Hf]. }
      clear Hsub IH. induction fks as [|fk fks' IHf]; [reflexivity|].
      cbn [firstVerdict existsb]. unfold fkVerdict at 1.
      destruct (rightToLeft join jc fk); [reflexivity|].
      rewrite (Hin fk (or_introl eq_refl)). cbn [orb].
      apply IHf.
      - intros jc' fk' Hj Hf. apply Hno; [exact Hj|right; exact Hf].
      - intros fk' Hf. apply Hin. right. exact Hf. }
    rewrite Hjc. destruct (existsb (rightToLeft join jc) fks);
      [reflexivity|]. cbn [orb]. apply IH. intros jc' Hj. apply Hsub.
    right. exact Hj. }
  rewrite (H (OnColumns join) (fun _ Hj => Hj)).
  destruct (OnColumns join); [reflexivity|].
  destruct (existsb _ _); reflexivity.
Qed.

(** ** buildCardinalityMap *)

Lemma findRoot_spec (order : list string) (joined : gset string) :
  findRoot order joined <> EmptyString ->
  findRoot order joined ∈ order /\ findRoot order joined ∉ joined.
Proof.
  induction order as [|a order IH]; cbn [findRoot]; [congruence|].
  destruct (decide (a ∈ joined)) as [Hin|Hnot].
  - intros H. destruct (IH H) as [H1 H2]. split; [right; exact H1|exact H2].
  - intros _. split; [left|exact Hnot].
Qed.

Lemma findRoot_found (order : list string) (joined : gset string) :
  EmptyString ∉ order ->
  (exists a, a ∈ order /\ a ∉ joined) ->
  findRoot order joined <> EmptyString.
Proof.
  induction order as [|a order IH]; cbn [findRoot].
  - intros _ (b & Hb & _). inversion Hb.
  - intros Hne (b & Hb & Hnot).
    destruct (decide (a ∈ joined)) as [Hin|Hnin].
    + apply IH.
      * intros H. apply Hne. right. exact H.
      * exists b. split; [|exact Hnot].
        apply elem_of_cons in Hb as [->|Hb]; [contradiction|exact Hb].
    + intros ->. apply Hne. left.
Qed.

Lemma RightAlias_joined (join : JoinInfo) (joins : list JoinInfo) :
  In join joins -> RightAlias join ∈ joinedAliases joins.
Proof.
  intros H. unfold joinedAliases. apply elem_of_list_to_set.
  apply list_elem_of_In. apply in_map. exact H.
Qed.

Lemma joins_keep_root (fks : list ForeignKey) (root : string)
    (joins : list JoinInfo) :
  (forall join, In join joins -> RightAlias join <> root) ->
  forall c : gmap string bool,
    fold_left (fun c join => <[RightAlias join := isOneToManyJoin join fks]> c)
      joins c !! root
    = c !! root.
Proof.
  induction joins as [|join joins IH]; intros Hne c; [reflexivity|].
  cbn [fold_left]. rewrite IH.
  - apply lookup_insert_ne. apply Hne. left. reflexivity.
  - intros j Hj. apply Hne. right. exact Hj.
Qed.

Lemma defaults_keep (root : string) (x : bool) (tables : gmap string string)
    (c : gmap string bool) :
  c !! root = Some x ->
  map_fold
    (fun alias (_ : string) (c : gmap string bool) =>
       match c !! alias with
       | Some _ => c
       | None => <[alias := true]> c
       end) c tables !! root
  = Some x.
Proof.
  intros Hc.
  apply (map_fold_weak_ind
           (fun (r : gmap string bool) (_ : gmap string string) =>
              r !! root = Some x)); [exact Hc|].
  intros alias t m r _ Hr. destruct (r !! alias) eqn:E; [exact Hr|].
  rewrite lookup_insert_ne; [exact Hr|]. intros ->. congruence.
Qed.

(** C2, as stated, fails: the root alias p has a hint that ends with the
    array marker, and its flag is object, because the hint for [$] is
    written over it. *)
Lemma buildCardinalityMap_dollar_hint_wins :
  findRoot ["p"] (joinedAliases (Joins twoHintsAnalysis)) = "p"
  /\ PathHints twoHintsAnalysis !! "p" = Some "$.x[]"
  /\ hasSuffix "$.x[]" "[]" = true
  /\ exists analysis' cardinality,
       buildCardinalityMap (Ok []) ["p"] twoHintsAnalysis
       = Ok (analysis', cardinality)
       /\ cardinality !! "p" = Some false.
Proof.
  split; [reflexivity|]. split; [reflexivity|]. split; [reflexivity|].
  eexists _, _. split; [reflexivity|]. vm_compute. reflexivity.
Qed.

(** C2, amended: the root is the first alias, in the order of the range
    over the tables, that is no join's right side, and the hint that
    counts for it is the hint for [$] when the query has one, its own hint
    otherwise.  Its flag is array when that hint ends with the array
    marker; object when it is exactly the bare root; array exactly when
    there is a join for any other hint; array when there is no hint. *)
Theorem buildCardinalityMap_root_flag (fks : list ForeignKey)
    (order : list string) (analysis : QueryAnalysis) :
  let root := findRoot order (joinedAliases (Joins analysis)) in
  let hint := effectiveHint analysis root in
  root <> EmptyString ->
  exists analysis' cardinality,
    buildCardinalityMap (Ok fks) order analysis = Ok (analysis', cardinality)
    /\ (root ∉ joinedAliases (Joins analysis))
    /\ PathHints analysis' !! root = hint
    /\ (forall h, hint = Some h -> hasSuffix h "[]" = true ->
                  cardinality !! root = Some true)
    /\ (hint = Some "$" -> cardinality !! root = Some false)
    /\ (forall h, hint = Some h -> hasSuffix h "[]" = false -> h <> "$" ->
                  cardinality !! root = Some (bool_decide (Joins analysis <> [])))
    /\ (hint = None -> cardinality !! root = Some true).
Proof.
  intros root hint Hroot.
  destruct (findRoot_spec order _ Hroot) as [_ Hnj]. fold root in Hnj.
  assert (Hne : forall join, In join (Joins analysis) ->
                             RightAlias join <> root).
  { intros join Hj E. apply Hnj. rewrite <- E. apply RightAlias_joined.
    exact Hj. }
  assert (Hb : String.eqb root EmptyString = false).
  { apply String.eqb_neq. exact Hroot. }
  set (analysis' :=
         match PathHints analysis !! "$" with
         | Some hintPath =>
             mkQueryAnalysis (Tables analysis) (Joins analysis)
               (<[root := hintPath]> (PathHints analysis))
         | None => analysis
         end).
  assert (Hhint : PathHints analysis' !! root = hint).
  { subst analysis' hint. unfold effectiveHint.
    destruct (PathHints analysis !! "$"); [|reflexivity].
    cbn [PathHints]. apply lookup_insert_eq. }
  assert (Hjoins : Joins analysis' = Joins analysis).
  { subst analysis'. destruct (PathHints analysis !! "$"); reflexivity. }
  assert (Hrun : exists cardinality,
             buildCardinalityMap (Ok fks) order analysis
             = Ok (analysis', cardinality)
             /\ cardinality !! root
                = Some (rootFlag hint (Joins analysis))).
  { unfold buildCardinalityMap. cbn [bind]. fold root.
    subst analysis'. destruct (PathHints analysis !! "$") as [h|] eqn:Hd.
    - rewrite Hb. cbn [PathHints Joins Tables]. rewrite Hb.
      eexists. split; [reflexivity|].
      apply defaults_keep. rewrite (joins_keep_root fks root _ Hne).
      rewrite lookup_singleton_eq, lookup_insert_eq.
      subst hint. unfold effectiveHint. rewrite Hd. reflexivity.
    - rewrite Hb. eexists. split; [reflexivity|].
      apply defaults_keep. rewrite (joins_keep_root fks root _ Hne).
      rewrite lookup_singleton_eq.
      subst hint. unfold effectiveHint. rewrite Hd. reflexivity. }
  destruct Hrun as (cardinality & Hrun & Hflag).
  exists analysis', cardinality. split; [exact Hrun|]. split; [exact Hnj|].
  split; [exact Hhint|]. rewrite Hflag. unfold rootFlag.
  repeat split.
  - intros h -> ->. reflexivity.
  - intros ->. reflexivity.
  - intros h -> -> Hd. apply String.eqb_neq in Hd. rewrite Hd. f_equal.
    destruct (Joins analysis); reflexivity.
  - intros ->. reflexivity.
Qed.

(** A query with a table that is no join's right side has a root. *)
Lemma findRoot_exists (order : list string) (analysis : QueryAnalysis) :
  (forall a, a ∈ order <-> a ∈ dom (Tables analysis)) ->
  EmptyString ∉ dom (Tables analysis) ->
  (exists a, a ∈ dom (Tables analysis)
             /\ a ∉ joinedAliases (Joins analysis)) ->
  findRoot order (joinedAliases (Joins analysis)) <> EmptyString.
Proof.
  intros Hord Hne (a & Ha & Hnj). apply findRoot_found.
  - intros H. apply Hne, Hord. exact H.
  - exists a. split; [apply Hord; exact Ha|exact Hnj].
Qed.

Lemma buildCardinalityMap_root_flag_witness :
  exists analysis' cardinality,
    buildCardinalityMap (Ok []) ["p"] statisticsAnalysis
    = Ok (analysis', cardinality)
    /\ cardinality !! "p" = Some false.
Proof.
  destruct (buildCardinalityMap_root_flag [] ["p"] statisticsAnalysis)
    as (analysis' & cardinality & Hrun & _ & _ & _ & _ & Hother & _).
  - vm_compute. discriminate.
  - exists analysis', cardinality. split; [exact Hrun|].
    apply (Hother "$.statistics"); [reflexivity|reflexivity|discriminate].
Defined.

(** ** convertBytes *)

(** The integer branch returns only the canonical decimal text of the
    integer: the code prints the scanned integer and compares. *)
Lemma convertBytes_int_canonical (b : string) (i : Z) :
  convertBytes b = Some (SInt i) -> sprintfInt i = b.
Proof.
  unfold convertBytes. destruct (negb (isAscii b)); [discriminate|].
  destruct (sscanfInt b) as [j|].
  - destruct (String.eqb_spec (sprintfInt j) b) as [E|_].
    + intros [= <-]. exact E.
    + destruct (sscanfFloat b) as [[tok|]|]; try discriminate.
      destruct (contains b "."); discriminate.
  - destruct (sscanfFloat b) as [[tok|]|]; try discriminate.
    destruct (contains b "."); discriminate.
Qed.

(** C8 at the text 1.2.3 (a version number): it is no integer literal and
    does not parse as a floating-point literal without trailing text, so
    the claim keeps it as text; the scan stops after 1.2, reports no
    error, the text holds a period, and the code returns the float 1.2.
    The integer branch checks for trailing text, the float branch does
    not. *)
Theorem convertBytes_trailing_text :
  floatToken "1.2.3" = Some "1.2"
  /\ convertBytes "1.2.3" = Some (SFloat "1.2")
  /\ convertBytes "1.2.3" <> Some (SText "1.2.3")
  /\ convertBytes "192.168.1.1" = Some (SFloat "192.168")
  /\ convertBytes "1.5abc" = Some (SFloat "1.5").
Proof.
  repeat split; try (vm_compute; reflexivity). vm_compute. discriminate.
Qed.

(** What the integer branch does with trailing text: it is kept as text. *)
Example convertBytes_int_trailing :
  convertBytes "12abc" = Some (SText "12abc")
  /\ convertBytes "12" = Some (SInt 12)
  /\ convertBytes "1.5" = Some (SFloat "1.5")
  /\ convertBytes "007" = Some (SText "007").
Proof. repeat split; vm_compute; reflexivity. Qed.

(** A numeral out of the range of float64 is kept as text, the scan
    reporting the range error of [strconv.ParseFloat]; the largest
    float64, 2^1024 - 2^971, is returned as a float. *)
Example convertBytes_float_range :
  let beyond := pretty.pretty (2 ^ 1024)%Z +:+ ".5" in
  let largest := pretty.pretty (2 ^ 1024 - 2 ^ 971)%Z +:+ ".0" in
  convertBytes beyond = Some (SText beyond)
  /\ convertBytes largest = Some (SFloat largest).
Proof. split; vm_compute; reflexivity. Qed.

(** ** The object shortcut and the pipeline on one record *)

Lemma split_no_marker (name : string) :
  contains name "[]" = false -> split name "[]" = [name].
Proof. intros H. unfold split. now rewrite (splitFrom_no_sep "[]" name _ H). Qed.

Lemma groupKey_no_marker (name : string) (v : value) (sub : OrderedMap) :
  contains name "[]" = false ->
  groupKey "[]" name v [(EmptyString, VMap sub)]
  = Ok [(EmptyString, VMap (oset name v sub))].
Proof. intros H. unfold groupKey. rewrite (split_no_marker name H). reflexivity. Qed.

Lemma groupKey_no_marker_first (name : string) (v : value) :
  contains name "[]" = false ->
  groupKey "[]" name v [] = Ok [(EmptyString, VMap (oset name v []))].
Proof. intros H. unfold groupKey. rewrite (split_no_marker name H). reflexivity. Qed.

Lemma groupRecord_no_marker (r : OrderedMap) :
  Forall (fun kv => contains (fst kv) "[]" = false) r ->
  forall sub,
    groupRecord "[]" r [(EmptyString, VMap sub)]
    = Ok [(EmptyString, VMap (setAll r sub))].
Proof.
  induction 1 as [|[k v] r Hk _ IH]; intros sub; [reflexivity|].
  cbn [groupRecord]. rewrite (groupKey_no_marker k v sub Hk). cbn [bind].
  exact (IH _).
Qed.

Lemma groupRecord_no_marker_first (r : OrderedMap) :
  r <> [] ->
  Forall (fun kv => contains (fst kv) "[]" = false) r ->
  groupRecord "[]" r [] = Ok [(EmptyString, VMap (setAll r []))].
Proof.
  intros Hne H. destruct r as [|[k v] r]; [congruence|].
  inversion_clear H as [|? ? Hk Hr]. cbn [groupRecord].
  rewrite (groupKey_no_marker_first k v Hk). cbn [bind].
  exact (groupRecord_no_marker r Hr _).
Qed.

Lemma addHashesRecord_no_marker jsonMarshal md5Sum rangeOrder (part : value) :
  (forall l : list string, rangeOrder l ≡ₚ l) ->
  addHashesRecord jsonMarshal md5Sum rangeOrder [(EmptyString, part)]
  = Ok [(EmptyString, part)].
Proof.
  intros Hperm. unfold addHashesRecord. cbn [hashMapping].
  change (hasSuffix EmptyString "[]") with false. cbn iota.
  cbn [bind okeys map].
  rewrite (proj1 (Permutation_nil_r _) (Hperm [])). reflexivity.
Qed.

Lemma setAtPath_step (p q : string) (parts : list string) (v : value)
    (T : OrderedMap) :
  setAtPath (p :: q :: parts) v T
  = match asMap (oget p (ensureMap p T)) with
    | Some m =>
        m' <~ setAtPath (q :: parts) v m ;;
        Ok (oset p (VMap m') (ensureMap p T))
    | None => Panic
    end.
Proof. reflexivity. Qed.

Lemma setAtPathLenient_step (p q : string) (parts : list string) (v : value)
    (T : OrderedMap) :
  setAtPathLenient (p :: q :: parts) v T
  = oset p
      (VMap (setAtPathLenient (q :: parts) v
               match asMap (oget p (ensureMap p T)) with
               | Some m => m
               | None => []
               end))
      (ensureMap p T).
Proof. reflexivity. Qed.

Lemma setAtPath_lenient (parts : list string) (v : value) :
  forall T T',
    setAtPath parts v T = Ok T' -> setAtPathLenient parts v T = T'.
Proof.
  induction parts as [|p parts IH]; intros T T'; [discriminate|].
  destruct parts as [|q parts].
  - cbn [setAtPath setAtPathLenient]. intros [= <-]. reflexivity.
  - rewrite setAtPath_step, setAtPathLenient_step.
    destruct (asMap (oget p (ensureMap p T))) as [m|]; [|discriminate].
    destruct (setAtPath (q :: parts) v m) as [m'| |] eqn:E; try discriminate.
    cbn [bind]. intros [= <-]. rewrite (IH m m' E). reflexivity.
Qed.

Lemma setAtPath_not_err (parts : list string) (v : value) :
  forall T msg, setAtPath parts v T <> Err msg.
Proof.
  induction parts as [|p parts IH]; intros T msg; [discriminate|].
  destruct parts as [|q parts]; [discriminate|].
  rewrite setAtPath_step.
  destruct (asMap (oget p (ensureMap p T))) as [m|]; [|discriminate].
  destruct (setAtPath (q :: parts) v m) as [m'| |] eqn:E; try discriminate.
  exfalso. exact (IH _ _ E).
Qed.

Lemma setAtPath_under_root (q : string) (parts : list string) (v : value)
    (T : OrderedMap) :
  setAtPath (EmptyString :: q :: parts) v [(EmptyString, VMap T)]
  = (T' <~ setAtPath (q :: parts) v T ;; Ok [(EmptyString, VMap T')]).
Proof. reflexivity. Qed.

Lemma setAtPath_under_root_first (q : string) (parts : list string)
    (v : value) :
  setAtPath (EmptyString :: q :: parts) v []
  = (T' <~ setAtPath (q :: parts) v [] ;; Ok [(EmptyString, VMap T')]).
Proof. reflexivity. Qed.

Lemma splitFrom_nonempty (sep s : string) (skip : nat) (cur : string) :
  splitFrom sep s skip cur <> [].
Proof.
  revert skip cur. induction s as [|c s IH]; intros skip cur; [discriminate|].
  cbn [splitFrom]. destruct skip; [|apply IH].
  destruct (hasPrefix (String c s) sep); [discriminate|apply IH].
Qed.

Lemma split_leading_dot (k : string) :
  split ("." +:+ k) "." = EmptyString :: split k ".".
Proof.
  unfold split.
  change ("." +:+ k) with (EmptyString +:+ "." +:+ k).
  rewrite (splitFrom_dot EmptyString k EmptyString eq_refl). reflexivity.
Qed.

Lemma hasPrefix_dot (key : string) :
  hasPrefix key "." = true -> key = "." +:+ dropStr 1 key.
Proof.
  destruct key as [|c key]; [discriminate|].
  cbn [hasPrefix]. rewrite hasPrefix_empty, andb_true_r.
  intros H. apply Ascii.eqb_eq in H. subst c. reflexivity.
Qed.

Lemma objectKey_lenient (result : OrderedMap) (key : string) (v : value) :
  hasPrefix key "." = true ->
  objectKey result (key, v)
  = setAtPathLenient (split (dropStr 1 key) ".") v result.
Proof.
  intros H. unfold objectKey. cbn [fst snd]. rewrite H.
  destruct (contains (dropStr 1 key) ".") eqn:E; [reflexivity|].
  unfold split. rewrite (splitFrom_no_sep "." _ EmptyString E). reflexivity.
Qed.

Lemma combineGroup_object (r : OrderedMap) :
  Forall (fun kv => hasPrefix (fst kv) "." = true) r ->
  forall T,
    combineGroup "." EmptyString r [(EmptyString, VMap T)] = Panic
    \/ combineGroup "." EmptyString r [(EmptyString, VMap T)]
       = Ok [(EmptyString, VMap (fold_left objectKey r T))].
Proof.
  induction 1 as [|[key v] r Hk _ IH]; intros T; [right; reflexivity|].
  cbn [combineGroup fold_left fst] in *.
  rewrite (objectKey_lenient T key v Hk).
  change (EmptyString +:+ key) with key.
  assert (Hs : split key "." = EmptyString :: split (dropStr 1 key) ".").
  { rewrite (hasPrefix_dot key Hk) at 1. apply split_leading_dot. }
  rewrite Hs.
  destruct (split (dropStr 1 key) ".") as [|q parts] eqn:Es.
  { exfalso. exact (splitFrom_nonempty _ _ _ _ Es). }
  rewrite setAtPath_under_root.
  destruct (setAtPath (q :: parts) v T) as [T'|msg|] eqn:E.
  - cbn [bind]. rewrite (setAtPath_lenient _ _ _ _ E). apply IH.
  - exfalso. exact (setAtPath_not_err _ _ _ _ E).
  - left. reflexivity.
Qed.

Lemma combineGroup_object_first (r : OrderedMap) :
  r <> [] ->
  Forall (fun kv => hasPrefix (fst kv) "." = true) r ->
  combineGroup "." EmptyString r [] = Panic
  \/ combineGroup "." EmptyString r []
     = Ok [(EmptyString, VMap (objectShortcut r))].
Proof.
  intros Hne H. destruct r as [|[key v] r]; [congruence|].
  inversion_clear H as [|? ? Hk Hr]. cbn [fst] in Hk.
  unfold objectShortcut. cbn [combineGroup fold_left].
  rewrite (objectKey_lenient [] key v Hk).
  change (EmptyString +:+ key) with key.
  assert (Hs : split key "." = EmptyString :: split (dropStr 1 key) ".").
  { rewrite (hasPrefix_dot key Hk) at 1. apply split_leading_dot. }
  rewrite Hs.
  destruct (split (dropStr 1 key) ".") as [|q parts] eqn:Es.
  { exfalso. exact (splitFrom_nonempty _ _ _ _ Es). }
  rewrite setAtPath_under_root_first.
  destruct (setAtPath (q :: parts) v []) as [T'|msg|] eqn:E.
  - cbn [bind]. rewrite (setAtPath_lenient _ _ _ _ E).
    apply combineGroup_object. exact Hr.
  - exfalso. exact (setAtPath_not_err _ _ _ _ E).
  - left. reflexivity.
Qed.

(** The full pipeline on one record under object-shaped paths: unless a
    path nests under the scalar of an earlier path, where the walk of
    [combineIntoTree] panics, the merged tree is the object of the
    shortcut, and the result is that object resolved. *)
Lemma fullPipelineChecked_one_object jsonMarshal md5Sum rangeOrder
    (record : OrderedMap) :
  (forall l : list string, rangeOrder l ≡ₚ l) ->
  record <> [] ->
  NoDup (okeys record) ->
  Forall objectKeyShape record ->
  fullPipelineChecked jsonMarshal md5Sum rangeOrder [record] = Panic
  \/ fullPipelineChecked jsonMarshal md5Sum rangeOrder [record]
     = removeHashes (objectShortcut record) "$".
Proof.
  intros Hperm Hne Hnd Hshape. unfold fullPipelineChecked.
  cbn [groupBySeparator].
  rewrite (groupRecord_no_marker_first record Hne).
  2:{ eapply Forall_impl; [exact Hshape|]. intros kv (_ & H & _). exact H. }
  cbn [bind addHashes]. rewrite (setAll_unique record Hnd).
  rewrite (addHashesRecord_no_marker _ _ _ _ Hperm). cbn [bind].
  unfold combineIntoTree. cbn [combineRecords combineRecord asMap].
  destruct (combineGroup_object_first record Hne) as [E|E].
  { eapply Forall_impl; [exact Hshape|]. intros kv (H & _). exact H. }
  - left. rewrite E. reflexivity.
  - right. rewrite E. cbn [bind combineRecord oget asMap].
    rewrite String.eqb_refl. reflexivity.
Qed.

(** ** Keys of the pipeline's result hold no period *)

Lemma splitFrom_dot_pieces (s cur : string) :
  contains cur "." = false ->
  Forall (fun p => contains p "." = false) (splitFrom "." s 0 cur).
Proof.
  revert cur. induction s as [|c s IH]; intros cur Hcur.
  - constructor; [exact Hcur|constructor].
  - cbn [splitFrom]. destruct (hasPrefix (String c s) ".") eqn:E.
    + constructor; [exact Hcur|]. cbn [String.length Nat.sub].
      apply IH. reflexivity.
    + apply IH. apply (contains_app_false _ _ EmptyString); [exact Hcur|].
      cbn [contains hasPrefix] in *. rewrite hasPrefix_empty in *.
      rewrite E. reflexivity.
Qed.

Lemma split_dot_pieces (s : string) :
  Forall (fun p => contains p "." = false) (split s ".").
Proof. apply splitFrom_dot_pieces. reflexivity. Qed.

Lemma forallb_oset {V} (P : string * V -> bool) (k : string) (v : V)
    (o : list (string * V)) :
  forallb P o = true -> P (k, v) = true -> forallb P (oset k v o) = true.
Proof.
  intros Ho Hv. induction o as [|[k0 w] o IH]; cbn [oset forallb] in *.
  - rewrite Hv. reflexivity.
  - apply andb_prop in Ho as [H0 Ho].
    destruct (String.eqb_spec k0 k) as [->|Hne]; cbn [forallb].
    + rewrite Hv, Ho. reflexivity.
    + rewrite H0, (IH Ho). reflexivity.
Qed.

Lemma forallb_oget {V} (P : string * V -> bool) (k : string) (x : V)
    (o : list (string * V)) :
  forallb P o = true -> oget k o = Some x -> P (k, x) = true.
Proof.
  intros Ho Hg. apply oget_In in Hg. rewrite forallb_forall in Ho.
  exact (Ho _ Hg).
Qed.

Lemma dotFree_oset (k : string) (v : value) (o : OrderedMap) :
  dotFree (VMap o) = true ->
  contains k "." = false ->
  dotFree v = true ->
  dotFree (VMap (oset k v o)) = true.
Proof.
  intros Ho Hk Hv. cbn [dotFree] in *. apply forallb_oset; [exact Ho|].
  cbn [fst snd]. rewrite Hk, Hv. reflexivity.
Qed.

Lemma dotFree_ensureMap (p : string) (T : OrderedMap) :
  dotFree (VMap T) = true ->
  contains p "." = false ->
  dotFree (VMap (ensureMap p T)) = true.
Proof.
  intros HT Hp. unfold ensureMap. destruct (oget p T); [exact HT|].
  apply dotFree_oset; [exact HT|exact Hp|reflexivity].
Qed.

Lemma dotFree_under (p : string) (T m : OrderedMap) :
  dotFree (VMap T) = true ->
  asMap (oget p T) = Some m ->
  dotFree (VMap m) = true.
Proof.
  intros HT Hm. destruct (oget p T) as [[s|m0|l]|] eqn:E; try discriminate.
  injection Hm as <-. cbn [dotFree] in HT.
  pose proof (forallb_oget _ _ _ _ HT E) as H. cbn [fst snd] in H.
  apply andb_prop in H as [_ H]. exact H.
Qed.

Lemma setAtPath_dotFree (parts : list string) (v : value) :
  Forall (fun p => contains p "." = false) parts ->
  dotFree v = true ->
  forall T T',
    dotFree (VMap T) = true ->
    setAtPath parts v T = Ok T' ->
    dotFree (VMap T') = true.
Proof.
  intros Hparts Hv. induction Hparts as [|p parts Hp Hparts IH];
    intros T T' HT; [discriminate|].
  destruct parts as [|q parts].
  - cbn [setAtPath]. intros [= <-]. apply dotFree_oset; assumption.
  - rewrite setAtPath_step.
    destruct (asMap (oget p (ensureMap p T))) as [m|] eqn:Em; [|discriminate].
    destruct (setAtPath (q :: parts) v m) as [m'| |] eqn:E; try discriminate.
    cbn [bind]. intros [= <-].
    pose proof (dotFree_ensureMap p T HT Hp) as HT'.
    apply dotFree_oset; [exact HT'|exact Hp|].
    apply (IH m m'); [|exact E]. exact (dotFree_under _ _ _ HT' Em).
Qed.

Lemma combineGroup_dotFree (name : string) (entries : OrderedMap) :
  Forall (fun kv => dotFree (snd kv) = true) entries ->
  forall results results',
    dotFree (VMap results) = true ->
    combineGroup "." name entries results = Ok results' ->
    dotFree (VMap results') = true.
Proof.
  induction 1 as [|[k v] entries Hv _ IH]; intros results results' Hr.
  - intros [= <-]. exact Hr.
  - cbn [combineGroup].
    destruct (setAtPath (split (name +:+ k) ".") v results) as [r1| |] eqn:E;
      try discriminate.
    cbn [bind]. apply IH.
    exact (setAtPath_dotFree _ v (split_dot_pieces _) Hv _ _ Hr E).
Qed.

Lemma dotFree_setAll (kvs o : OrderedMap) :
  dotFree (VMap kvs) = true ->
  dotFree (VMap o) = true ->
  dotFree (VMap (setAll kvs o)) = true.
Proof.
  revert o. induction kvs as [|[k v] kvs IH]; intros o Hk Ho; [exact Ho|].
  cbn [dotFree forallb fst snd] in Hk.
  apply andb_prop in Hk as [Hkv Hk]. apply andb_prop in Hkv as [Hd Hv].
  apply negb_true_iff in Hd.
  unfold setAll in *. cbn [fold_left fst snd]. apply IH; [exact Hk|].
  apply dotFree_oset; assumption.
Qed.

Lemma rhLoop_dotFree (path : string) (es : list (string * value)) :
  Forall (fun kv => forall p out,
              dotFree (snd kv) = true ->
              removeHashesNode (snd kv) p = Ok out -> dotFree out = true) es ->
  dotFree (VMap es) = true ->
  forall st st',
    rhDotFree st -> rhLoop path es st = Ok st' -> rhDotFree st'.
Proof.
  induction 1 as [|[k v] es Hkv _ IH]; intros Hes st st' Hst.
  - intros [= <-]. exact Hst.
  - cbn [dotFree forallb fst snd] in Hes.
    apply andb_prop in Hes as [Hk Hes]. apply andb_prop in Hk as [Hd Hv].
    apply negb_true_iff in Hd. destruct Hst as (H1 & H2 & H3).
    rewrite rhLoop_cons. cbn [snd] in Hkv.
    destruct v as [s|sub|l].
    + apply (IH Hes). split; [|split; assumption].
      apply dotFree_oset; assumption.
    + destruct k as [|a k]; [discriminate|].
      destruct (removeHashesNode (VMap sub) (childPath path (String a k)))
        as [out| |] eqn:E; try discriminate.
      cbn [bind]. pose proof (Hkv _ _ Hv E) as Hout.
      apply (IH Hes). destruct (isHashKey (String a k)).
      * split; [exact H1|]. split; [exact H2|].
        cbn [rh_results]. rewrite forallb_app, H3. cbn. rewrite Hout.
        reflexivity.
      * split; [exact H1|]. split; [|exact H3].
        apply dotFree_oset; assumption.
    + apply (IH Hes). split; [|split; assumption].
      apply dotFree_oset; assumption.
Qed.

Lemma removeHashesNode_dotFree (node : value) :
  forall p out,
    dotFree node = true ->
    removeHashesNode node p = Ok out -> dotFree out = true.
Proof.
  induction node as [s|tree IH|l _] using value_nested_ind;
    intros p out Hd; try discriminate.
  rewrite removeHashesNode_map.
  destruct (rhLoop p tree rhEmpty) as [st| |] eqn:E; try discriminate.
  cbn [bind].
  assert (Hst : rhDotFree st).
  { apply (rhLoop_dotFree p tree IH Hd rhEmpty st); [|exact E].
    repeat split. }
  destruct Hst as (H1 & H2 & H3). unfold rhFinish.
  destruct (rh_results st) as [|r rs] eqn:Er.
  - intros [= <-].
    change (dotFree (VMap (setAll (rh_trees st) (setAll (rh_values st) [])))
            = true).
    apply dotFree_setAll; [exact H2|].
    apply dotFree_setAll; [exact H1|reflexivity].
  - destruct (okeys (rh_values st) ++ okeys (rh_trees st)); [|discriminate].
    intros [= <-]. exact H3.
Qed.

Lemma combineRecord_dotFree (record : OrderedMap) :
  Forall (fun kv => forall m, snd kv = VMap m ->
                              Forall (fun e => dotFree (snd e) = true) m)
    record ->
  forall results results',
    dotFree (VMap results) = true ->
    combineRecord "." record results = Ok results' ->
    dotFree (VMap results') = true.
Proof.
  induction 1 as [|[name v] record Hv _ IH]; intros results results' Hr.
  - intros [= <-]. exact Hr.
  - cbn [combineRecord]. destruct v as [s|m|l]; try discriminate.
    cbn [asMap].
    destruct (combineGroup "." name m results) as [r1| |] eqn:E;
      try discriminate.
    cbn [bind]. apply IH.
    exact (combineGroup_dotFree name m (Hv m eq_refl) _ _ Hr E).
Qed.

Lemma combineRecords_dotFree (records : list OrderedMap) :
  Forall (Forall (fun kv => forall m, snd kv = VMap m ->
                              Forall (fun e => dotFree (snd e) = true) m))
    records ->
  forall results results',
    dotFree (VMap results) = true ->
    combineRecords "." records results = Ok results' ->
    dotFree (VMap results') = true.
Proof.
  induction 1 as [|record records Hrec _ IH]; intros results results' Hr.
  - intros [= <-]. exact Hr.
  - cbn [combineRecords].
    destruct (combineRecord "." record results) as [r1| |] eqn:E;
      try discriminate.
    cbn [bind]. apply IH. exact (combineRecord_dotFree record Hrec _ _ Hr E).
Qed.

Lemma groupBySeparator_no_marker (records : list OrderedMap) :
  Forall flatRecordShape records ->
  groupBySeparator records "[]"
  = Ok (map (fun r => [(EmptyString, VMap r)]) records).
Proof.
  induction 1 as [|r records (Hne & Hnd & Hk) _ IH]; [reflexivity|].
  cbn [groupBySeparator map]. rewrite (groupRecord_no_marker_first r Hne).
  2:{ eapply Forall_impl; [exact Hk|]. intros kv (H & _). exact H. }
  cbn [bind]. rewrite IH. cbn [bind]. rewrite (setAll_unique r Hnd).
  reflexivity.
Qed.

Lemma addHashes_no_marker jsonMarshal md5Sum rangeOrder
    (records : list OrderedMap) :
  (forall l : list string, rangeOrder l ≡ₚ l) ->
  addHashes jsonMarshal md5Sum rangeOrder
    (map (fun r => [(EmptyString, VMap r)]) records)
  = Ok (map (fun r => [(EmptyString, VMap r)]) records).
Proof.
  intros Hperm. induction records as [|r records IH]; [reflexivity|].
  cbn [map addHashes]. rewrite (addHashesRecord_no_marker _ _ _ _ Hperm).
  cbn [bind]. rewrite IH. reflexivity.
Qed.

(** On records without array markers every key of the pipeline's result is
    a segment of a path: it holds no period. *)
Lemma fullPipelineChecked_dotFree jsonMarshal md5Sum rangeOrder
    (records : list OrderedMap) (out : value) :
  (forall l : list string, rangeOrder l ≡ₚ l) ->
  Forall flatRecordShape records ->
  fullPipelineChecked jsonMarshal md5Sum rangeOrder records = Ok out ->
  dotFree out = true.
Proof.
  intros Hperm Hshape. unfold fullPipelineChecked.
  rewrite (groupBySeparator_no_marker records Hshape). cbn [bind].
  rewrite (addHashes_no_marker _ _ _ records Hperm). cbn [bind].
  unfold combineIntoTree.
  destruct (combineRecords "." (map (fun r => [(EmptyString, VMap r)]) records)
              []) as [results| |] eqn:E; try discriminate.
  cbn [bind].
  assert (Hres : dotFree (VMap results) = true).
  { apply (combineRecords_dotFree _) with (results := []) (3 := E);
      [|reflexivity].
    apply Forall_forall. intros rec Hin. rewrite map_fmap in Hin.
    apply list_elem_of_fmap in Hin as (r & -> & Hr).
    rewrite Forall_forall in Hshape. destruct (Hshape r Hr) as (_ & _ & Hk).
    constructor; [|constructor]. cbn [snd]. intros m [= <-].
    eapply Forall_impl; [exact Hk|]. intros kv (_ & _ & H). exact H. }
  destruct (asMap (oget EmptyString results)) as [T|] eqn:ET; [|discriminate].
  intros Hout. unfold removeHashes in Hout.
  apply (removeHashesNode_dotFree (VMap T) "$" out); [|exact Hout].
  exact (dotFree_under _ _ _ Hres ET).
Qed.

(** The array shortcut keeps the keys of the records, periods included. *)
Lemma arrayShortcut_not_dotFree (records : list OrderedMap) :
  records <> [] ->
  Forall flatRecordShape records ->
  dotFree (arrayShortcut records) = false.
Proof.
  intros Hne Hshape. destruct records as [|r records]; [congruence|].
  inversion_clear Hshape as [|? ? (Hr & Hnd & Hk) _].
  unfold arrayShortcut. cbn [map dotFree forallb].
  rewrite (setAll_unique r Hnd). destruct r as [|[k v] r]; [congruence|].
  inversion_clear Hk as [|? ? (_ & Hd & _) _]. cbn [fst] in Hd.
  cbn [forallb fst snd]. rewrite Hd. reflexivity.
Qed.

(** ** The object of the shortcut has no key twice *)

Lemma okeys_cons {V} (k : string) (v : V) (o : list (string * V)) :
  okeys ((k, v) :: o) = k :: okeys o.
Proof. reflexivity. Qed.

Lemma oset_cons {V} (k k1 : string) (v w : V) (o : list (string * V)) :
  oset k v ((k1, w) :: o)
  = if String.eqb k1 k then (k1, v) :: o else (k1, w) :: oset k v o.
Proof. reflexivity. Qed.

Lemma existsb_okeys_oset {V} (k0 k : string) (v : V) (o : list (string * V)) :
  existsb (String.eqb k0) (okeys (oset k v o))
  = existsb (String.eqb k0) (okeys o) || String.eqb k0 k.
Proof.
  induction o as [|[k1 w] o IH].
  - cbn. apply orb_comm.
  - rewrite oset_cons.
    destruct (String.eqb_spec k1 k) as [->|Hne]; rewrite !okeys_cons;
      cbn [existsb].
    + destruct (String.eqb k0 k); [reflexivity|]. cbn [orb].
      rewrite orb_false_r. reflexivity.
    + rewrite IH, orb_assoc. reflexivity.
Qed.

Lemma nodupb_oset {V} (k : string) (v : V) (o : list (string * V)) :
  nodupb (okeys o) = true -> nodupb (okeys (oset k v o)) = true.
Proof.
  induction o as [|[k1 w] o IH]; [reflexivity|].
  rewrite oset_cons, okeys_cons. cbn [nodupb].
  intros H. apply andb_prop in H as [Hk Ho].
  destruct (String.eqb_spec k1 k) as [->|Hne]; rewrite okeys_cons;
    cbn [nodupb].
  - rewrite Hk, Ho. reflexivity.
  - rewrite existsb_okeys_oset.
    apply negb_true_iff in Hk. rewrite Hk.
    rewrite (proj2 (String.eqb_neq k1 k) Hne). cbn [orb negb andb].
    apply IH. exact Ho.
Qed.

Lemma uniqueKeys_oset (k : string) (v : value) (o : OrderedMap) :
  uniqueKeys (VMap o) = true ->
  uniqueKeys v = true ->
  uniqueKeys (VMap (oset k v o)) = true.
Proof.
  unfold uniqueKeys. cbn [allNodes]. intros Ho Hv.
  apply andb_prop in Ho as [H1 H2].
  rewrite (nodupb_oset k v o H1). cbn [andb].
  apply forallb_oset; [exact H2|exact Hv].
Qed.

Lemma uniqueKeys_under (p : string) (T : OrderedMap) :
  uniqueKeys (VMap T) = true ->
  uniqueKeys (VMap match asMap (oget p T) with
                   | Some m => m
                   | None => []
                   end) = true.
Proof.
  intros HT. destruct (oget p T) as [[s|m|l]|] eqn:E; try reflexivity.
  cbn [asMap]. unfold uniqueKeys in *. cbn [allNodes] in HT.
  apply andb_prop in HT as [_ HT].
  exact (forallb_oget _ _ _ _ HT E).
Qed.

Lemma uniqueKeys_ensureMap (p : string) (T : OrderedMap) :
  uniqueKeys (VMap T) = true -> uniqueKeys (VMap (ensureMap p T)) = true.
Proof.
  intros HT. unfold ensureMap. destruct (oget p T); [exact HT|].
  apply uniqueKeys_oset; [exact HT|reflexivity].
Qed.

Lemma setAtPathLenient_unique (parts : list string) (v : value) :
  uniqueKeys v = true ->
  forall T,
    uniqueKeys (VMap T) = true ->
    uniqueKeys (VMap (setAtPathLenient parts v T)) = true.
Proof.
  intros Hv. induction parts as [|p parts IH]; intros T HT; [exact HT|].
  destruct parts as [|q parts].
  - cbn [setAtPathLenient]. apply uniqueKeys_oset; assumption.
  - rewrite setAtPathLenient_step.
    apply uniqueKeys_oset; [apply uniqueKeys_ensureMap; exact HT|].
    apply IH. apply uniqueKeys_under. apply uniqueKeys_ensureMap. exact HT.
Qed.

Lemma objectShortcut_unique (record : OrderedMap) :
  Forall (fun kv => uniqueKeys (snd kv) = true) record ->
  uniqueKeys (VMap (objectShortcut record)) = true.
Proof.
  unfold objectShortcut. assert (H0 : uniqueKeys (VMap []) = true) by reflexivity.
  revert H0. generalize (@nil (string * value)).
  intros T HT H. revert T HT.
  induction H as [|[k v] record Hv _ IH]; intros T HT; [exact HT|].
  cbn [fold_left]. apply IH. unfold objectKey. cbn [fst snd].
  destruct (contains _ ".").
  - apply setAtPathLenient_unique; assumption.
  - apply uniqueKeys_oset; assumption.
Qed.

(** ** The shortcuts of the later PathQuery against the pipeline *)

(** C6, as stated, fails on both counts.  Under the object-shaped paths
    $.a.x and $.b the object shortcut lists a before b and the pipeline b
    before a.  Under the path $a.b, without array marker, the array
    shortcut returns the two records as flat mappings and the pipeline
    fails on a nil tree. *)
Lemma shortcuts_differ_from_pipeline :
  (isObjectResult ["$.a.x"; "$.b"] = true
   /\ map recordKey ["$.a.x"; "$.b"] = okeys nestedBeforeLeafRecord
   /\ reconstruct sampleMarshal sampleMd5 insertionOrder ["$.a.x"; "$.b"]
        [nestedBeforeLeafRecord]
      = Ok (VMap [("a", VMap [("x", VScalar (SInt 1))]);
                  ("b", VScalar (SInt 2))])
   /\ fullPipelineChecked sampleMarshal sampleMd5 insertionOrder
        [nestedBeforeLeafRecord]
      = Ok (VMap [("b", VScalar (SInt 2));
                  ("a", VMap [("x", VScalar (SInt 1))])]))
  /\ (hasArrayMarkers ["$a.b"] = false
      /\ reconstruct sampleMarshal sampleMd5 insertionOrder ["$a.b"]
           unrootedRecords
         = Ok (VSeq [VMap [("a.b", VScalar (SInt 1))];
                     VMap [("a.b", VScalar (SInt 2))]])
      /\ fullPipelineChecked sampleMarshal sampleMd5 insertionOrder
           unrootedRecords
         = Err "combineIntoTree returned nil tree").
Proof. repeat split; vm_compute; reflexivity. Qed.

(** With several records the object shortcut reads the first one only; the
    pipeline merges them and the last one wins. *)
Example object_shortcut_first_record :
  reconstruct sampleMarshal sampleMd5 insertionOrder ["$.a"]
    [[(".a", VScalar (SInt 1))]; [(".a", VScalar (SInt 2))]]
  = Ok (VMap [("a", VScalar (SInt 1))])
  /\ fullPipelineChecked sampleMarshal sampleMd5 insertionOrder
       [[(".a", VScalar (SInt 1))]; [(".a", VScalar (SInt 2))]]
     = Ok (VMap [("a", VScalar (SInt 2))]).
Proof. split; vm_compute; reflexivity. Qed.

(** C6, amended.  (1) Under object-shaped paths and over a single record
    the object shortcut returns the nested object built from the record;
    the full pipeline on that record panics (a path nests under the cell
    of an earlier path) or returns that object resolved by [removeHashes],
    which, when the object has no fingerprint token and no nested map
    under the empty key, is the object with the leaves moved before the
    nested maps at every node.  (2) Under paths without array marker that
    are not all object-shaped the array shortcut returns every record as
    a flat mapping of its own, keyed as the record is; the full pipeline
    never returns that value on a non-empty list of records. *)
Theorem shortcuts_versus_pipeline jsonMarshal md5Sum rangeOrder :
  (forall l : list string, rangeOrder l ≡ₚ l) ->
  (forall paths record,
      isObjectResult paths = true ->
      record <> [] ->
      NoDup (okeys record) ->
      Forall objectKeyShape record ->
      reconstruct jsonMarshal md5Sum rangeOrder paths [record]
      = Ok (VMap (objectShortcut record))
      /\ (fullPipelineChecked jsonMarshal md5Sum rangeOrder [record] = Panic
          \/ fullPipelineChecked jsonMarshal md5Sum rangeOrder [record]
             = removeHashes (objectShortcut record) "$")
      /\ (noHashKeys (VMap (objectShortcut record)) = true ->
          hasEmptyMapKey (VMap (objectShortcut record)) = false ->
          removeHashes (objectShortcut record) "$"
          = Ok (leavesFirstOrder (VMap (objectShortcut record)))))
  /\ (forall paths records,
        hasArrayMarkers paths = false ->
        isObjectResult paths = false ->
        records <> [] ->
        Forall flatRecordShape records ->
        reconstruct jsonMarshal md5Sum rangeOrder paths records
        = Ok (arrayShortcut records)
        /\ fullPipelineChecked jsonMarshal md5Sum rangeOrder records
           <> Ok (arrayShortcut records)).
Proof.
  intros Hperm. split.
  - intros paths record Hobj Hne Hnd Hshape. split; [|split].
    + unfold reconstruct. rewrite Hobj. reflexivity.
    + apply fullPipelineChecked_one_object; assumption.
    + intros Hnh Hek.
      apply (removeHashes_no_tokens (objectShortcut record) "$");
        [|exact Hnh|exact Hek].
      apply objectShortcut_unique. eapply Forall_impl; [exact Hshape|].
      intros [k v] (_ & _ & Hv). cbn [snd] in *.
      destruct v; try reflexivity. discriminate.
  - intros paths records Hm Hobj Hne Hshape. split.
    + unfold reconstruct. rewrite Hobj, Hm. reflexivity.
    + intros E.
      pose proof (fullPipelineChecked_dotFree _ _ _ records _ Hperm Hshape E)
        as Hd.
      rewrite (arrayShortcut_not_dotFree records Hne Hshape) in Hd.
      discriminate.
Qed.

Lemma shortcuts_versus_pipeline_witness :
  fullPipelineChecked sampleMarshal sampleMd5 insertionOrder
    [nestedBeforeLeafRecord]
  = Ok (VMap [("b", VScalar (SInt 2));
              ("a", VMap [("x", VScalar (SInt 1))])])
  /\ fullPipelineChecked sampleMarshal sampleMd5 insertionOrder
       unrootedRecords
     <> Ok (arrayShortcut unrootedRecords).
Proof.
  destruct (shortcuts_versus_pipeline sampleMarshal sampleMd5 insertionOrder)
    as [Hone Hmany]; [intros l; reflexivity|].
  split.
  - assert (Hnd : NoDup (okeys nestedBeforeLeafRecord)).
    { apply nodupb_NoDup. reflexivity. }
    assert (Hshape : Forall objectKeyShape nestedBeforeLeafRecord).
    { repeat constructor. }
    assert (Hne : nestedBeforeLeafRecord <> []) by discriminate.
    destruct (Hone ["$.a.x"; "$.b"] nestedBeforeLeafRecord eq_refl Hne Hnd
                Hshape) as (_ & [Hp|Hp] & Hres).
    + vm_compute in Hp. discriminate.
    + etransitivity; [exact Hp|]. rewrite Hres by reflexivity. reflexivity.
  - apply (Hmany ["$a.b"] unrootedRecords).
    + reflexivity.
    + reflexivity.
    + discriminate.
    + assert (Hflat : forall i : Z,
                 flatRecordShape [("a.b", VScalar (SInt i))]).
      { intros i. split; [discriminate|]. split.
        - apply nodupb_NoDup. reflexivity.
        - constructor; [|constructor]. repeat split. }
      constructor; [apply Hflat|]. constructor; [apply Hflat|constructor].
Defined.

(** ** AnalyzeQuery *)

Section AnalyserFacts.
Variable toUpper : string -> string.
Variable trimSpace : string -> string.
Variable hintMatches : string -> list (string * string).
Variable removeComments : string -> string.
Variable fromMatch : string -> option string.
Variable spaceSplit : string -> list string.
Variable joinMatches : string -> list (string * string * string * string).
Variable parseJoinCondition : string -> list JoinColumn.
Variable rangeTables : gmap string string -> list (string * string).

Lemma indexFrom_bound (s sub : string) :
    forall i j, indexFrom s sub i = Some j -> j <= i + String.length s.
  Proof using Type.
    induction s as [|c s IH]; intros i j; cbn [indexFrom].
    - destruct (hasPrefix EmptyString sub); [|discriminate].
      intros [= <-]. lia.
    - destruct (hasPrefix (String c s) sub).
      + intros [= <-]. lia.
      + intros H. apply IH in H. cbn [String.length]. lia.
  Qed.

Lemma trimAtStopWord_not_err (words : list string) (condition msg : string) :
    trimAtStopWord toUpper trimSpace words condition <> Err msg.
  Proof using Type.
    induction words as [|w words IH]; cbn [trimAtStopWord]; [discriminate|].
    destruct (index (toUpper condition) w) as [idx|]; [|exact IH].
    unfold sliceTo. destruct (idx <=? String.length condition)%nat;
      discriminate.
  Qed.

Lemma trimAtStopWord_ok (words : list string) (condition : string) :
    String.length (toUpper condition) = String.length condition ->
    exists c, trimAtStopWord toUpper trimSpace words condition = Ok c.
  Proof using Type.
    intros Hlen. induction words as [|w words IH]; cbn [trimAtStopWord];
      [eauto|].
    destruct (index (toUpper condition) w) as [idx|] eqn:E; [|exact IH].
    apply indexFrom_bound in E. unfold sliceTo.
    rewrite (proj2 (Nat.leb_le _ _)) by lia. cbn [bind]. eauto.
  Qed.

Lemma joinStep_cases (analysis : QueryAnalysis)
      (m : string * string * string * string) :
    (exists analysis',
        joinStep toUpper trimSpace parseJoinCondition rangeTables analysis m
        = Ok analysis')
    \/ joinStep toUpper trimSpace parseJoinCondition rangeTables analysis m
       = Panic.
  Proof using Type.
    destruct m as [[[kind tableName] aliasMatch] conditionMatch].
    unfold joinStep.
    destruct (trimAtStopWord toUpper trimSpace stopWords
                (trimSpace conditionMatch)) as [c|msg|] eqn:E.
    - left. cbn [bind].
      destruct (match parseJoinCondition c with
                | [] => _
                | jc :: _ => _
                end) as [la lt]. eauto.
    - exfalso. exact (trimAtStopWord_not_err _ _ _ E).
    - right. reflexivity.
  Qed.

Lemma joinLoop_cases (ms : list (string * string * string * string)) :
    forall analysis,
      (exists analysis',
          joinLoop toUpper trimSpace parseJoinCondition rangeTables analysis ms
          = Ok analysis')
      \/ joinLoop toUpper trimSpace parseJoinCondition rangeTables analysis ms
         = Panic.
  Proof using Type.
    induction ms as [|m ms IH]; intros analysis; cbn [joinLoop]; [eauto|].
    destruct (joinStep_cases analysis m) as [[a' ->]| ->]; cbn [bind];
      [apply IH|right; reflexivity].
  Qed.

  (** The analyser has no error to return: it returns an analysis with a
      nil error, unless it panics. *)
Lemma AnalyzeQuery_cases (sql : string) :
    (exists analysis,
        AnalyzeQuery toUpper trimSpace hintMatches removeComments fromMatch
          spaceSplit joinMatches parseJoinCondition rangeTables sql
        = Ok (analysis, None))
    \/ AnalyzeQuery toUpper trimSpace hintMatches removeComments fromMatch
         spaceSplit joinMatches parseJoinCondition rangeTables sql
       = Panic.
  Proof using Type.
    unfold AnalyzeQuery, extractJoins.
    destruct (joinLoop_cases (joinMatches (removeComments sql))
                (mkQueryAnalysis
                   (extractFromClause toUpper trimSpace removeComments
                      fromMatch spaceSplit sql ∅) []
                   (extractPathHints hintMatches sql)))
      as [[a' ->]| ->]; cbn [bind]; eauto.
  Qed.

Lemma joinLoop_ok (ms : list (string * string * string * string)) :
    (forall s, String.length (toUpper s) = String.length s) ->
    forall analysis,
      exists analysis',
        joinLoop toUpper trimSpace parseJoinCondition rangeTables analysis ms
        = Ok analysis'.
  Proof using Type.
    intros Hlen. induction ms as [|m ms IH]; intros analysis;
      cbn [joinLoop]; [eauto|].
    destruct m as [[[kind tableName] aliasMatch] conditionMatch].
    unfold joinStep.
    destruct (trimAtStopWord_ok stopWords (trimSpace conditionMatch)
                (Hlen _)) as [c ->].
    cbn [bind].
    destruct (match parseJoinCondition c with
              | [] => _
              | jc :: _ => _
              end) as [la lt].
    cbn [bind]. apply IH.
  Qed.

  (** Where upper-casing keeps the length of every text, as it does on
      ASCII, the analyser returns an analysis and a nil error. *)
Lemma AnalyzeQuery_ok (sql : string) :
    (forall s, String.length (toUpper s) = String.length s) ->
    exists analysis,
      AnalyzeQuery toUpper trimSpace hintMatches removeComments fromMatch
        spaceSplit joinMatches parseJoinCondition rangeTables sql
      = Ok (analysis, None).
  Proof using Type.
    intros Hlen. unfold AnalyzeQuery, extractJoins.
    destruct (joinLoop_ok (joinMatches (removeComments sql)) Hlen
                (mkQueryAnalysis
                   (extractFromClause toUpper trimSpace removeComments
                      fromMatch spaceSplit sql ∅) []
                   (extractPathHints hintMatches sql))) as [a' ->].
    cbn [bind]. eauto.
  Qed.

  (** C5 at a query whose JOIN expression matches with the condition
      [growingCondition] (six letters U+0250, a space and WHERE): the
      upper-case copy is six bytes longer, WHERE is found in it at index
      19, the condition has 18 bytes, and the slice up to 19 is out of
      range. *)
Theorem AnalyzeQuery_panics (sql kind table alias : string) :
    joinMatches (removeComments sql)
    = [(kind, table, alias, growingCondition)] ->
    trimSpace growingCondition = growingCondition ->
    toUpper growingCondition = growingConditionUpper ->
    AnalyzeQuery toUpper trimSpace hintMatches removeComments fromMatch
      spaceSplit joinMatches parseJoinCondition rangeTables sql
    = Panic.
  Proof using Type.
    intros Hm Ht Hu. unfold AnalyzeQuery, extractJoins. rewrite Hm.
    cbn [joinLoop joinStep]. rewrite Ht. cbn [stopWords trimAtStopWord].
    rewrite Hu. reflexivity.
  Qed.
End AnalyserFacts.

Lemma AnalyzeQuery_panics_witness :
  AnalyzeQuery
    (fun s => if String.eqb s growingCondition then growingConditionUpper
              else s)
    (fun s => s) (fun _ => []) (fun s => s) (fun _ => None) (fun s => [s])
    (fun _ => [(EmptyString, "u", EmptyString, growingCondition)])
    (fun _ => []) map_to_list
    ("SELECT 1 FROM t JOIN u ON " +:+ growingCondition)
  = Panic.
Proof.
  apply (AnalyzeQuery_panics _ _ _ _ _ _ _ _ _ _ EmptyString "u" EmptyString);
    reflexivity.
Defined.

(** * Further code: proofs *)

(** ** splitSelectColumns *)





Lemma fold_left_snoc {A B} (f : A -> B -> A) (l : list B) (x : B) (a : A) :
  fold_left f (l ++ [x]) a = f (fold_left f l a) x.
Proof. rewrite fold_left_app. reflexivity. Qed.

(** The loop keeps its pieces uncut. *)
Lemma splitRune_uncut (s : list rune) (st : splitter) :
  Forall uncut (sp_result st) ->
  fold_left splitRune (sp_current st) splitStart
  = mkSplitter [] (sp_current st) (sp_depth st) ->
  let st' := fold_left splitRune s st in
  Forall uncut (sp_result st')
  /\ fold_left splitRune (sp_current st') splitStart
     = mkSplitter [] (sp_current st') (sp_depth st').
Proof.
  revert st. induction s as [|ch s IH]; intros st Hres Hcur;
    cbn [fold_left]; [split; assumption|].
  remember (splitRune st ch) as st1 eqn:E. unfold splitRune in E.
  apply IH; clear IH.
  - destruct (ch =? runeOf "(")%Z; [subst st1; exact Hres|].
    destruct (ch =? runeOf ")")%Z; [subst st1; exact Hres|].
    destruct (ch =? runeOf ",")%Z; [|subst st1; exact Hres].
    destruct (sp_depth st =? 0)%Z; [|subst st1; exact Hres].
    subst st1. cbn [sp_result]. apply Forall_app. split; [exact Hres|].
    constructor; [|constructor]. eexists. exact Hcur.
  - destruct (ch =? runeOf "(")%Z eqn:E1.
    { subst st1. cbn [sp_current sp_depth]. rewrite fold_left_snoc, Hcur.
      unfold splitRune. rewrite E1. reflexivity. }
    destruct (ch =? runeOf ")")%Z eqn:E2.
    { subst st1. cbn [sp_current sp_depth]. rewrite fold_left_snoc, Hcur.
      unfold splitRune. rewrite E1, E2. reflexivity. }
    destruct (ch =? runeOf ",")%Z eqn:E3.
    + destruct (sp_depth st =? 0)%Z eqn:E4; subst st1.
      * cbn [sp_current sp_depth]. apply Z.eqb_eq in E4. rewrite E4.
        reflexivity.
      * cbn [sp_current sp_depth]. rewrite fold_left_snoc, Hcur.
        unfold splitRune. rewrite E1, E2, E3. cbn [sp_depth]. rewrite E4.
        reflexivity.
    + subst st1. cbn [sp_current sp_depth]. rewrite fold_left_snoc, Hcur.
      unfold splitRune. rewrite E1, E2, E3. reflexivity.
Qed.

(** X2.  Every piece is a whole: split again, it comes back as it is (a
    piece can be empty between two top-level commas; the empty clause has
    no piece). *)
Theorem splitSelectColumns_pieces_whole (selectClause piece : list rune) :
  In piece (splitSelectColumns selectClause) ->
  splitSelectColumns piece = if decide (piece = []) then [] else [piece].
Proof.
  intros Hin.
  assert (Hun : uncut piece).
  { destruct (splitRune_uncut selectClause splitStart) as [Hres Hcur];
      [constructor|reflexivity|].
    cbn zeta in *. unfold splitSelectColumns in Hin. fold splitStart in Hin.
    destruct (fold_left splitRune selectClause splitStart)
      as [result current depth].
    cbn [sp_result sp_current sp_depth] in *.
    assert (Hall : Forall uncut (result ++ [current])).
    { apply Forall_app. split; [exact Hres|]. constructor; [|constructor].
      eexists. exact Hcur. }
    rewrite Forall_forall in Hall. apply Hall. apply list_elem_of_In.
    destruct (0 <? length current)%nat; [exact Hin|].
    apply in_or_app. left. exact Hin. }
  destruct Hun as [depth Hun]. unfold splitSelectColumns. fold splitStart.
  rewrite Hun. cbn [sp_result sp_current app].
  destruct piece as [|c piece]; reflexivity.
Qed.

Lemma splitRune_plain (st : splitter) (ch : rune) :
  noParen ch -> ch <> runeOf "," ->
  splitRune st ch
  = mkSplitter (sp_result st) (sp_current st ++ [ch]) (sp_depth st).
Proof.
  intros [H1 H2] H3. unfold splitRune.
  rewrite (proj2 (Z.eqb_neq _ _) H1), (proj2 (Z.eqb_neq _ _) H2),
    (proj2 (Z.eqb_neq _ _) H3).
  reflexivity.
Qed.

Lemma splitRune_comma (st : splitter) :
  splitRune st (runeOf ",")
  = if (sp_depth st =? 0)%Z
    then mkSplitter (sp_result st ++ [sp_current st]) [] (sp_depth st)
    else mkSplitter (sp_result st) (sp_current st ++ [runeOf ","])
           (sp_depth st).
Proof. reflexivity. Qed.

(** Inside parentheses, or after one closing parenthesis too many, a
    stretch without parentheses is written to the piece as it is. *)
Lemma splitRune_inside (s : list rune) (result : list (list rune))
    (current : list rune) (depth : Z) :
  Forall noParen s -> depth <> 0%Z ->
  fold_left splitRune s (mkSplitter result current depth)
  = mkSplitter result (current ++ s) depth.
Proof.
  intros Hs Hd. revert current.
  induction Hs as [|ch s Hch Hs IH]; intros current; cbn [fold_left].
  - rewrite app_nil_r. reflexivity.
  - destruct (decide (ch = runeOf ",")) as [->|Hc].
    + rewrite splitRune_comma. cbn [sp_depth sp_result sp_current].
      rewrite (proj2 (Z.eqb_neq _ _) Hd), IH, <- app_assoc. reflexivity.
    + rewrite (splitRune_plain _ ch Hch Hc).
      cbn [sp_depth sp_result sp_current].
      rewrite IH, <- app_assoc. reflexivity.
Qed.

(** At the top level, a stretch without parentheses and commas is written
    to the piece as it is. *)
Lemma splitRune_word (s : list rune) (result : list (list rune))
    (current : list rune) (depth : Z) :
  Forall (fun ch => noParen ch /\ ch <> runeOf ",") s ->
  fold_left splitRune s (mkSplitter result current depth)
  = mkSplitter result (current ++ s) depth.
Proof.
  intros Hs. revert current.
  induction Hs as [|ch s [Hch Hc] Hs IH]; intros current; cbn [fold_left].
  - rewrite app_nil_r. reflexivity.
  - rewrite (splitRune_plain _ ch Hch Hc).
    cbn [sp_depth sp_result sp_current].
    rewrite IH, <- app_assoc. reflexivity.
Qed.



(** X3.  A call with its arguments stays in one piece: the commas between
    the parentheses do not cut. *)
Theorem splitSelectColumns_call (name args : list rune) :
  Forall (fun ch => noParen ch /\ ch <> runeOf ",") name ->
  Forall noParen args ->
  splitSelectColumns (name ++ runeOf "(" :: args ++ [runeOf ")"])
  = [name ++ runeOf "(" :: args ++ [runeOf ")"]].
Proof.
  intros Hname Hargs. unfold splitSelectColumns.
  rewrite fold_left_app, (splitRune_word name _ _ _ Hname).
  cbn [fold_left app].
  change (splitRune (mkSplitter [] name 0) (runeOf "("))
    with (mkSplitter [] (name ++ [runeOf "("]) 1).
  rewrite fold_left_app, (splitRune_inside args _ _ 1%Z Hargs) by lia.
  cbn [fold_left].
  change (splitRune (mkSplitter [] ((name ++ [runeOf "("]) ++ args) 1)
            (runeOf ")"))
    with (mkSplitter [] (((name ++ [runeOf "("]) ++ args) ++ [runeOf ")"]) 0).
  cbn [sp_current sp_result app].
  rewrite <- !app_assoc. cbn [app].
  rewrite length_app. cbn [length].
  replace (0 <? length name + S (length (args ++ [runeOf ")"])))%nat
    with true by (symmetry; apply Nat.ltb_lt; lia).
  reflexivity.
Qed.


(** Without parentheses the loop stays at the top level and no piece
    holds a comma. *)
Lemma splitRune_flat (s : list rune) (st : splitter) :
  Forall noParen s ->
  sp_depth st = 0%Z ->
  Forall (fun p => ~ In (runeOf ",") p) (sp_result st ++ [sp_current st]) ->
  let st' := fold_left splitRune s st in
  Forall (fun p => ~ In (runeOf ",") p) (sp_result st' ++ [sp_current st']).
Proof.
  intros Hs. revert st.
  induction Hs as [|ch s Hch Hs IH]; intros st Hd Hall; cbn [fold_left];
    [exact Hall|].
  apply Forall_app in Hall as [Hres Hcur].
  apply (proj1 (Forall_singleton _ _)) in Hcur.
  destruct (decide (ch = runeOf ",")) as [->|Hc].
  - rewrite splitRune_comma, Hd. cbn [Z.eqb]. apply IH; [reflexivity|].
    cbn [sp_result sp_current]. apply Forall_app. split.
    + apply Forall_app. split; [exact Hres|].
      apply Forall_singleton. exact Hcur.
    + apply Forall_singleton. intros [].
  - rewrite (splitRune_plain _ ch Hch Hc). apply IH; [exact Hd|].
    cbn [sp_result sp_current]. apply Forall_app. split; [exact Hres|].
    apply Forall_singleton. intros Hin. apply in_app_or in Hin as [Hin|Hin].
    + exact (Hcur Hin).
    + destruct Hin as [E|[]]. apply Hc. exact E.
Qed.

(** X5.  Without parentheses the clause is cut at every comma: no piece
    holds one. *)
Theorem splitSelectColumns_no_parentheses (selectClause : list rune) :
  Forall noParen selectClause ->
  Forall (fun piece => ~ In (runeOf ",") piece)
    (splitSelectColumns selectClause).
Proof.
  intros Hs.
  pose proof (splitRune_flat selectClause splitStart Hs eq_refl) as H.
  cbn zeta in H. unfold splitSelectColumns. fold splitStart.
  destruct (fold_left splitRune selectClause splitStart)
    as [result current depth].
  cbn [sp_result sp_current] in *.
  assert (Hall : Forall (fun p => ~ In (runeOf ",") p) (result ++ [current])).
  { apply H. cbn. apply Forall_singleton. intros []. }
  destruct (0 <? length current)%nat; [exact Hall|].
  apply Forall_app in Hall as [Hres _]. exact Hres.
Qed.

(** Instances of the four statements above. *)
Ltac rune_facts :=
  repeat first
    [ apply List.Forall_nil
    | apply List.Forall_cons
    | split
    | (let E := fresh in intros E; vm_compute in E; discriminate E) ].

Lemma splitSelectColumns_pieces_whole_witness :
  In (runesOf "f(b,c)") (splitSelectColumns (runesOf "a,f(b,c)"))
  /\ splitSelectColumns (runesOf "f(b,c)") = [runesOf "f(b,c)"].
Proof.
  assert (H : In (runesOf "f(b,c)") (splitSelectColumns (runesOf "a,f(b,c)")))
    by (right; left; reflexivity).
  split; [exact H|].
  exact (splitSelectColumns_pieces_whole _ _ H).
Defined.

Lemma splitSelectColumns_call_witness :
  splitSelectColumns (runesOf "concat(a,b)") = [runesOf "concat(a,b)"].
Proof.
  apply (splitSelectColumns_call (runesOf "concat") (runesOf "a,b"));
    unfold runesOf; cbn [list_ascii_of_string map]; rune_facts.
Defined.


Lemma splitSelectColumns_no_parentheses_witness :
  Forall (fun piece => ~ In (runeOf ",") piece)
    (splitSelectColumns (runesOf "a,b,,c,")).
Proof.
  apply splitSelectColumns_no_parentheses.
  unfold runesOf; cbn [list_ascii_of_string map]; rune_facts.
Defined.

(** ** Split and join *)

Lemma hasPrefix_split (s pre : string) :
  hasPrefix s pre = true -> s = pre +:+ dropStr (String.length pre) s.
Proof.
  revert s. induction pre as [|c pre IH]; intros s H;
    [destruct s; reflexivity|].
  destruct s as [|d s]; [discriminate|]. cbn [hasPrefix] in H.
  apply andb_prop in H as [Hc Hp]. apply Ascii.eqb_eq in Hc. subst d.
  cbn [String.length dropStr]. rewrite append_cons. f_equal. apply IH, Hp.
Qed.

Lemma hasPrefix_length (s pre : string) :
  hasPrefix s pre = true -> (String.length pre <= String.length s)%nat.
Proof.
  revert s. induction pre as [|c pre IH]; intros s H; [cbn; lia|].
  destruct s as [|d s]; [discriminate|]. cbn [hasPrefix] in H.
  apply andb_prop in H as [_ Hp]. cbn [String.length]. apply IH in Hp. lia.
Qed.

Lemma join_cons (p : string) (parts : list string) (sep : string) :
  parts <> [] -> join (p :: parts) sep = p +:+ sep +:+ join parts sep.
Proof. destruct parts; [congruence|reflexivity]. Qed.

(** [strings.Join] undoes [strings.Split]. *)
Lemma join_splitFrom (sep s : string) (skip : nat) (cur : string) :
  sep <> EmptyString -> (skip <= String.length s)%nat ->
  join (splitFrom sep s skip cur) sep = cur +:+ dropStr skip s.
Proof.
  intros Hsep. revert skip cur.
  induction s as [|c s IH]; intros skip cur Hk.
  - cbn [String.length] in Hk. replace skip with 0%nat by lia.
    cbn [splitFrom join dropStr]. rewrite app_str_nil_r. reflexivity.
  - cbn [splitFrom]. destruct skip as [|n].
    + cbn [dropStr]. destruct (hasPrefix (String c s) sep) eqn:E.
      * rewrite join_cons by apply splitFrom_nonempty.
        pose proof (hasPrefix_length _ _ E) as Hl.
        pose proof (hasPrefix_split _ _ E) as Hs.
        destruct sep as [|d sep]; [congruence|].
        cbn [String.length] in *.
        replace (S (String.length sep) - 1)%nat with (String.length sep)
          by lia.
        rewrite IH by lia. cbn [dropStr] in Hs. rewrite append_nil_l.
        rewrite <- Hs. reflexivity.
      * rewrite IH by lia. cbn [dropStr]. rewrite app_str_assoc.
        reflexivity.
    + cbn [dropStr]. apply IH. cbn [String.length] in Hk. lia.
Qed.

Lemma join_split (s sep : string) :
  sep <> EmptyString -> join (split s sep) sep = s.
Proof.
  intros Hsep. unfold split. rewrite join_splitFrom by (assumption || lia).
  reflexivity.
Qed.

(** The last piece of a text that ends with a period and a word. *)
Lemma splitFrom_app_last (x w cur : string) :
  contains w "." = false ->
  splitFrom "." (x +:+ "." +:+ w) 0 cur = splitFrom "." x 0 cur ++ [w].
Proof.
  intros Hw. revert cur. induction x as [|c x IH]; intros cur.
  - rewrite append_nil_l. change ("." +:+ w) with (String "." w).
    cbn [splitFrom hasPrefix]. rewrite hasPrefix_empty. cbn.
    rewrite (splitFrom_no_sep "." w EmptyString Hw). reflexivity.
  - rewrite append_cons. cbn [splitFrom].
    assert (Hp : hasPrefix (String c (x +:+ "." +:+ w)) "."
                 = hasPrefix (String c x) ".").
    { cbn [hasPrefix]. rewrite !hasPrefix_empty. reflexivity. }
    rewrite Hp. destruct (hasPrefix (String c x) ".").
    + cbn [String.length Nat.sub]. rewrite IH. reflexivity.
    + apply IH.
Qed.

Lemma split_app_last (x w : string) :
  contains w "." = false ->
  split (x +:+ "." +:+ w) "." = split x "." ++ [w].
Proof. intros Hw. apply splitFrom_app_last, Hw. Qed.

(** ** ValidatePaths *)

Lemma length_append (a b : string) :
  String.length (a +:+ b) = (String.length a + String.length b)%nat.
Proof.
  induction a as [|c a IH]; [reflexivity|].
  rewrite append_cons. cbn [String.length]. rewrite IH. reflexivity.
Qed.

Lemma hasPrefix_refl (s : string) : hasPrefix s s = true.
Proof.
  induction s as [|c s IH]; [reflexivity|].
  cbn [hasPrefix]. rewrite Ascii.eqb_refl. exact IH.
Qed.

Lemma hasPrefix_app (s t : string) : hasPrefix (s +:+ t) s = true.
Proof.
  induction s as [|c s IH]; [apply hasPrefix_empty|].
  rewrite append_cons. cbn [hasPrefix]. rewrite Ascii.eqb_refl. exact IH.
Qed.

Lemma contains_prefix (s sub : string) :
  hasPrefix s sub = true -> contains s sub = true.
Proof. intros H. destruct s; cbn [contains]; rewrite H; reflexivity. Qed.

Lemma contains_app_r (a sub : string) : contains (a +:+ sub) sub = true.
Proof.
  induction a as [|c a IH].
  - rewrite append_nil_l. apply contains_prefix, hasPrefix_refl.
  - rewrite append_cons. cbn [contains]. rewrite IH. apply orb_true_r.
Qed.

Lemma validateLoop_no_markers (paths : list string) (pathMap : gset string) :
  Forall (fun path => contains path "[]" = false) paths ->
  (forall q, q ∈ pathMap -> contains q "[]" = false) ->
  validateLoop paths pathMap = None.
Proof.
  intros Hp. revert pathMap.
  induction Hp as [|path paths Hpath Hp IH]; intros pathMap Hmap;
    [reflexivity|].
  cbn [validateLoop]. destruct (1 <? length (split path "."))%nat;
    [|apply IH; exact Hmap].
  rewrite Hpath, andb_false_r. cbn [negb].
  rewrite bool_decide_eq_false_2.
  - cbn [andb]. apply IH. intros q Hq.
    apply elem_of_union in Hq as [Hq|Hq]; [|exact (Hmap q Hq)].
    apply elem_of_singleton in Hq. subst q. exact Hpath.
  - intros Hin. apply Hmap in Hin. rewrite contains_app_r in Hin.
    discriminate Hin.
Qed.

(** X13.  Paths without an array marker never conflict, in whatever order
    the map yields them. *)
Theorem ValidatePaths_no_markers (paths : list string) :
  Forall (fun path => contains path "[]" = false) paths ->
  ValidatePaths paths = None.
Proof.
  intros Hp. apply validateLoop_no_markers; [exact Hp|].
  intros q Hq. exfalso. exact (not_elem_of_empty q Hq).
Qed.

Lemma append_longer (s t : string) : t <> EmptyString -> s <> s +:+ t.
Proof.
  intros Ht E. apply (f_equal String.length) in E.
  rewrite length_append in E. destruct t; [congruence|].
  cbn [String.length] in E. lia.
Qed.

Lemma initParts_snoc (parts : list string) (w : string) :
  initParts (parts ++ [w]) = parts.
Proof. unfold initParts. apply removelast_last. Qed.

Lemma split_length (s sep : string) : (0 < length (split s sep))%nat.
Proof.
  pose proof (splitFrom_nonempty sep s 0 EmptyString) as H. unfold split.
  destruct (splitFrom sep s 0 EmptyString); [congruence|cbn; lia].
Qed.

(** The round of the loop for a path that ends with a period and a word
    without one. *)
Lemma validateLoop_step (x w : string) (paths : list string)
    (pathMap : gset string) :
  contains w "." = false ->
  validateLoop ((x +:+ "." +:+ w) :: paths) pathMap
  = if bool_decide (x ∈ pathMap) && contains (x +:+ "." +:+ w) "[]"
    then Some (conflictingPaths x)
    else if bool_decide (x +:+ "[]" ∈ pathMap)
            && negb (contains (x +:+ "." +:+ w) "[]")
         then Some (conflictingPaths x)
         else validateLoop paths ({[ x +:+ "." +:+ w ]} ∪ pathMap).
Proof.
  intros Hw. cbn [validateLoop]. rewrite (split_app_last x w Hw).
  rewrite initParts_snoc, join_split by discriminate.
  rewrite length_app. cbn [length].
  replace (1 <? length (split x ".") + 1)%nat with true; [reflexivity|].
  symmetry. apply Nat.ltb_lt. pose proof (split_length x "."). lia.
Qed.

(** X14.  The verdict depends on the order in which the range yields the
    paths: a path [x.y[]] met before [x.y.z] is reported as a conflict,
    met after it is not. *)
Theorem ValidatePaths_depends_on_order (x y z : string) :
  contains y "." = false -> contains z "." = false ->
  contains ((x +:+ "." +:+ y) +:+ "." +:+ z) "[]" = false ->
  ValidatePaths [x +:+ "." +:+ y +:+ "[]"; (x +:+ "." +:+ y) +:+ "." +:+ z]
  = Some (conflictingPaths (x +:+ "." +:+ y))
  /\ ValidatePaths [(x +:+ "." +:+ y) +:+ "." +:+ z; x +:+ "." +:+ y +:+ "[]"]
     = None.
Proof.
  intros Hy Hz Hm.
  assert (Hyb : contains (y +:+ "[]") "." = false)
    by (apply (contains_app_false y "[]" EmptyString ".");
        [exact Hy|reflexivity]).
  assert (Hassoc : x +:+ "." +:+ y +:+ "[]" = (x +:+ "." +:+ y) +:+ "[]").
  { rewrite !app_str_assoc. reflexivity. }
  unfold ValidatePaths. split.
  - rewrite (validateLoop_step x (y +:+ "[]") _ _ Hyb).
    rewrite !bool_decide_eq_false_2 by apply not_elem_of_empty.
    cbn [andb]. rewrite (validateLoop_step (x +:+ "." +:+ y) z _ _ Hz).
    rewrite Hm, andb_false_r. cbn [negb]. rewrite andb_true_r.
    rewrite bool_decide_eq_true_2; [reflexivity|].
    apply elem_of_union. left. apply elem_of_singleton. symmetry.
    exact Hassoc.
  - rewrite (validateLoop_step (x +:+ "." +:+ y) z _ _ Hz).
    rewrite !bool_decide_eq_false_2 by apply not_elem_of_empty.
    cbn [andb]. rewrite (validateLoop_step x (y +:+ "[]") _ _ Hyb).
    rewrite bool_decide_eq_false_2.
    + cbn [andb]. rewrite bool_decide_eq_false_2; [reflexivity|].
      intros Hin. apply elem_of_union in Hin as [Hin|Hin];
        [|exact (not_elem_of_empty _ Hin)].
      apply elem_of_singleton in Hin.
      apply (f_equal (fun s => contains s "[]")) in Hin.
      rewrite contains_app_r, Hm in Hin. discriminate Hin.
    + intros Hin. apply elem_of_union in Hin as [Hin|Hin];
        [|exact (not_elem_of_empty _ Hin)].
      apply elem_of_singleton in Hin. revert Hin.
      rewrite !app_str_assoc. apply append_longer. discriminate.
Qed.

Lemma ValidatePaths_no_markers_witness :
  ValidatePaths ["$.posts.id"; "$.posts.title"; "$.count"] = None.
Proof.
  apply ValidatePaths_no_markers. repeat constructor.
Defined.

Lemma ValidatePaths_depends_on_order_witness :
  ValidatePaths ["$.a[]"; "$.a.b"] = Some (conflictingPaths "$.a")
  /\ ValidatePaths ["$.a.b"; "$.a[]"] = None.
Proof.
  exact (ValidatePaths_depends_on_order "$" "a" "b" eq_refl eq_refl eq_refl).
Defined.

(** ** Path inference *)

Lemma defaults_lookup (tables : gmap string string) (c : gmap string bool)
    (a : string) :
  map_fold
    (fun alias (_ : string) (c : gmap string bool) =>
       match c !! alias with
       | Some _ => c
       | None => <[alias := true]> c
       end) c tables !! a
  = match c !! a with
    | Some x => Some x
    | None => if decide (a ∈ dom tables) then Some true else None
    end.
Proof.
  refine (map_fold_weak_ind
            (fun (r : gmap string bool) (m : gmap string string) =>
               r !! a = match c !! a with
                        | Some x => Some x
                        | None => if decide (a ∈ dom m) then Some true
                                  else None
                        end) _ c _ _ tables).
  - destruct (c !! a); [reflexivity|].
    destruct (decide (a ∈ dom (∅ : gmap string string))) as [H|H];
      [|reflexivity].
    rewrite dom_empty in H. exfalso. exact (not_elem_of_empty a H).
  - intros alias t m r Hm Hr.
    assert (Hnew : (r !! alias = None -> alias <> a ->
                    <[alias := true]> r !! a = r !! a)).
    { intros _ Hne. apply lookup_insert_ne. exact Hne. }
    destruct (c !! a) as [x|] eqn:Ec.
    + destruct (r !! alias) eqn:E; [exact Hr|].
      rewrite Hnew; [exact Hr|reflexivity|]. intros ->. congruence.
    + destruct (decide (a = alias)) as [->|Hne].
      * destruct (decide (alias ∈ dom (<[alias := t]> m))) as [_|Hn];
          [|exfalso; apply Hn; rewrite dom_insert, elem_of_union,
              elem_of_singleton; left; reflexivity].
        destruct (decide (alias ∈ dom m)) as [Hd|_].
        { apply elem_of_dom in Hd as [? Hd]. congruence. }
        rewrite Hr. apply lookup_insert_eq.
      * assert (Hdom : a ∈ dom (<[alias := t]> m) <-> a ∈ dom m).
        { rewrite dom_insert, elem_of_union, elem_of_singleton.
          split; [intros [H|H]; [congruence|exact H]|].
          intros H. right. exact H. }
        destruct (r !! alias) eqn:E.
        { rewrite Hr.
          destruct (decide (a ∈ dom m)) as [H1|H1],
            (decide (a ∈ dom (<[alias := t]> m))) as [H2|H2];
            try reflexivity; exfalso; tauto. }
        rewrite lookup_insert_ne by congruence. rewrite Hr.
        destruct (decide (a ∈ dom m)) as [H1|H1],
          (decide (a ∈ dom (<[alias := t]> m))) as [H2|H2];
          try reflexivity; exfalso; tauto.
Qed.

(** Without hints the analysis is left as it is, and every table that is
    no join's right side has many rows. *)
Lemma buildCardinalityMap_no_hints (fks : list ForeignKey)
    (order : list string) (analysis : QueryAnalysis) :
  PathHints analysis = ∅ ->
  exists cardinality,
    buildCardinalityMap (Ok fks) order analysis = Ok (analysis, cardinality)
    /\ (forall a, a ∈ dom (Tables analysis) ->
                  a ∉ joinedAliases (Joins analysis) ->
                  cardinality !! a = Some true)
    /\ (Joins analysis = [] ->
        (forall a, a ∈ order -> a ∈ dom (Tables analysis)) ->
        forall a, a ∉ dom (Tables analysis) -> cardinality !! a = None).
Proof.
  intros Hh. unfold buildCardinalityMap. cbn [bind].
  rewrite Hh, lookup_empty. eexists. split; [reflexivity|].
  set (root := findRoot order (joinedAliases (Joins analysis))).
  split.
  - intros a Ha Hnj. rewrite defaults_lookup.
    assert (Hkeep : forall c : gmap string bool,
               fold_left
                 (fun c join =>
                    <[RightAlias join := isOneToManyJoin join fks]> c)
                 (Joins analysis) c !! a = c !! a).
    { apply joins_keep_root. intros join Hj E. apply Hnj. rewrite <- E.
      apply RightAlias_joined. exact Hj. }
    rewrite Hkeep. destruct (String.eqb root EmptyString).
    + rewrite lookup_empty. destruct (decide (a ∈ dom (Tables analysis)));
        [reflexivity|contradiction].
    + destruct (decide (a = root)) as [->|Hne].
      * rewrite lookup_singleton_eq, Hh, lookup_empty. reflexivity.
      * rewrite lookup_singleton_ne by congruence.
        destruct (decide (a ∈ dom (Tables analysis)));
          [reflexivity|contradiction].
  - intros Hj Hord a Ha. rewrite defaults_lookup. rewrite Hj.
    cbn [fold_left].
    assert (Hc : forall x : bool,
               (if String.eqb root EmptyString
                then (∅ : gmap string bool)
                else {[root := x]}) !! a = None).
    { intros x.
      destruct (String.eqb root EmptyString) eqn:E; [apply lookup_empty|].
      apply lookup_singleton_ne. intros <-. apply Ha, Hord.
      apply String.eqb_neq in E.
      exact (proj1 (findRoot_spec order _ E)). }
    rewrite Hc. destruct (decide (a ∈ dom (Tables analysis)));
      [contradiction|reflexivity].
Qed.

Lemma range_in_dom (tables : gmap string string)
    (range : list (string * string)) (a : string) :
  range ≡ₚ map_to_list tables -> a ∈ map fst range <-> a ∈ dom tables.
Proof.
  intros Hp. rewrite map_fmap, list_elem_of_fmap, elem_of_dom. split.
  - intros ([a' t] & -> & Hin). exists t. rewrite Hp in Hin.
    apply elem_of_map_to_list in Hin. exact Hin.
  - intros [t Ht]. exists (a, t). split; [reflexivity|]. rewrite Hp.
    apply elem_of_map_to_list. exact Ht.
Qed.

Lemma range_nil (tables : gmap string string) (range : list (string * string)) :
  range ≡ₚ map_to_list tables -> range = [] <-> tables = ∅.
Proof.
  intros Hp. split.
  - intros ->. symmetry in Hp. apply Permutation_nil_r in Hp.
    apply map_to_list_empty_iff. exact Hp.
  - intros ->. rewrite map_to_list_empty in Hp.
    apply Permutation_nil_r. exact Hp.
Qed.

Lemma underHint_suffix (hintPath colName : string) (many : bool) :
  exists pre, underHint hintPath colName many = pre +:+ "." +:+ colName.
Proof.
  unfold underHint. destruct many; [|exists hintPath; reflexivity].
  destruct (negb (hasSuffix hintPath "[]")); [|exists hintPath; reflexivity].
  exists (hintPath +:+ "[]"). rewrite app_str_assoc. reflexivity.
Qed.

Lemma underRootHint_suffix (rootHint rootAlias alias colName : string)
    (cardinality : gmap string bool) :
  exists pre,
    underRootHint rootHint rootAlias alias colName cardinality
    = pre +:+ "." +:+ colName.
Proof.
  unfold underRootHint.
  destruct (String.eqb alias rootAlias); [apply underHint_suffix|].
  destruct (cardinalityOf cardinality rootAlias),
    (cardinalityOf cardinality alias),
    (negb (hasSuffix rootHint "[]"));
    first
      [ (exists (rootHint +:+ "[]." +:+ alias +:+ "[]"));
        rewrite !app_str_assoc; reflexivity
      | (exists (rootHint +:+ "." +:+ alias +:+ "[]"));
        rewrite !app_str_assoc; reflexivity
      | (exists (rootHint +:+ "[]." +:+ alias));
        rewrite !app_str_assoc; reflexivity
      | (exists (rootHint +:+ "." +:+ alias));
        rewrite !app_str_assoc; reflexivity ].
Qed.

Lemma buildPathRecursive_new (range : list (string * string))
    (targetAlias : string) (analysis : QueryAnalysis)
    (cardinality : gmap string bool) :
  buildPathToTable range targetAlias analysis cardinality
  = let rootAlias := findRootAlias range analysis in
    if String.eqb targetAlias rootAlias then
      if cardinalityOf cardinality targetAlias
      then "$[]." +:+ targetAlias
      else "$." +:+ targetAlias
    else if cardinalityOf cardinality rootAlias then
      if cardinalityOf cardinality targetAlias
      then "$[]." +:+ targetAlias +:+ "[]"
      else "$[]." +:+ targetAlias
    else if cardinalityOf cardinality targetAlias
         then "$." +:+ targetAlias +:+ "[]"
         else "$." +:+ targetAlias.
Proof.
  unfold buildPathToTable, buildPathRecursive, findRootAlias.
  destruct (decide (targetAlias ∈ (∅ : gset string))) as [H|_];
    [|reflexivity].
  exfalso. exact (not_elem_of_empty _ H).
Qed.

Section InferenceFacts.
Variable getTableMetadata : string -> outcome TableMetadata.
Hypothesis reader_returns : forall t, getTableMetadata t <> Panic.

Lemma guessFromMetadata_cases (column : string)
    (range : list (string * string)) :
  guessFromMetadata getTableMetadata column range = Ok None
  \/ exists a, guessFromMetadata getTableMetadata column range = Ok (Some a)
               /\ a ∈ map fst range.
Proof using reader_returns.
  induction range as [|[alias t] range IH]; [left; reflexivity|].
  cbn [guessFromMetadata map fst].
  assert (Hrest : guessFromMetadata getTableMetadata column range = Ok None
                  \/ exists a,
                       guessFromMetadata getTableMetadata column range
                       = Ok (Some a) /\ a ∈ alias :: map fst range).
  { destruct IH as [IH|(a & IH & Hin)]; [left; exact IH|].
    right. exists a. split; [exact IH|right; exact Hin]. }
  destruct (getTableMetadata t) as [m|e|] eqn:E.
  - destruct (existsb (fun col => String.eqb col column) (tmColumns m));
      [|exact Hrest].
    right. exists alias. split; [reflexivity|left].
  - exact Hrest.
  - exfalso. exact (reader_returns t E).
Qed.

(** The alias guessed is a table of the query, or the empty string when
    the query has no table. *)
Lemma guessAliasForColumn_in (ranges : columnRanges) (column : string)
    (analysis : QueryAnalysis) :
  rangesOver (Tables analysis) ranges ->
  exists alias,
    guessAliasForColumn getTableMetadata ranges column analysis = Ok alias
    /\ (Tables analysis = ∅ -> alias = EmptyString)
    /\ (Tables analysis <> ∅ -> alias ∈ dom (Tables analysis)).
Proof using reader_returns.
  intros (H1 & H2 & H3 & _ & _). unfold guessAliasForColumn.
  assert (Hhead : forall range a t rest,
             range ≡ₚ map_to_list (Tables analysis) ->
             range = (a, t) :: rest ->
             (Tables analysis = ∅ -> a = EmptyString)
             /\ (Tables analysis <> ∅ -> a ∈ dom (Tables analysis))).
  { intros range a t rest Hp E. split.
    - intros He. apply (range_nil _ _ Hp) in He. congruence.
    - intros _. apply (range_in_dom _ _ a Hp). rewrite E. left. }
  destruct (if (size (Tables analysis) =? 1)%nat then rangeOnly ranges
            else []) as [|[a t] rest] eqn:E.
  - destruct (guessFromMetadata_cases column (rangeMetadata ranges))
      as [Hg|(a & Hg & Hin)]; rewrite Hg; cbn [bind].
    + destruct (rangeFirst ranges) as [|[a t] rest] eqn:Ef.
      * exists EmptyString. split; [reflexivity|]. split; [reflexivity|].
        intros Hne. exfalso. apply Hne. apply (range_nil _ _ H3). reflexivity.
      * exists a. split; [reflexivity|]. exact (Hhead _ a t rest H3 eq_refl).
    + exists a. split; [reflexivity|].
      apply (range_in_dom _ _ a H2) in Hin. split; [|intros _; exact Hin].
      intros He. rewrite He, dom_empty in Hin.
      exfalso. exact (not_elem_of_empty _ Hin).
  - exists a. split; [reflexivity|].
    destruct (size (Tables analysis) =? 1)%nat; [|discriminate E].
    rewrite E in H1. exact (Hhead _ a t rest H1 eq_refl).
Qed.

Lemma guessAliasForColumn_returns (ranges : columnRanges) (column : string)
    (analysis : QueryAnalysis) :
  exists alias,
    guessAliasForColumn getTableMetadata ranges column analysis = Ok alias.
Proof using reader_returns.
  unfold guessAliasForColumn.
  destruct (if (size (Tables analysis) =? 1)%nat then rangeOnly ranges
            else []) as [|[a t] rest]; [|eexists; reflexivity].
  destruct (guessFromMetadata_cases column (rangeMetadata ranges))
    as [Hg|(a & Hg & Hin)]; rewrite Hg; cbn [bind];
    [|eexists; reflexivity].
  destruct (rangeFirst ranges) as [|[a t] rest]; eexists; reflexivity.
Qed.

Lemma columnAlias_cases (ranges : columnRanges) (column : string)
    (analysis : QueryAnalysis) (cardinality : gmap string bool) :
  (exists pre,
     columnAlias getTableMetadata ranges column analysis cardinality
     = Ok (inl (pre +:+ "." +:+ columnName column)))
  \/ (exists alias,
        columnAlias getTableMetadata ranges column analysis cardinality
        = Ok (inr (alias, columnName column))).
Proof using reader_returns.
  unfold columnAlias, columnName.
  assert (Hguess :
    (exists pre,
       (alias <~ guessAliasForColumn getTableMetadata ranges column analysis ;;
        if String.eqb alias EmptyString then
          match PathHints analysis !! "$" with
          | Some hintPath => Ok (inl (hintPath +:+ "." +:+ column))
          | None => Ok (inl ("$." +:+ column))
          end
        else
          match PathHints analysis !! alias with
          | Some hintPath =>
              Ok (inl (underHint hintPath column
                         (cardinalityOf cardinality alias)))
          | None => Ok (inr (alias, column))
          end)
       = Ok (inl (pre +:+ "." +:+ column)
             : string + string * string))
    \/ (exists a,
          (alias <~ guessAliasForColumn getTableMetadata ranges column
                      analysis ;;
           if String.eqb alias EmptyString then
             match PathHints analysis !! "$" with
             | Some hintPath => Ok (inl (hintPath +:+ "." +:+ column))
             | None => Ok (inl ("$." +:+ column))
             end
           else
             match PathHints analysis !! alias with
             | Some hintPath =>
                 Ok (inl (underHint hintPath column
                            (cardinalityOf cardinality alias)))
             | None => Ok (inr (alias, column))
             end)
          = Ok (inr (a, column)))).
  { destruct (guessAliasForColumn_returns ranges column analysis)
      as [alias ->]. cbn [bind].
    destruct (String.eqb alias EmptyString).
    - left. destruct (PathHints analysis !! "$") as [h|];
        [exists h|exists "$"]; reflexivity.
    - destruct (PathHints analysis !! alias) as [h|].
      + left.
        destruct (underHint_suffix h column (cardinalityOf cardinality alias))
          as [pre ->].
        exists pre. reflexivity.
      + right. exists alias. reflexivity. }
  destruct (split column ".") as [|p0 [|p1 [|p2 parts]]]; try exact Hguess.
  destruct (PathHints analysis !! p0) as [h|].
  - left.
    destruct (underHint_suffix h p1 (cardinalityOf cardinality p0))
      as [pre ->].
    exists pre. reflexivity.
  - right. exists p0. reflexivity.
Qed.

(** X6.  [inferColumnPath] never fails, and the path it gives ends with
    a period and the name of the column. *)
Theorem inferColumnPath_ends_with_column (ranges : columnRanges)
    (column : string) (analysis : QueryAnalysis)
    (cardinality : gmap string bool) :
  exists pre,
    inferColumnPath getTableMetadata ranges column analysis cardinality
    = Ok (pre +:+ "." +:+ columnName column).
Proof using reader_returns.
  unfold inferColumnPath.
  destruct (columnAlias_cases ranges column analysis cardinality)
    as [[pre ->]|[alias ->]]; cbn [bind].
  - exists pre. reflexivity.
  - destruct (length (Joins analysis) =? 0)%nat.
    + destruct (cardinalityOf cardinality alias);
        [exists "$[]"|exists "$"]; reflexivity.
    + cbn zeta.
      destruct (PathHints analysis
                  !! findRootAlias (rangeRoot ranges) analysis) as [h|].
      * destruct (underRootHint_suffix h
                    (findRootAlias (rangeRoot ranges) analysis) alias
                    (columnName column) cardinality) as [pre ->].
        exists pre. reflexivity.
      * eexists. reflexivity.
Qed.

Lemma inferColumnPath_default (ranges : columnRanges) (column : string)
    (analysis : QueryAnalysis) (cardinality : gmap string bool) :
  Joins analysis = [] -> PathHints analysis = ∅ ->
  EmptyString ∉ dom (Tables analysis) ->
  rangesOver (Tables analysis) ranges ->
  (forall a, a ∈ dom (Tables analysis) -> cardinality !! a = Some true) ->
  (forall a, a ∉ dom (Tables analysis) -> cardinality !! a = None) ->
  inferColumnPath getTableMetadata ranges column analysis cardinality
  = Ok (defaultPath (Tables analysis) column).
Proof using reader_returns.
  intros Hj Hh Hne Hr Hin Hout.
  unfold inferColumnPath, columnAlias, defaultPath.
  assert (Hguess :
    (r <~ (alias <~ guessAliasForColumn getTableMetadata ranges column
                      analysis ;;
           if String.eqb alias EmptyString then
             match PathHints analysis !! "$" with
             | Some hintPath => Ok (inl (hintPath +:+ "." +:+ column))
             | None => Ok (inl ("$." +:+ column))
             end
           else
             match PathHints analysis !! alias with
             | Some hintPath =>
                 Ok (inl (underHint hintPath column
                            (cardinalityOf cardinality alias)))
             | None => Ok (inr (alias, column))
             end) ;;
     match r with
     | inl path => Ok path
     | inr (alias, colName) =>
         if (length (Joins analysis) =? 0)%nat then
           if cardinalityOf cardinality alias
           then Ok ("$[]." +:+ colName)
           else Ok ("$." +:+ colName)
         else
           let rootAlias := findRootAlias (rangeRoot ranges) analysis in
           match PathHints analysis !! rootAlias with
           | Some rootHint =>
               Ok (underRootHint rootHint rootAlias alias colName
                     cardinality)
           | None =>
               let path :=
                 buildPathToTable (rangePath ranges) alias analysis
                   cardinality in
               Ok (path +:+ "." +:+ colName)
           end
     end)
    = Ok (if decide (Tables analysis = ∅) then "$." +:+ column
          else "$[]." +:+ column)).
  { destruct (guessAliasForColumn_in ranges column analysis Hr)
      as (alias & -> & Hempty & Hfull). cbn [bind].
    rewrite Hh, !lookup_empty.
    destruct (decide (Tables analysis = ∅)) as [He|Hn].
    - rewrite (Hempty He). reflexivity.
    - specialize (Hfull Hn).
      assert (Hb : String.eqb alias EmptyString = false).
      { apply String.eqb_neq. intros ->. exact (Hne Hfull). }
      rewrite Hb. cbn [bind]. rewrite Hj. cbn [length Nat.eqb].
      unfold cardinalityOf. rewrite (Hin alias Hfull). reflexivity. }
  destruct (split column ".") as [|p0 [|p1 [|p2 parts]]]; try exact Hguess.
  rewrite Hh, lookup_empty. cbn [bind]. rewrite Hj. cbn [length Nat.eqb].
  unfold cardinalityOf.
  destruct (decide (p0 ∈ dom (Tables analysis))) as [Hd|Hd].
  - rewrite (Hin p0 Hd). reflexivity.
  - rewrite (Hout p0 Hd). reflexivity.
Qed.

Lemma inferLoop_default (ranges : nat -> columnRanges)
    (columns : list string) (analysis : QueryAnalysis)
    (cardinality : gmap string bool) :
  Joins analysis = [] -> PathHints analysis = ∅ ->
  EmptyString ∉ dom (Tables analysis) ->
  (forall i, rangesOver (Tables analysis) (ranges i)) ->
  (forall a, a ∈ dom (Tables analysis) -> cardinality !! a = Some true) ->
  (forall a, a ∉ dom (Tables analysis) -> cardinality !! a = None) ->
  forall i paths,
    inferLoop getTableMetadata ranges i columns analysis cardinality paths
    = Ok (fold_left
            (fun paths col =>
               <[col := defaultPath (Tables analysis) col]> paths)
            columns paths).
Proof using reader_returns.
  intros Hj Hh Hne Hr Hin Hout.
  induction columns as [|col columns IH]; intros i paths; [reflexivity|].
  cbn [inferLoop fold_left].
  rewrite (inferColumnPath_default (ranges i) col analysis cardinality
             Hj Hh Hne (Hr i) Hin Hout).
  cbn [bind]. apply IH.
Qed.

Lemma inferColumnPath_returns (ranges : columnRanges) (column : string)
    (analysis : QueryAnalysis) (cardinality : gmap string bool) :
  exists path,
    inferColumnPath getTableMetadata ranges column analysis cardinality
    = Ok path.
Proof using reader_returns.
  unfold inferColumnPath.
  destruct (columnAlias_cases ranges column analysis cardinality)
    as [[pre ->]|[alias ->]]; cbn [bind]; [eexists; reflexivity|].
  destruct (length (Joins analysis) =? 0)%nat.
  - destruct (cardinalityOf cardinality alias); eexists; reflexivity.
  - cbn zeta.
    destruct (PathHints analysis
                !! findRootAlias (rangeRoot ranges) analysis);
      eexists; reflexivity.
Qed.

Lemma inferLoop_dom (ranges : nat -> columnRanges) (columns : list string)
    (analysis : QueryAnalysis) (cardinality : gmap string bool) :
  forall i paths,
    exists paths',
      inferLoop getTableMetadata ranges i columns analysis cardinality paths
      = Ok paths'
      /\ dom paths' = dom paths ∪ list_to_set columns.
Proof using reader_returns.
  induction columns as [|col columns IH]; intros i paths.
  - exists paths. split; [reflexivity|]. cbn [list_to_set].
    rewrite union_empty_r_L. reflexivity.
  - cbn [inferLoop].
    destruct (inferColumnPath_returns (ranges i) col analysis cardinality)
      as [path ->].
    cbn [bind].
    destruct (IH (S i) (<[col := path]> paths)) as (paths' & -> & Hdom).
    exists paths'. split; [reflexivity|]. rewrite Hdom, dom_insert_L.
    cbn [list_to_set]. apply set_eq. intros k.
    rewrite !elem_of_union. tauto.
Qed.

End InferenceFacts.

Lemma fold_insert_lookup (f : string -> string) (columns : list string)
    (paths : gmap string string) (k : string) :
  fold_left (fun paths col => <[col := f col]> paths) columns paths !! k
  = if decide (k ∈ columns) then Some (f k) else paths !! k.
Proof.
  revert paths. induction columns as [|col columns IH]; intros paths.
  - destruct (decide (k ∈ [])) as [H|_]; [inversion H|reflexivity].
  - cbn [fold_left]. rewrite IH.
    destruct (decide (k ∈ columns)) as [Hin|Hnin].
    + destruct (decide (k ∈ col :: columns)) as [_|Hn]; [reflexivity|].
      exfalso. apply Hn. right. exact Hin.
    + destruct (decide (k = col)) as [->|Hne].
      * rewrite lookup_insert_eq.
        destruct (decide (col ∈ col :: columns)) as [_|Hn]; [reflexivity|].
        exfalso. apply Hn. left.
      * rewrite lookup_insert_ne by congruence.
        destruct (decide (k ∈ col :: columns)) as [Hin|_]; [|reflexivity].
        exfalso. apply elem_of_cons in Hin as [E|Hin]; [exact (Hne E)|].
        exact (Hnin Hin).
Qed.

Lemma InferPaths_default_run
    (getTableMetadata : string -> outcome TableMetadata)
    (fks : list ForeignKey) (order : list string)
    (ranges : nat -> columnRanges) (analysis : QueryAnalysis)
    (columns : list string) :
  (forall t, getTableMetadata t <> Panic) ->
  Joins analysis = [] -> PathHints analysis = ∅ ->
  EmptyString ∉ dom (Tables analysis) ->
  (forall a, a ∈ order -> a ∈ dom (Tables analysis)) ->
  (forall i, rangesOver (Tables analysis) (ranges i)) ->
  InferPaths getTableMetadata (Ok fks) order ranges analysis columns
  = Ok (fold_left
          (fun paths col => <[col := defaultPath (Tables analysis) col]> paths)
          columns ∅).
Proof.
  intros Hret Hj Hh Hne Hord Hr. unfold InferPaths.
  destruct (buildCardinalityMap_no_hints fks order analysis Hh)
    as (cardinality & -> & Hin & Hout).
  cbn [bind fst snd].
  apply (inferLoop_default getTableMetadata Hret ranges columns analysis
           cardinality Hj Hh Hne Hr).
  - intros a Ha. apply Hin; [exact Ha|]. rewrite Hj.
    unfold joinedAliases. cbn [map list_to_set]. apply not_elem_of_empty.
  - exact (Hout Hj Hord).
Qed.

(** X7.  A query without joins and hints: every column gets the array
    path [$[].name], but a column [x.name] whose [x] is no table of the
    query and every column of a query without tables, which get the
    object path [$.name]; the order of the ranges plays no part. *)
Theorem InferPaths_no_joins_no_hints
    (getTableMetadata : string -> outcome TableMetadata)
    (fks : list ForeignKey) (order : list string)
    (ranges : nat -> columnRanges) (analysis : QueryAnalysis)
    (columns : list string) :
  (forall t, getTableMetadata t <> Panic) ->
  Joins analysis = [] -> PathHints analysis = ∅ ->
  EmptyString ∉ dom (Tables analysis) ->
  (forall a, a ∈ order -> a ∈ dom (Tables analysis)) ->
  (forall i, rangesOver (Tables analysis) (ranges i)) ->
  exists paths,
    InferPaths getTableMetadata (Ok fks) order ranges analysis columns
    = Ok paths
    /\ forall column,
         paths !! column
         = if decide (column ∈ columns)
           then Some (defaultPath (Tables analysis) column)
           else None.
Proof.
  intros Hret Hj Hh Hne Hord Hr.
  rewrite (InferPaths_default_run getTableMetadata fks order ranges analysis
             columns Hret Hj Hh Hne Hord Hr).
  eexists. split; [reflexivity|]. intros column.
  rewrite fold_insert_lookup, lookup_empty. reflexivity.
Qed.

Lemma buildCardinalityMap_returns (fks : list ForeignKey)
    (order : list string) (analysis : QueryAnalysis) :
  exists r, buildCardinalityMap (Ok fks) order analysis = Ok r.
Proof.
  unfold buildCardinalityMap. cbn [bind].
  destruct (PathHints analysis !! "$");
    [destruct (String.eqb _ _)|]; eexists; reflexivity.
Qed.

(** X8.  [InferPathsWithFallback] gives a path to every column and to
    nothing else; when the foreign keys cannot be read, every column [c]
    gets [$[].c], the whole name after the period. *)
Theorem InferPathsWithFallback_every_column
    (getTableMetadata : string -> outcome TableMetadata)
    (allFKs : outcome (list ForeignKey)) (order : list string)
    (ranges : nat -> columnRanges) (analysis : QueryAnalysis)
    (columns : list string) :
  (forall t, getTableMetadata t <> Panic) -> allFKs <> Panic ->
  exists paths,
    InferPathsWithFallback getTableMetadata allFKs order ranges analysis
      columns = Ok paths
    /\ dom paths = list_to_set columns
    /\ (forall e column,
          allFKs = Err e -> column ∈ columns ->
          paths !! column = Some ("$[]." +:+ column)).
Proof.
  intros Hret Hfk. unfold InferPathsWithFallback, InferPaths.
  destruct allFKs as [fks|e|]; [| |congruence].
  - destruct (buildCardinalityMap_returns fks order analysis) as [r ->].
    cbn [bind].
    destruct (inferLoop_dom getTableMetadata Hret ranges columns (fst r)
                (snd r) 0 ∅) as (paths & -> & Hdom).
    exists paths. split; [reflexivity|]. split.
    + rewrite Hdom, dom_empty_L, union_empty_l_L. reflexivity.
    + intros e column He. discriminate He.
  - unfold buildCardinalityMap. cbn [bind]. eexists.
    split; [reflexivity|]. split.
    + apply set_eq. intros k. rewrite elem_of_dom, fold_insert_lookup.
      rewrite elem_of_list_to_set.
      destruct (decide (k ∈ columns)) as [Hin|Hnin].
      * split; [intros _; exact Hin|intros _; eexists; reflexivity].
      * rewrite lookup_empty. split; [intros [? H]; discriminate H|].
        intros Hin. contradiction.
    + intros e' column _ Hin.
      rewrite (fold_insert_lookup (fun col => "$[]." +:+ col)).
      destruct (decide (column ∈ columns)); [reflexivity|contradiction].
Qed.

Lemma findRoot_unique (order : list string) (joined : gset string)
    (root : string) :
  root ∈ order -> root ∉ joined ->
  (forall a, a ∈ order -> a <> root -> a ∈ joined) ->
  findRoot order joined = root.
Proof.
  intros Hin Hnj Hall. induction order as [|a order IH]; [inversion Hin|].
  cbn [findRoot]. destruct (decide (a ∈ joined)) as [Hj|Hj].
  - apply IH.
    + apply elem_of_cons in Hin as [->|Hin]; [contradiction|exact Hin].
    + intros b Hb. apply Hall. right. exact Hb.
  - destruct (decide (a = root)) as [E|Hne]; [exact E|].
    exfalso. apply Hj, Hall; [left|exact Hne].
Qed.

(** X9.  When exactly one table of the query is no join's right side,
    every range finds it as the root. *)
Theorem findRootAlias_unique (range : list (string * string))
    (analysis : QueryAnalysis) (root : string) :
  range ≡ₚ map_to_list (Tables analysis) ->
  root ∈ dom (Tables analysis) ->
  root ∉ joinedAliases (Joins analysis) ->
  (forall a, a ∈ dom (Tables analysis) -> a <> root ->
             a ∈ joinedAliases (Joins analysis)) ->
  findRootAlias range analysis = root.
Proof.
  intros Hp Hin Hnj Hall. unfold findRootAlias. apply findRoot_unique.
  - apply (range_in_dom _ _ root Hp). exact Hin.
  - exact Hnj.
  - intros a Ha. apply Hall. apply (range_in_dom _ _ a Hp). exact Ha.
Qed.

(** X10.  With joins, no hints and two tables that are no join's right
    side, the root is the one the range yields first: a column of the
    first is placed at [$[].a.name] when [a] comes first and at
    [$[].a[].name] when the other one does. *)
Theorem InferPaths_root_by_range
    (getTableMetadata : string -> outcome TableMetadata)
    (fks : list ForeignKey) (order : list string)
    (ranges1 ranges2 : nat -> columnRanges) (analysis : QueryAnalysis)
    (column a colName b ta tb : string)
    (rest1 rest2 : list (string * string)) :
  split column "." = [a; colName] ->
  PathHints analysis = ∅ -> Joins analysis <> [] ->
  a ∈ dom (Tables analysis) -> b ∈ dom (Tables analysis) ->
  a ∉ joinedAliases (Joins analysis) ->
  b ∉ joinedAliases (Joins analysis) ->
  a <> b ->
  rangePath (ranges1 0%nat) = (a, ta) :: rest1 ->
  rangePath (ranges2 0%nat) = (b, tb) :: rest2 ->
  InferPaths getTableMetadata (Ok fks) order ranges1 analysis [column]
  = Ok (<[column := "$[]." +:+ a +:+ "." +:+ colName]> ∅)
  /\ InferPaths getTableMetadata (Ok fks) order ranges2 analysis [column]
     = Ok (<[column := "$[]." +:+ a +:+ "[]." +:+ colName]> ∅).
Proof.
  intros Hs Hh Hj Ha Hb Hna Hnb Hab Hr1 Hr2. unfold InferPaths.
  destruct (buildCardinalityMap_no_hints fks order analysis Hh)
    as (cardinality & -> & Hin & _).
  cbn [bind fst snd inferLoop]. unfold inferColumnPath, columnAlias.
  rewrite Hs, Hh, !lookup_empty. cbn [bind].
  assert (Hlen : (length (Joins analysis) =? 0)%nat = false).
  { destruct (Joins analysis); [congruence|reflexivity]. }
  rewrite Hlen. cbn zeta.
  rewrite !buildPathRecursive_new. cbn zeta. unfold findRootAlias.
  rewrite Hr1, Hr2. cbn [map fst findRoot].
  destruct (decide (a ∈ joinedAliases (Joins analysis))); [contradiction|].
  destruct (decide (b ∈ joinedAliases (Joins analysis))); [contradiction|].
  rewrite String.eqb_refl.
  assert (Hne : String.eqb a b = false) by (apply String.eqb_neq; exact Hab).
  rewrite Hne. unfold cardinalityOf.
  rewrite (Hin a Ha Hna), (Hin b Hb Hnb).
  cbn [default from_option id bind].
  split; [reflexivity|]. rewrite !app_str_assoc. reflexivity.
Qed.

(** X11.  A query with one table: every column without a table in its
    name is taken as a column of that table, and the metadata is not
    read. *)
Theorem guessAliasForColumn_single_table
    (getTableMetadata : string -> outcome TableMetadata)
    (ranges : columnRanges) (column alias table : string)
    (analysis : QueryAnalysis) :
  Tables analysis = {[ alias := table ]} ->
  rangeOnly ranges ≡ₚ map_to_list (Tables analysis) ->
  guessAliasForColumn getTableMetadata ranges column analysis = Ok alias.
Proof.
  intros Ht Hp. unfold guessAliasForColumn.
  rewrite Ht in *. rewrite map_size_singleton. cbn [Nat.eqb].
  rewrite map_to_list_singleton in Hp.
  apply Permutation_singleton_r in Hp. rewrite Hp. reflexivity.
Qed.

Lemma guessFromMetadata_found
    (getTableMetadata : string -> outcome TableMetadata)
    (column alias : string) (range : list (string * string)) :
  (exists t m, (alias, t) ∈ range /\ getTableMetadata t = Ok m
               /\ column ∈ tmColumns m) ->
  (forall a t, (a, t) ∈ range -> a <> alias ->
               match getTableMetadata t with
               | Ok m => column ∉ tmColumns m
               | Err _ => True
               | Panic => False
               end) ->
  (forall t t', (alias, t) ∈ range -> (alias, t') ∈ range -> t = t') ->
  guessFromMetadata getTableMetadata column range = Ok (Some alias).
Proof.
  intros (t & m & Hin & Hm & Hcol) Hothers Hfun.
  induction range as [|[a t'] range IH]; [inversion Hin|].
  cbn [guessFromMetadata].
  assert (Hlists : existsb (fun col => String.eqb col column) (tmColumns m)
                   = true).
  { apply existsb_exists. exists column. split; [|apply String.eqb_refl].
    apply list_elem_of_In. exact Hcol. }
  destruct (decide (a = alias)) as [->|Hne].
  - assert (t' = t) as -> by (apply Hfun; [left|exact Hin]).
    rewrite Hm, Hlists. reflexivity.
  - assert (Hrest : guessFromMetadata getTableMetadata column range
                    = Ok (Some alias)).
    { apply IH.
      - apply elem_of_cons in Hin as [E|Hin]; [congruence|exact Hin].
      - intros a0 t0 H0. apply Hothers. right. exact H0.
      - intros t1 t2 H1 H2. apply Hfun; right; assumption. }
    assert (Ho := Hothers a t' ltac:(left) Hne).
    destruct (getTableMetadata t') as [m'|e|]; [|exact Hrest|contradiction].
    destruct (existsb (fun col => String.eqb col column) (tmColumns m'))
      eqn:E; [|exact Hrest].
    exfalso. apply existsb_exists in E as (col & Hc & Heq).
    apply String.eqb_eq in Heq. subst col. apply Ho, list_elem_of_In, Hc.
Qed.

(** X12.  A query with several tables: when the metadata of exactly one
    of them lists the column, that table is the answer whatever the order
    of the range; a table whose metadata cannot be read is passed over. *)
Theorem guessAliasForColumn_by_metadata
    (getTableMetadata : string -> outcome TableMetadata)
    (ranges : columnRanges) (column alias table : string)
    (metadata : TableMetadata) (analysis : QueryAnalysis) :
  size (Tables analysis) <> 1%nat ->
  rangeMetadata ranges ≡ₚ map_to_list (Tables analysis) ->
  Tables analysis !! alias = Some table ->
  getTableMetadata table = Ok metadata ->
  column ∈ tmColumns metadata ->
  (forall a t, Tables analysis !! a = Some t -> a <> alias ->
               match getTableMetadata t with
               | Ok m => column ∉ tmColumns m
               | Err _ => True
               | Panic => False
               end) ->
  guessAliasForColumn getTableMetadata ranges column analysis = Ok alias.
Proof.
  intros Hsize Hp Ht Hm Hcol Hothers. unfold guessAliasForColumn.
  apply Nat.eqb_neq in Hsize. rewrite Hsize.
  assert (Hmem : forall a t, (a, t) ∈ rangeMetadata ranges
                             <-> Tables analysis !! a = Some t).
  { intros a t. rewrite Hp. apply elem_of_map_to_list. }
  rewrite (guessFromMetadata_found getTableMetadata column alias
             (rangeMetadata ranges)); [reflexivity| | |].
  - exists table, metadata. split; [apply Hmem; exact Ht|].
    split; [exact Hm|exact Hcol].
  - intros a t Hin. apply Hothers. apply Hmem. exact Hin.
  - intros t t' H1 H2. apply Hmem in H1, H2. congruence.
Qed.

Lemma inferColumnPath_ends_with_column_witness :
  exists pre,
    inferColumnPath noMetadata (sameRange [("p", "posts")]) "p.id"
      statisticsAnalysis {[ "p" := false ]}
    = Ok (pre +:+ "." +:+ columnName "p.id").
Proof.
  apply (inferColumnPath_ends_with_column noMetadata).
  intros t. discriminate.
Defined.

Lemma InferPaths_no_joins_no_hints_witness :
  exists paths,
    InferPaths noMetadata (Ok []) ["posts"]
      (fun _ => sameRange (map_to_list (Tables postsAnalysis)))
      postsAnalysis ["id"; "posts.title"; "x.y"] = Ok paths
    /\ paths !! "id" = Some "$[].id"
    /\ paths !! "posts.title" = Some "$[].title"
    /\ paths !! "x.y" = Some "$.y".
Proof.
  destruct (InferPaths_no_joins_no_hints noMetadata [] ["posts"]
              (fun _ => sameRange (map_to_list (Tables postsAnalysis)))
              postsAnalysis ["id"; "posts.title"; "x.y"])
    as (paths & Hrun & Hpaths).
  - intros t. discriminate.
  - reflexivity.
  - reflexivity.
  - apply not_elem_of_dom. reflexivity.
  - intros a Ha. apply list_elem_of_singleton in Ha. subst a.
    apply elem_of_dom. eexists. reflexivity.
  - intros i. repeat split; reflexivity.
  - exists paths. split; [exact Hrun|]. rewrite !Hpaths.
    repeat split; vm_compute; reflexivity.
Defined.

Lemma InferPathsWithFallback_every_column_witness :
  exists paths,
    InferPathsWithFallback noMetadata (Err "unsupported driver: sqlite3")
      ["posts"] (fun _ => sameRange (map_to_list (Tables postsAnalysis)))
      postsAnalysis ["id"; "posts.title"] = Ok paths
    /\ dom paths = list_to_set ["id"; "posts.title"]
    /\ paths !! "posts.title" = Some "$[].posts.title".
Proof.
  destruct (InferPathsWithFallback_every_column noMetadata
              (Err "unsupported driver: sqlite3") ["posts"]
              (fun _ => sameRange (map_to_list (Tables postsAnalysis)))
              postsAnalysis ["id"; "posts.title"])
    as (paths & Hrun & Hdom & Hfall).
  - intros t. discriminate.
  - discriminate.
  - exists paths. split; [exact Hrun|]. split; [exact Hdom|].
    apply (Hfall "unsupported driver: sqlite3"); [reflexivity|].
    right. left.
Defined.

Lemma findRootAlias_unique_witness :
  findRootAlias [("c", "comments"); ("p", "posts")]
    (mkQueryAnalysis {[ "p" := "posts"; "c" := "comments" ]}
       [latestCommentJoin] ∅)
  = "p".
Proof.
  apply findRootAlias_unique.
  - cbn [Tables]. apply NoDup_Permutation.
    + apply NoDup_cons_2; [|apply NoDup_singleton].
      intros H. apply list_elem_of_singleton in H. discriminate H.
    + apply NoDup_map_to_list.
    + intros [a t]. rewrite elem_of_map_to_list.
      rewrite !elem_of_cons, elem_of_nil.
      rewrite lookup_insert_Some, lookup_singleton_Some. split.
      * intros [[= -> ->]|[[= -> ->]|[]]]; [right|left]; split;
          try reflexivity; try discriminate; split; reflexivity.
      * intros [[<- <-]|[_ [<- <-]]]; [right; left|left]; reflexivity.
  - apply elem_of_dom. eexists. reflexivity.
  - unfold joinedAliases. cbn [Joins map RightAlias latestCommentJoin
                                 list_to_set].
    rewrite elem_of_union, elem_of_singleton.
    intros [H|H]; [discriminate H|exact (not_elem_of_empty _ H)].
  - intros a Ha Hne. cbn [Tables] in Ha.
    rewrite dom_insert, dom_singleton, elem_of_union, !elem_of_singleton in Ha.
    destruct Ha as [->| ->]; [congruence|].
    unfold joinedAliases. cbn [Joins map RightAlias latestCommentJoin
                                 list_to_set].
    apply elem_of_union. left. apply elem_of_singleton. reflexivity.
Defined.

Lemma InferPaths_root_by_range_witness :
  InferPaths noMetadata (Ok blogForeignKeys) ["p"; "cat"; "c"]
    (fun _ => sameRange [("p", "posts"); ("cat", "categories");
                         ("c", "comments")])
    commaJoinAnalysis ["p.id"]
  = Ok (<["p.id" := "$[].p.id"]> ∅)
  /\ InferPaths noMetadata (Ok blogForeignKeys) ["p"; "cat"; "c"]
       (fun _ => sameRange [("cat", "categories"); ("p", "posts");
                            ("c", "comments")])
       commaJoinAnalysis ["p.id"]
     = Ok (<["p.id" := "$[].p[].id"]> ∅).
Proof.
  assert (Hj : forall a, a <> "c" ->
                         a ∉ joinedAliases (Joins commaJoinAnalysis)).
  { intros a Ha. unfold joinedAliases.
    cbn [Joins commaJoinAnalysis map RightAlias list_to_set].
    rewrite elem_of_union, elem_of_singleton.
    intros [H|H]; [exact (Ha H)|exact (not_elem_of_empty _ H)]. }
  apply (InferPaths_root_by_range noMetadata blogForeignKeys _ _ _
           commaJoinAnalysis "p.id" "p" "id" "cat" "posts" "categories"
           [("cat", "categories"); ("c", "comments")]
           [("p", "posts"); ("c", "comments")]).
  - reflexivity.
  - reflexivity.
  - discriminate.
  - apply elem_of_dom. eexists. reflexivity.
  - apply elem_of_dom. eexists. reflexivity.
  - apply Hj. discriminate.
  - apply Hj. discriminate.
  - discriminate.
  - reflexivity.
  - reflexivity.
Defined.

Lemma guessAliasForColumn_single_table_witness :
  guessAliasForColumn noMetadata
    (sameRange (map_to_list (Tables postsAnalysis))) "id" postsAnalysis
  = Ok "posts".
Proof.
  apply (guessAliasForColumn_single_table noMetadata _ "id" "posts" "posts");
    reflexivity.
Defined.

Lemma guessAliasForColumn_by_metadata_witness :
  guessAliasForColumn blogMetadata
    (sameRange (map_to_list (Tables twoTablesAnalysis))) "name"
    twoTablesAnalysis
  = Ok "cat".
Proof.
  apply (guessAliasForColumn_by_metadata blogMetadata _ "name" "cat"
           "categories"
           (mkTableMetadata "categories" ["id"; "name"] ["id"] [])).
  - vm_compute. discriminate.
  - reflexivity.
  - reflexivity.
  - reflexivity.
  - right. left.
  - intros a t Ht Hne. cbn [Tables twoTablesAnalysis] in Ht.
    apply lookup_insert_Some in Ht as [[<- <-]|[_ Ht]].
    + cbn. intros H. repeat (apply elem_of_cons in H as [H|H];
                              [discriminate H|]).
      inversion H.
    + apply lookup_singleton_Some in Ht as [<- <-]. congruence.
Defined.

(** ** The metadata reader *)

Lemma GetAllForeignKeys_driver (db : database) (r : metadataReader) :
  driverName (snd (GetAllForeignKeys db r)) = driverName r
  /\ cache (snd (GetAllForeignKeys db r)) = cache r.
Proof.
  unfold GetAllForeignKeys. destruct (fkCache r); [|split; reflexivity].
  destruct (if String.eqb (driverName r) "mysql" then _ else _);
    split; reflexivity.
Qed.

Lemma GetForeignKeys_state (db : database) (r : metadataReader)
    (tableName : string) :
  snd (GetForeignKeys db r tableName) = snd (GetAllForeignKeys db r).
Proof.
  unfold GetForeignKeys. destruct (GetAllForeignKeys db r). reflexivity.
Qed.

(** X15.  What [GetTableMetadata] has returned once for a table it
    returns again, from the cache, whatever the database holds by then;
    after [InvalidateCache] the reader is as new. *)
Theorem GetTableMetadata_cached (db db' : database) (r r' : metadataReader)
    (tableName : string) (metadata : TableMetadata) :
  GetTableMetadata db r tableName = (Ok metadata, r') ->
  GetTableMetadata db' r' tableName = (Ok metadata, r')
  /\ InvalidateCache r' = NewMetadataReader (driverName r).
Proof.
  intros H. unfold GetTableMetadata in H.
  destruct (cache r !! tableName) as [cached|] eqn:Ec.
  - injection H as -> ->. split; [|reflexivity].
    unfold GetTableMetadata. rewrite Ec. reflexivity.
  - destruct (getColumns db r tableName) as [columns|e|];
      [|discriminate H..].
    destruct (getPrimaryKeys db r tableName) as [pks|e|];
      [|discriminate H..].
    pose proof (GetForeignKeys_state db r tableName) as Hs.
    pose proof (GetAllForeignKeys_driver db r) as [Hd _].
    destruct (GetForeignKeys db r tableName) as [fks r1].
    cbn [snd] in Hs. subst r1.
    destruct fks as [fks|e|]; [|discriminate H..].
    injection H as <- <-. split.
    + unfold GetTableMetadata. cbn [cache]. rewrite lookup_insert_eq.
      reflexivity.
    + unfold InvalidateCache, NewMetadataReader. cbn [driverName].
      rewrite Hd. reflexivity.
Qed.

(** X16.  A call of [GetTableMetadata] that fails leaves the table cache
    as it was: a failure is not remembered. *)
Theorem GetTableMetadata_failure_not_cached (db : database)
    (r r' : metadataReader) (tableName e : string) :
  GetTableMetadata db r tableName = (Err e, r') ->
  cache r' = cache r /\ cache r !! tableName = None.
Proof.
  intros H. unfold GetTableMetadata in H.
  destruct (cache r !! tableName) as [cached|] eqn:Ec; [discriminate H|].
  destruct (getColumns db r tableName) as [columns|e1|];
    [|injection H as _ <-; split; reflexivity|discriminate H].
  destruct (getPrimaryKeys db r tableName) as [pks|e1|];
    [|injection H as _ <-; split; reflexivity|discriminate H].
  pose proof (GetForeignKeys_state db r tableName) as Hs.
  pose proof (GetAllForeignKeys_driver db r) as [_ Hc].
  destruct (GetForeignKeys db r tableName) as [fks r1].
  cbn [snd] in Hs. subst r1.
  destruct fks as [fks|e1|]; [discriminate H| |discriminate H].
  injection H as _ <-. split; [exact Hc|reflexivity].
Qed.

(** X17.  A list of foreign keys that is not empty is remembered: the
    next call returns it whatever the database holds by then.  An empty
    list is not: the next call reads the database again. *)
Theorem GetAllForeignKeys_remembers (db db' : database) (r : metadataReader)
    (fks : list ForeignKey) :
  driverName r = "mysql" -> fkCache r = [] ->
  dbMySQLForeignKeys db = Ok fks ->
  fst (GetAllForeignKeys db r) = Ok fks
  /\ fst (GetAllForeignKeys db' (snd (GetAllForeignKeys db r)))
     = match fks with
       | [] => dbMySQLForeignKeys db'
       | _ :: _ => Ok fks
       end.
Proof.
  intros Hd Hc Hdb. unfold GetAllForeignKeys at 1 3.
  rewrite Hc, Hd, Hdb. cbn [String.eqb Ascii.eqb Bool.eqb fst snd].
  split; [reflexivity|]. unfold GetAllForeignKeys.
  cbn [fkCache driverName]. rewrite ?Hd.
  destruct fks as [|fk fks]; [|reflexivity].
  cbn [String.eqb Ascii.eqb Bool.eqb].
  destruct (dbMySQLForeignKeys db'); reflexivity.
Qed.

(** X18.  With a driver other than mysql and postgres a new reader cannot
    read the foreign keys, and the paths fall back: every column [c] gets
    the path [$[].c], whatever the joins and hints of the query. *)
Theorem unsupported_driver_falls_back
    (getTableMetadata : string -> outcome TableMetadata) (db : database)
    (driver : string) (order : list string) (ranges : nat -> columnRanges)
    (analysis : QueryAnalysis) (columns : list string) :
  driver <> "mysql" -> driver <> "postgres" ->
  let allFKs := fst (GetAllForeignKeys db (NewMetadataReader driver)) in
  allFKs = Err (unsupportedDriver driver)
  /\ exists paths,
       InferPathsWithFallback getTableMetadata allFKs order ranges analysis
         columns = Ok paths
       /\ forall column,
            paths !! column
            = if decide (column ∈ columns) then Some ("$[]." +:+ column)
              else None.
Proof.
  intros Hm Hp allFKs.
  assert (Hfk : allFKs = Err (unsupportedDriver driver)).
  { subst allFKs. unfold GetAllForeignKeys, NewMetadataReader.
    cbn [fkCache driverName].
    rewrite (proj2 (String.eqb_neq _ _) Hm), (proj2 (String.eqb_neq _ _) Hp).
    reflexivity. }
  split; [exact Hfk|]. rewrite Hfk.
  unfold InferPathsWithFallback, InferPaths, buildCardinalityMap.
  cbn [bind]. eexists. split; [reflexivity|]. intros column.
  rewrite (fold_insert_lookup (fun col => "$[]." +:+ col)), lookup_empty.
  reflexivity.
Qed.

Lemma GetTableMetadata_cached_witness :
  exists r',
    GetTableMetadata blogDatabase (NewMetadataReader "mysql") "posts"
    = (Ok (mkTableMetadata "posts" ["id"; "title"] ["id"]
             [mkForeignKey "posts" "last_comment_id" "comments" "id"]), r')
    /\ GetTableMetadata laterDatabase r' "posts"
       = (Ok (mkTableMetadata "posts" ["id"; "title"] ["id"]
                [mkForeignKey "posts" "last_comment_id" "comments" "id"]),
          r').
Proof.
  eexists. split; [reflexivity|].
  apply (GetTableMetadata_cached blogDatabase laterDatabase
           (NewMetadataReader "mysql")).
  reflexivity.
Defined.

Lemma GetTableMetadata_failure_not_cached_witness :
  cache (snd (GetTableMetadata blogDatabase (NewMetadataReader "sqlite3")
                "posts")) = ∅.
Proof.
  apply (GetTableMetadata_failure_not_cached blogDatabase
           (NewMetadataReader "sqlite3") _ "posts"
           (unsupportedDriver "sqlite3")).
  reflexivity.
Defined.

Lemma GetAllForeignKeys_remembers_witness :
  fst (GetAllForeignKeys laterDatabase
         (snd (GetAllForeignKeys blogDatabase (NewMetadataReader "mysql"))))
  = Ok blogForeignKeys
  /\ fst (GetAllForeignKeys blogDatabase
            (snd (GetAllForeignKeys laterDatabase
                    (NewMetadataReader "mysql"))))
     = Ok blogForeignKeys.
Proof.
  split.
  - apply (GetAllForeignKeys_remembers blogDatabase laterDatabase
             (NewMetadataReader "mysql") blogForeignKeys); reflexivity.
  - apply (GetAllForeignKeys_remembers laterDatabase blogDatabase
             (NewMetadataReader "mysql") []); reflexivity.
Defined.

Lemma unsupported_driver_falls_back_witness :
  exists paths,
    InferPathsWithFallback noMetadata
      (fst (GetAllForeignKeys blogDatabase (NewMetadataReader "sqlite3")))
      ["p"] (fun _ => sameRange [("p", "posts")]) statisticsAnalysis
      ["p.id"] = Ok paths
    /\ paths !! "p.id" = Some "$[].p.id".
Proof.
  destruct (unsupported_driver_falls_back noMetadata blogDatabase "sqlite3"
              ["p"] (fun _ => sameRange [("p", "posts")]) statisticsAnalysis
              ["p.id"]) as (_ & paths & Hrun & Hpaths);
    [discriminate|discriminate|].
  exists paths. split; [exact Hrun|]. rewrite Hpaths. reflexivity.
Defined.

(** ** Reading an analysis *)

Lemma firstJoinFor_Some (joins : list JoinInfo) (alias : string)
    (j : JoinInfo) :
  firstJoinFor joins alias = Some j -> In j joins /\ RightAlias j = alias.
Proof.
  induction joins as [|join joins IH]; cbn [firstJoinFor]; [discriminate|].
  destruct (String.eqb (RightAlias join) alias) eqn:E.
  - intros [= <-]. split; [left; reflexivity|]. apply String.eqb_eq, E.
  - intros H. destruct (IH H) as [Hin Ha]. split; [right; exact Hin|exact Ha].
Qed.

Lemma firstJoinFor_None (joins : list JoinInfo) (alias : string) :
  firstJoinFor joins alias = None <-> alias ∉ joinedAliases joins.
Proof.
  unfold joinedAliases. rewrite elem_of_list_to_set.
  induction joins as [|join joins IH]; cbn [firstJoinFor map].
  - split; [intros _ H; inversion H|reflexivity].
  - destruct (String.eqb (RightAlias join) alias) eqn:E.
    + apply String.eqb_eq in E. split; [discriminate|].
      intros H. exfalso. apply H. rewrite E. left.
    + apply String.eqb_neq in E. rewrite IH. split.
      * intros H Hin. apply elem_of_cons in Hin as [Hin|Hin];
          [congruence|exact (H Hin)].
      * intros H Hin. apply H. right. exact Hin.
Qed.

Lemma firstJoinFor_app (joins more : list JoinInfo) (alias : string) :
  firstJoinFor (joins ++ more) alias
  = match firstJoinFor joins alias with
    | Some j => Some j
    | None => firstJoinFor more alias
    end.
Proof.
  induction joins as [|join joins IH]; [reflexivity|].
  cbn [app firstJoinFor].
  destruct (String.eqb (RightAlias join) alias); [reflexivity|exact IH].
Qed.

(** X19.  The root found by [findRootAlias] is a table of the query that
    [GetJoinForTable] finds no join for; [GetJoinForTable] finds a join
    exactly for the aliases that are some join's right side. *)
Theorem root_has_no_join (range : list (string * string))
    (analysis : QueryAnalysis) :
  range ≡ₚ map_to_list (Tables analysis) ->
  findRootAlias range analysis <> EmptyString ->
  GetJoinForTable analysis (findRootAlias range analysis) = None
  /\ snd (GetTableForAlias analysis (findRootAlias range analysis)) = true
  /\ (forall alias,
        GetJoinForTable analysis alias = None
        <-> alias ∉ joinedAliases (Joins analysis)).
Proof.
  intros Hp Hroot. unfold findRootAlias in *.
  destruct (findRoot_spec _ _ Hroot) as [Hin Hnj]. split; [|split].
  - apply firstJoinFor_None. exact Hnj.
  - apply (range_in_dom _ _ _ Hp) in Hin.
    apply elem_of_dom in Hin as [t Ht]. unfold GetTableForAlias.
    rewrite Ht. reflexivity.
  - intros alias. apply firstJoinFor_None.
Qed.

Lemma root_has_no_join_witness :
  GetJoinForTable commaJoinAnalysis
    (findRootAlias (map_to_list (Tables commaJoinAnalysis))
       commaJoinAnalysis) = None.
Proof.
  assert (Hroot : findRootAlias (map_to_list (Tables commaJoinAnalysis))
                    commaJoinAnalysis <> EmptyString)
    by (vm_compute; discriminate).
  exact (proj1 (root_has_no_join (map_to_list (Tables commaJoinAnalysis))
                  commaJoinAnalysis (Permutation_refl _) Hroot)).
Defined.

Section AnalysisFacts.
Variable toUpper : string -> string.
Variable trimSpace : string -> string.
Variable hintMatches : string -> list (string * string).
Variable removeComments : string -> string.
Variable fromMatch : string -> option string.
Variable spaceSplit : string -> list string.
Variable joinMatches : string -> list (string * string * string * string).
Variable parseJoinCondition : string -> list JoinColumn.
Variable rangeTables : gmap string string -> list (string * string).

Lemma joinStep_shape (analysis analysis' : QueryAnalysis)
    (m : string * string * string * string) :
  joinStep toUpper trimSpace parseJoinCondition rangeTables analysis m
  = Ok analysis' ->
  exists join,
    Joins analysis' = Joins analysis ++ [join]
    /\ Tables analysis'
       = <[RightAlias join := RightTable join]> (Tables analysis)
    /\ PathHints analysis' = PathHints analysis.
Proof using Type.
  destruct m as [[[kind tableName] aliasMatch] conditionMatch].
  unfold joinStep.
  destruct (trimAtStopWord toUpper trimSpace stopWords
              (trimSpace conditionMatch)) as [c|msg|]; cbn [bind];
    [|discriminate..].
  destruct (match parseJoinCondition c with
            | [] => _
            | _ :: _ => _
            end) as [leftAlias leftTable].
  intros [= <-]. eexists. cbn [Joins Tables PathHints RightAlias RightTable].
  split; [reflexivity|]. split; reflexivity.
Qed.

(** The table map holds, for every right alias of a join, the table of
    the last join with that alias. *)
Lemma joinLoop_tables (ms : list (string * string * string * string)) :
  forall analysis analysis',
    joinLoop toUpper trimSpace parseJoinCondition rangeTables analysis ms
    = Ok analysis' ->
    (forall alias jl, lastJoinFor (Joins analysis) alias = Some jl ->
                      Tables analysis !! alias = Some (RightTable jl)) ->
    (forall alias jl, lastJoinFor (Joins analysis') alias = Some jl ->
                      Tables analysis' !! alias = Some (RightTable jl))
    /\ PathHints analysis' = PathHints analysis
    /\ length (Joins analysis') = (length (Joins analysis) + length ms)%nat.
Proof using Type.
  induction ms as [|m ms IH]; intros analysis analysis'; cbn [joinLoop].
  - intros [= <-] Hinv. split; [exact Hinv|]. split; [reflexivity|].
    cbn [length]. lia.
  - destruct (joinStep toUpper trimSpace parseJoinCondition rangeTables
                analysis m) as [a1|msg|] eqn:E; cbn [bind];
      [|discriminate..].
    intros Hrun Hinv.
    destruct (joinStep_shape _ _ _ E) as (join & Hj & Ht & Hh).
    destruct (IH a1 analysis' Hrun) as (H1 & H2 & H3).
    + intros alias jl. unfold lastJoinFor. rewrite Hj, rev_app_distr.
      cbn [rev app firstJoinFor]. rewrite Ht.
      destruct (String.eqb (RightAlias join) alias) eqn:Ea.
      * intros [= <-]. apply String.eqb_eq in Ea. rewrite <- Ea.
        apply lookup_insert_eq.
      * intros Hl. apply String.eqb_neq in Ea.
        rewrite lookup_insert_ne by exact Ea. apply Hinv. exact Hl.
    + split; [exact H1|]. split; [congruence|].
      rewrite H3, Hj, length_app. cbn [length]. lia.
Qed.

(** X20.  In the analysis [AnalyzeQuery] returns, every alias that
    [GetJoinForTable] finds a join for is an alias [GetTableForAlias]
    knows, and its table is the table of the last join with that alias
    (the join found is the first).  The hints are those of the comments,
    and there is one join for every match of the JOIN expression. *)
Theorem AnalyzeQuery_joins_are_tables (sql : string)
    (analysis : QueryAnalysis) (err : option string) :
  AnalyzeQuery toUpper trimSpace hintMatches removeComments fromMatch
    spaceSplit joinMatches parseJoinCondition rangeTables sql
  = Ok (analysis, err) ->
  (forall alias join,
     GetJoinForTable analysis alias = Some join ->
     RightAlias join = alias
     /\ exists last,
          lastJoinFor (Joins analysis) alias = Some last
          /\ GetTableForAlias analysis alias = (RightTable last, true))
  /\ PathHints analysis = extractPathHints hintMatches sql
  /\ length (Joins analysis) = length (joinMatches (removeComments sql)).
Proof using Type.
  unfold AnalyzeQuery, extractJoins.
  destruct (joinLoop toUpper trimSpace parseJoinCondition rangeTables _ _)
    as [a|msg|] eqn:E; cbn [bind]; [|discriminate..].
  intros [= <- <-].
  destruct (joinLoop_tables _ _ _ E) as (Hinv & Hh & Hl).
  { intros alias jl H. discriminate H. }
  split; [|split; [exact Hh|exact Hl]].
  intros alias join Hj. unfold GetJoinForTable in Hj.
  split; [exact (proj2 (firstJoinFor_Some _ _ _ Hj))|].
  destruct (lastJoinFor (Joins a) alias) as [last|] eqn:El.
  - exists last. split; [reflexivity|]. unfold GetTableForAlias.
    rewrite (Hinv alias last El). reflexivity.
  - exfalso. unfold lastJoinFor in El. apply firstJoinFor_None in El.
    apply El. destruct (firstJoinFor_Some _ _ _ Hj) as [Hin <-].
    unfold joinedAliases. apply elem_of_list_to_set.
    rewrite map_rev. apply list_elem_of_In. apply in_rev.
    rewrite rev_involutive. apply in_map. exact Hin.
Qed.

End AnalysisFacts.

Lemma AnalyzeQuery_joins_are_tables_witness :
  AnalyzeQuery (fun s => s) (fun s => s) (fun _ => []) (fun s => s)
    (fun _ => Some "posts p") (fun _ => ["posts"; "p"])
    (fun _ => [("LEFT", "comments", "c", "c.post_id = p.id")])
    (fun _ => [mkJoinColumn "c" "post_id" "p" "id"]) map_to_list
    "SELECT p.id, c.id FROM posts p LEFT JOIN comments c ON c.post_id = p.id"
  = Ok (postsCommentsAnalysis, None)
  /\ GetTableForAlias postsCommentsAnalysis "c" = ("comments", true).
Proof.
  assert (Hrun :
    AnalyzeQuery (fun s => s) (fun s => s) (fun _ => []) (fun s => s)
      (fun _ => Some "posts p") (fun _ => ["posts"; "p"])
      (fun _ => [("LEFT", "comments", "c", "c.post_id = p.id")])
      (fun _ => [mkJoinColumn "c" "post_id" "p" "id"]) map_to_list
      "SELECT p.id, c.id FROM posts p LEFT JOIN comments c ON c.post_id = p.id"
    = Ok (postsCommentsAnalysis, None)) by (vm_compute; reflexivity).
  split; [exact Hrun|].
  destruct (AnalyzeQuery_joins_are_tables _ _ _ _ _ _ _ _ _ _ _ _ Hrun)
    as (Hjoins & _ & _).
  destruct (Hjoins "c" postsCommentsJoin eq_refl)
    as (_ & last & Hlast & Htable).
  injection Hlast as <-. exact Htable.
Defined.

(** ** groupBySeparator *)

Lemma oget_oset_ne {V} (k k' : string) (v : V) (o : list (string * V)) :
  k <> k' -> oget k (oset k' v o) = oget k o.
Proof.
  intros Hne. induction o as [|[k0 w] o IH]; cbn [oset oget].
  - rewrite (proj2 (String.eqb_neq _ _)) by congruence. reflexivity.
  - destruct (String.eqb_spec k0 k') as [->|H0]; cbn [oget].
    + rewrite (proj2 (String.eqb_neq _ _)) by congruence. reflexivity.
    + destruct (String.eqb k0 k); [reflexivity|exact IH].
Qed.

Lemma join_snoc (parts : list string) (l sep : string) :
  parts <> [] -> join (parts ++ [l]) sep = join parts sep +:+ sep +:+ l.
Proof.
  induction parts as [|p parts IH]; [congruence|]. intros _.
  destruct parts as [|q parts]; [reflexivity|].
  change (join ((p :: q :: parts) ++ [l]) sep)
    with (p +:+ sep +:+ join ((q :: parts) ++ [l]) sep).
  rewrite IH by discriminate.
  change (join (p :: q :: parts) sep)
    with (p +:+ sep +:+ join (q :: parts) sep).
  rewrite !app_str_assoc. reflexivity.
Qed.

(** The group of a key followed by its name in the group is the key. *)
Lemma groupOf_name (separator name : string) :
  separator <> EmptyString ->
  groupOf separator name +:+ nameInGroup separator name = name.
Proof.
  intros Hsep. unfold groupOf, nameInGroup, initParts, lastPart.
  pose proof (join_split name separator Hsep) as Hj.
  pose proof (splitFrom_nonempty separator name 0 EmptyString) as Hne.
  fold (split name separator) in Hne.
  destruct (exists_last Hne) as (init & l & E). rewrite E in *.
  rewrite removelast_last, last_last, length_app. cbn [length].
  replace (length init + 1 - 1)%nat with (length init) by lia.
  destruct init as [|p init].
  - cbn [length Nat.ltb Nat.leb join app] in *. exact Hj.
  - cbn [length Nat.ltb Nat.leb]. rewrite join_snoc in Hj by discriminate.
    rewrite app_str_assoc. exact Hj.
Qed.

Lemma groupKey_runs (separator name : string) (v : value)
    (result : OrderedMap) :
  (forall k x, oget k result = Some x -> isMap x = true) ->
  exists sub,
    groupKey separator name v result
    = Ok (oset (groupOf separator name)
            (VMap (oset (nameInGroup separator name) v sub)) result)
    /\ (oget (groupOf separator name) result = Some (VMap sub)
        \/ (oget (groupOf separator name) result = None /\ sub = [])).
Proof.
  intros Hmaps. unfold groupKey. fold (nameInGroup separator name).
  fold (groupOf separator name).
  destruct (oget (groupOf separator name) result) as [x|] eqn:E.
  - pose proof (Hmaps _ _ E) as Hx. destruct x as [s|sub|l];
      try discriminate Hx.
    exists sub. rewrite E. cbn [asMap]. split; [reflexivity|left; reflexivity].
  - exists []. rewrite oget_oset_eq. cbn [asMap]. rewrite oset_oset.
    split; [reflexivity|right; split; reflexivity].
Qed.

Lemma groupRecord_keeps (separator : string) (entries : OrderedMap) :
  separator <> EmptyString ->
  NoDup (okeys entries) ->
  forall (done : OrderedMap) (result : OrderedMap),
    (forall k x, oget k result = Some x -> isMap x = true) ->
    Forall (cellKept separator result) done ->
    (forall kv, In kv done -> ~ In (fst kv) (okeys entries)) ->
    exists result',
      groupRecord separator entries result = Ok result'
      /\ Forall (cellKept separator result') (done ++ entries).
Proof.
  intros Hsep. induction entries as [|[name v] entries IH];
    intros Hnd done result Hmaps Hdone Hfresh.
  - exists result. split; [reflexivity|]. rewrite app_nil_r. exact Hdone.
  - cbn [groupRecord]. cbn [okeys map fst] in Hnd.
    apply NoDup_cons in Hnd as [Hname Hnd].
    destruct (groupKey_runs separator name v result Hmaps)
      as (sub & -> & Hsub).
    cbn [bind].
    set (result1 := oset (groupOf separator name)
                      (VMap (oset (nameInGroup separator name) v sub))
                      result).
    destruct (IH Hnd (done ++ [(name, v)]) result1) as (result' & Hrun & Hall).
    + intros k x. unfold result1.
      destruct (String.eqb_spec k (groupOf separator name)) as [->|Hne].
      * rewrite oget_oset_eq. intros [= <-]. reflexivity.
      * rewrite oget_oset_ne by exact Hne. apply Hmaps.
    + apply Forall_app. split.
      * rewrite Forall_forall in Hdone |- *. intros [n w] Hin.
        destruct (Hdone _ Hin) as (sub0 & H1 & H2). cbn [fst snd] in *.
        unfold cellKept, result1. cbn [fst snd].
        destruct (String.eqb_spec (groupOf separator n)
                    (groupOf separator name)) as [Eg|Hne].
        -- rewrite Eg, oget_oset_eq. eexists. split; [reflexivity|].
           rewrite Eg in H1.
           destruct Hsub as [Hs|[Hs _]]; [|congruence].
           assert (sub0 = sub) by congruence. subst sub0.
           rewrite oget_oset_ne; [exact H2|].
           intros En. apply list_elem_of_In in Hin.
           apply (Hfresh _ Hin). cbn [fst okeys map]. left.
           rewrite <- (groupOf_name separator n Hsep),
             <- (groupOf_name separator name Hsep). congruence.
        -- rewrite oget_oset_ne by exact Hne. exists sub0.
           split; [exact H1|exact H2].
      * constructor; [|constructor]. unfold cellKept, result1.
        cbn [fst snd]. rewrite oget_oset_eq. eexists.
        split; [reflexivity|]. apply oget_oset_eq.
    + intros kv Hin. apply in_app_or in Hin as [Hin|[<-|[]]].
      * intros Hk. apply (Hfresh _ Hin). right. exact Hk.
      * cbn [fst]. intros Hk. apply Hname. apply list_elem_of_In. exact Hk.
    + exists result'. split; [exact Hrun|].
      rewrite <- app_assoc in Hall. exact Hall.
Qed.

(** X21.  [groupBySeparator] loses no cell: for records with distinct
    keys it returns one grouped record for each, and every cell is found
    there, in the group and under the name that, written one after the
    other, give its key. *)
Theorem groupBySeparator_keeps_cells (records : list OrderedMap)
    (separator : string) :
  separator <> EmptyString ->
  Forall (fun record => NoDup (okeys record)) records ->
  exists results,
    groupBySeparator records separator = Ok results
    /\ Forall2 (fun record result => Forall (cellKept separator result) record)
         records results
    /\ forall name,
         groupOf separator name +:+ nameInGroup separator name = name.
Proof.
  intros Hsep Hrecords.
  induction Hrecords as [|record records Hnd _ IH].
  - exists []. split; [reflexivity|]. split; [constructor|].
    intros name. apply groupOf_name, Hsep.
  - destruct IH as (results & Hrun & Hall & Hname).
    destruct (groupRecord_keeps separator record Hsep Hnd [] [])
      as (result & Hrec & Hkept).
    + intros k x H. discriminate H.
    + constructor.
    + intros kv [].
    + exists (result :: results). cbn [groupBySeparator].
      rewrite Hrec. cbn [bind]. rewrite Hrun. cbn [bind].
      split; [reflexivity|]. split; [|exact Hname].
      constructor; [exact Hkept|exact Hall].
Qed.

Lemma groupBySeparator_keeps_cells_witness :
  exists results,
    groupBySeparator [overlappingRecord] "[]" = Ok results
    /\ Forall2 (fun record result => Forall (cellKept "[]" result) record)
         [overlappingRecord] results.
Proof.
  destruct (groupBySeparator_keeps_cells [overlappingRecord] "[]")
    as (results & Hrun & Hall & _).
  - discriminate.
  - constructor; [|constructor]. apply nodupb_NoDup. reflexivity.
  - exists results. split; [exact Hrun|exact Hall].
Defined.

(** ** From the columns to the records *)

Lemma lastIndexFrom_ge (s sub : string) (i j : nat) :
  lastIndexFrom s sub i = Some j -> (i <= j)%nat.
Proof.
  revert i. induction s as [|c s IH]; intros i; cbn [lastIndexFrom].
  - destruct (hasPrefix EmptyString sub); [intros [= <-]; lia|discriminate].
  - destruct (lastIndexFrom s sub (S i)) as [k|] eqn:E.
    + intros [= <-]. apply IH in E. lia.
    + destruct (hasPrefix (String c s) sub); [intros [= <-]; lia|discriminate].
Qed.

Lemma dollarPrefix_rooted (column p : string) :
  dollarPrefix column = Some p -> hasPrefix p "$" = true.
Proof.
  unfold dollarPrefix. destruct column as [|c s]; [discriminate|].
  cbn [hasPrefix]. rewrite hasPrefix_empty, andb_true_r.
  destruct (Ascii.eqb "$" c) eqn:Ec; [|discriminate].
  apply Ascii.eqb_eq in Ec. subst c.
  unfold lastIndex. cbn [lastIndexFrom].
  destruct (lastIndexFrom s "." 1) as [k|] eqn:E.
  - intros [= <-]. apply lastIndexFrom_ge in E.
    destruct k as [|k]; [lia|]. cbn [takeStr hasPrefix].
    rewrite hasPrefix_empty. reflexivity.
  - cbn [hasPrefix Ascii.eqb Bool.eqb andb]. discriminate.
Qed.

Lemma hasPrefix_append (p rest pre : string) :
  hasPrefix p pre = true -> hasPrefix (p +:+ rest) pre = true.
Proof.
  revert p. induction pre as [|c pre IH]; intros p H; [apply hasPrefix_empty|].
  destruct p as [|d p]; [discriminate|]. rewrite append_cons.
  cbn [hasPrefix] in *. apply andb_prop in H as [H1 H2].
  rewrite H1, (IH _ H2). reflexivity.
Qed.

Lemma contains_middle (a b sub : string) :
  contains (a +:+ sub +:+ b) sub = true.
Proof.
  induction a as [|c a IH].
  - rewrite append_nil_l. apply contains_prefix, hasPrefix_app.
  - rewrite append_cons. cbn [contains]. rewrite IH. apply orb_true_r.
Qed.

Lemma assignedPath_rooted (p column : string) :
  hasPrefix p "$" = true ->
  hasPrefix (assignedPath p column) "$" = true
  /\ contains (assignedPath p column) "." = true.
Proof.
  intros Hp. unfold assignedPath.
  destruct (dollarPrefix column) as [p'|] eqn:E.
  - split; [|apply contains_middle].
    apply hasPrefix_append. exact (dollarPrefix_rooted _ _ E).
  - split; [|apply contains_middle]. apply hasPrefix_append. exact Hp.
Qed.

Lemma getPathsLoop_rooted (columns : list string) :
  forall p, hasPrefix p "$" = true ->
  exists paths,
    getPathsLoop true p columns = Ok paths
    /\ length paths = length columns
    /\ Forall (fun path => hasPrefix path "$" = true
                           /\ contains path "." = true) paths.
Proof.
  induction columns as [|c columns IH]; intros p Hp.
  - exists []. split; [reflexivity|]. split; [reflexivity|constructor].
  - cbn [getPathsLoop]. rewrite getPathsStep_guarded. cbn [bind fst snd].
    destruct (IH (match dollarPrefix c with Some p' => p' | None => p end))
      as (rest & -> & Hlen & Hall).
    { destruct (dollarPrefix c) as [p'|] eqn:E;
        [exact (dollarPrefix_rooted _ _ E)|exact Hp]. }
    cbn [bind]. eexists. split; [reflexivity|].
    split; [cbn [length]; congruence|].
    constructor; [apply assignedPath_rooted; exact Hp|exact Hall].
Qed.

Lemma length_oset {V} (k : string) (v : V) (o : list (string * V)) :
  (length (oset k v o) <= S (length o))%nat.
Proof.
  induction o as [|[k0 w] o IH]; cbn [oset length]; [lia|].
  destruct (String.eqb k0 k); cbn [length]; lia.
Qed.

Lemma rowRecordFrom_runs (paths : list string) (row : list scalar) :
  Forall (fun path => path <> EmptyString) paths ->
  forall i record,
    (i + length row <= length paths)%nat ->
    exists record',
      rowRecordFrom paths i row record = Ok record'
      /\ (length record' <= length record + length row)%nat.
Proof.
  intros Hpaths. induction row as [|cell row IH]; intros i record Hlen.
  - exists record. split; [reflexivity|]. cbn [length]. lia.
  - cbn [length] in Hlen. cbn [rowRecordFrom]. unfold pathAt.
    destruct (lookup_lt_is_Some_2 paths i ltac:(lia)) as [p Hp].
    rewrite Hp. cbn [bind].
    assert (Hne : p <> EmptyString).
    { rewrite Forall_forall in Hpaths. apply Hpaths.
      apply (list_elem_of_lookup_2 _ _ _ Hp). }
    destruct p as [|c p]; [congruence|]. cbn [dropFirst bind].
    destruct (IH (S i) (oset p (VScalar cell) record)) as (r' & -> & Hr');
      [lia|].
    exists r'. split; [reflexivity|].
    pose proof (length_oset p (VScalar cell) record). cbn [length]. lia.
Qed.

Lemma getAllRecords_runs (paths : list string) (rows : list (list scalar)) :
  Forall (fun path => path <> EmptyString) paths ->
  Forall (fun row => (length row <= length paths)%nat) rows ->
  exists records,
    getAllRecords rows paths = Ok records
    /\ Forall2 (fun row record => (length record <= length row)%nat)
         rows records.
Proof.
  intros Hpaths Hrows. induction Hrows as [|row rows Hrow _ IH].
  - exists []. split; [reflexivity|constructor].
  - destruct IH as (records & Hrun & Hall).
    destruct (rowRecordFrom_runs paths row Hpaths 0 []) as (record & Hr & Hl);
      [cbn; lia|].
    exists (record :: records). cbn [getAllRecords].
    rewrite Hr. cbn [bind]. rewrite Hrun. cbn [bind].
    split; [reflexivity|]. constructor; [exact Hl|exact Hall].
Qed.

Lemma contains_nonempty (s : string) : contains s "." = true -> s <> "".
Proof. intros H ->. discriminate H. Qed.

(** X22.  The first two steps of the earlier [PathQuery] do not fail when
    no column has the empty name: [getPaths] gives every column a path
    that begins with [$] and holds a period, and [getAllRecords] turns
    rows that are not wider than the column list into as many records,
    none with more entries than its row has cells (cells under the same
    path share one entry). *)
Theorem getPaths_then_getAllRecords (columns : list string)
    (rows : list (list scalar)) :
  ~ In EmptyString columns ->
  Forall (fun row => (length row <= length columns)%nat) rows ->
  exists paths records,
    getPaths_unguarded columns = Ok paths
    /\ length paths = length columns
    /\ Forall (fun path => hasPrefix path "$" = true
                           /\ contains path "." = true) paths
    /\ getAllRecords rows paths = Ok records
    /\ Forall2 (fun row record => (length record <= length row)%nat)
         rows records.
Proof.
  intros Hnames Hrows.
  assert (Hsame : getPaths_unguarded columns = getPaths columns).
  { apply getPaths_unguarded_agrees. apply List.Forall_forall.
    intros c Hc ->. exact (Hnames Hc). }
  destruct (getPathsLoop_rooted columns "$[]" eq_refl)
    as (paths & Hp & Hlen & Hall).
  destruct (getAllRecords_runs paths rows) as (records & Hr & Hrec).
  - eapply Forall_impl; [exact Hall|]. intros p [_ H].
    apply contains_nonempty, H.
  - rewrite Hlen. exact Hrows.
  - exists paths, records. rewrite Hsame. repeat split; assumption.
Qed.

Lemma getPathsLoop_unguarded_panics (columns : list string) :
  forall p,
    getPathsLoop false p columns = Panic <-> In EmptyString columns.
Proof.
  induction columns as [|c columns IH]; intros p; cbn [getPathsLoop In].
  - split; [discriminate|intros []].
  - destruct c as [|a s].
    + cbn [getPathsStep bind]. split; [intros _; left|]; reflexivity.
    + change (getPathsStep false p (String a s))
        with (getPathsStep true p (String a s)).
      rewrite getPathsStep_guarded. cbn [bind fst snd].
      specialize (IH (match dollarPrefix (String a s) with
                      | Some p' => p'
                      | None => p
                      end)).
      destruct (getPathsLoop false _ columns) as [rest|msg|] eqn:E;
        cbn [bind].
      * split; [discriminate|]. intros [H|H]; [discriminate H|].
        apply IH in H. discriminate H.
      * split; [discriminate|]. intros [H|H]; [discriminate H|].
        apply IH in H. discriminate H.
      * split; [intros _; right; apply IH; reflexivity|reflexivity].
Qed.

(** X23.  The earlier [getPaths] panics exactly when a column has the
    empty name; on every other list of columns it returns what the later
    [getPaths] returns. *)
Theorem getPaths_unguarded_panics_iff (columns : list string) :
  (getPaths_unguarded columns = Panic <-> In EmptyString columns)
  /\ (~ In EmptyString columns ->
      getPaths_unguarded columns = getPaths columns).
Proof.
  split; [apply getPathsLoop_unguarded_panics|].
  intros Hne. apply getPaths_unguarded_agrees.
  apply List.Forall_forall. intros c Hc ->. exact (Hne Hc).
Qed.

(** X24.  A query that returns no row has no result.  The earlier
    [PathQuery] panics on the nil tree, whatever the columns.  The later
    one returns the empty list only when no path holds an array marker;
    with one, as for the default paths, it returns the error of the nil
    tree. *)
Theorem no_rows_no_result (jsonMarshal : value -> outcome string)
    (md5Sum : string -> list ascii) (rangeOrder : list string -> list string)
    (columns paths : list string) :
  PathQuery jsonMarshal md5Sum rangeOrder columns [] = Panic
  /\ reconstruct jsonMarshal md5Sum rangeOrder paths []
     = (if hasArrayMarkers paths
        then Err "combineIntoTree returned nil tree"
        else Ok (VSeq []))
  /\ (columns <> [] ->
      Forall (fun c => hasPrefix c "$" = false) columns ->
      exists defaults,
        getPaths columns = Ok defaults
        /\ reconstruct jsonMarshal md5Sum rangeOrder defaults []
           = Err "combineIntoTree returned nil tree").
Proof.
  split; [|split].
  - unfold PathQuery, getPaths_unguarded.
    destruct (getPathsLoop false "$[]" columns) as [ps|msg|] eqn:E;
      cbn [bind]; [reflexivity| |reflexivity].
    exfalso. revert E. generalize "$[]".
    induction columns as [|c columns IH]; intros p; cbn [getPathsLoop];
      [discriminate|].
    destruct c as [|a s]; [discriminate|].
    change (getPathsStep false p (String a s))
      with (getPathsStep true p (String a s)).
    rewrite getPathsStep_guarded. cbn [bind fst snd].
    destruct (getPathsLoop false _ columns) as [rest|msg'|] eqn:E;
      cbn [bind]; try discriminate.
    intros [= ->]. exact (IH _ E).
  - unfold reconstruct. cbn [length Nat.ltb Nat.leb].
    rewrite andb_false_r.
    destruct (hasArrayMarkers paths); reflexivity.
  - intros Hne Hplain.
    destruct columns as [|c columns]; [congruence|].
    inversion_clear Hplain as [|? ? Hc Hcols].
    unfold getPaths. cbn [getPathsLoop].
    rewrite getPathsStep_guarded. cbn [bind fst snd].
    destruct (getPathsLoop_rooted columns
                (match dollarPrefix c with Some p' => p' | None => "$[]" end))
      as (rest & -> & _ & _).
    { unfold dollarPrefix. rewrite Hc. reflexivity. }
    cbn [bind]. eexists. split; [reflexivity|].
    unfold reconstruct. cbn [length Nat.ltb Nat.leb].
    rewrite andb_false_r. cbn [hasArrayMarkers existsb].
    unfold assignedPath, dollarPrefix. rewrite Hc. reflexivity.
Qed.

Lemma getPaths_then_getAllRecords_witness :
  exists paths records,
    getPaths_unguarded ["$.stats.posts"; "comments"] = Ok paths
    /\ getAllRecords [[SInt 12; SInt 6]] paths = Ok records
    /\ Forall2 (fun row record => (length record <= length row)%nat)
         [[SInt 12; SInt 6]] records.
Proof.
  destruct (getPaths_then_getAllRecords ["$.stats.posts"; "comments"]
              [[SInt 12; SInt 6]])
    as (paths & records & Hp & _ & _ & Hr & Hl).
  - intros [H|[H|[]]]; discriminate H.
  - constructor; [cbn; lia|constructor].
  - exists paths, records. split; [exact Hp|]. split; [exact Hr|exact Hl].
Defined.

(** ** The walk of combineIntoTree *)

Lemma setAtPath_new (path : list string) (v : value) :
  path <> [] ->
  exists T', setAtPath path v [] = Ok T' /\ getAtPath path T' = Some v.
Proof.
  induction path as [|p path IH]; [congruence|]. intros _.
  destruct path as [|q path].
  - cbn [setAtPath oset]. eexists. split; [reflexivity|].
    cbn [getAtPath oget]. rewrite String.eqb_refl. reflexivity.
  - destruct (IH ltac:(discriminate)) as (T1 & H1 & H2).
    assert (Hrun : setAtPath (p :: q :: path) v [] = Ok [(p, VMap T1)]).
    { rewrite setAtPath_step. unfold ensureMap. cbn [oget oset].
      rewrite !String.eqb_refl. cbn [asMap]. rewrite H1. reflexivity. }
    exists [(p, VMap T1)]. split; [exact Hrun|].
    change (getAtPath (p :: q :: path) [(p, VMap T1)])
      with (match oget p [(p, VMap T1)] with
            | Some (VMap next) => getAtPath (q :: path) next
            | _ => None
            end).
    cbn [oget]. rewrite String.eqb_refl. exact H2.
Qed.

(** X25.  The walk of [combineIntoTree] along a path that is not empty:
    it panics exactly when it meets, before the last name, an entry that
    is no map (a cell set under a shorter path); it never returns an
    error; and when it returns, the value is found in the tree at that
    path. *)
Theorem setAtPath_sets (path : list string) (v : value) (T : OrderedMap) :
  path <> [] ->
  (setAtPath path v T = Panic <-> blockedPath path T = true)
  /\ (forall e, setAtPath path v T <> Err e)
  /\ (forall T', setAtPath path v T = Ok T' -> getAtPath path T' = Some v).
Proof.
  revert T. induction path as [|p path IH]; intros T Hne; [congruence|].
  destruct path as [|q path].
  - cbn [setAtPath blockedPath getAtPath].
    split; [split; discriminate|]. split; [discriminate|].
    intros T' [= <-]. apply oget_oset_eq.
  - rewrite setAtPath_step. unfold ensureMap.
    change (blockedPath (p :: q :: path) T)
      with (match oget p T with
            | Some (VMap next) => blockedPath (q :: path) next
            | Some _ => true
            | None => false
            end).
    destruct (oget p T) as [x|] eqn:E.
    + rewrite E. destruct x as [s|next|l]; cbn [asMap].
      * split; [split; reflexivity|]. split; discriminate.
      * destruct (IH next ltac:(discriminate)) as (Hp & He & Hok).
        destruct (setAtPath (q :: path) v next) as [T1|msg|] eqn:E1;
          cbn [bind].
        -- split; [split; [discriminate|]|].
           { intros Hb. apply Hp in Hb. discriminate Hb. }
           split; [discriminate|]. intros T' [= <-].
           change (getAtPath (p :: q :: path) (oset p (VMap T1) T))
             with (match oget p (oset p (VMap T1) T) with
                   | Some (VMap next) => getAtPath (q :: path) next
                   | _ => None
                   end).
           rewrite oget_oset_eq. apply Hok. reflexivity.
        -- exfalso. exact (He msg eq_refl).
        -- split; [split; [intros _; apply Hp; reflexivity|reflexivity]|].
           split; discriminate.
      * split; [split; reflexivity|]. split; discriminate.
    + rewrite oget_oset_eq. cbn [asMap].
      destruct (setAtPath_new (q :: path) v ltac:(discriminate))
        as (T1 & H1 & H2).
      rewrite H1. cbn [bind].
      split; [split; discriminate|]. split; [discriminate|].
      intros T' [= <-]. rewrite oset_oset.
      change (getAtPath (p :: q :: path) (oset p (VMap T1) T))
        with (match oget p (oset p (VMap T1) T) with
              | Some (VMap next) => getAtPath (q :: path) next
              | _ => None
              end).
      rewrite oget_oset_eq. exact H2.
Qed.

Lemma setAtPath_sets_witness :
  setAtPath [""; "a"; "b"] (VScalar (SInt 2))
    [("", VMap [("a", VScalar (SInt 1))])] = Panic.
Proof.
  apply (setAtPath_sets [""; "a"; "b"] (VScalar (SInt 2))
           [("", VMap [("a", VScalar (SInt 1))])]);
    [discriminate|reflexivity].
Defined.

(** ** The later PathQuery: from the column names to the paths *)

Lemma split_alias_column (alias col : string) :
  contains alias "." = false -> contains col "." = false ->
  split (alias +:+ "." +:+ col) "." = [alias; col].
Proof.
  intros Ha Hc. rewrite (split_app_last alias col Hc). unfold split.
  rewrite (splitFrom_no_sep "." alias EmptyString Ha). reflexivity.
Qed.

Lemma split_word (col : string) :
  contains col "." = false -> split col "." = [col].
Proof.
  intros Hc. unfold split.
  rewrite (splitFrom_no_sep "." col EmptyString Hc). reflexivity.
Qed.

Section PathSelectionFacts.
Variable trimSpace : string -> string.
Variable getTableMetadata : string -> outcome TableMetadata.

(** The name asked about is the column, or the column after an alias of
    the query and a period. *)
Lemma mapColumn_cases (tables : gmap string string)
    (selectColumns : list string) (i : nat) (col : string) :
  mapColumn trimSpace tables selectColumns i col = col
  \/ exists alias,
       alias ∈ dom tables
       /\ mapColumn trimSpace tables selectColumns i col
          = alias +:+ "." +:+ col.
Proof using Type.
  unfold mapColumn. destruct (hasPrefix col "$"); [left; reflexivity|].
  destruct (selectColumns !! i) as [piece|]; [|left; reflexivity].
  cbn zeta.
  destruct (contains (trimSpace piece) "."
            && negb (contains (trimSpace piece) "("));
    [|left; reflexivity].
  destruct (splitFirst (trimSpace piece) ".") as [|p0 [|p1 [|p2 ps]]];
    try (left; reflexivity).
  destruct (tables !! trimSpace p0) as [t|] eqn:E; [|left; reflexivity].
  right. exists (trimSpace p0). split; [|reflexivity].
  apply elem_of_dom. exists t. exact E.
Qed.

(** X26.  A query without joins and hints, with a table and no period in
    its aliases, whose columns are plain names: when the foreign keys can
    be read, the later [PathQuery] gives every column the path
    [$[].column], as the earlier [getPaths] does, whatever the SELECT
    clause holds. *)
Theorem choosePaths_plain_columns (fks : list ForeignKey)
    (order : list string) (ranges : nat -> columnRanges)
    (analysis : QueryAnalysis) (selectColumns columns : list string) :
  (forall t, getTableMetadata t <> Panic) ->
  Joins analysis = [] -> PathHints analysis = ∅ ->
  Tables analysis <> ∅ ->
  EmptyString ∉ dom (Tables analysis) ->
  (forall a, a ∈ dom (Tables analysis) -> contains a "." = false) ->
  (forall a, a ∈ order -> a ∈ dom (Tables analysis)) ->
  (forall i, rangesOver (Tables analysis) (ranges i)) ->
  Forall (fun col => hasPrefix col "$" = false /\ contains col "." = false)
    columns ->
  choosePaths trimSpace getTableMetadata (Ok fks) order ranges analysis
    selectColumns columns
  = Ok (map (fun col => "$[]." +:+ col) columns).
Proof using Type.
  intros Hret Hj Hh Hne Hempty Hdots Hord Hr Hcols. unfold choosePaths.
  assert (Hexp : hasExplicitPaths columns = false).
  { unfold hasExplicitPaths. apply not_true_is_false. intros H.
    apply existsb_exists in H as (col & Hin & Hp).
    rewrite List.Forall_forall in Hcols. destruct (Hcols col Hin) as [H1 _].
    congruence. }
  rewrite Hexp. cbn zeta. unfold InferPathsWithFallback.
  rewrite (InferPaths_default_run getTableMetadata fks order ranges analysis
             (columnMapping trimSpace (Tables analysis) selectColumns
                columns) Hret Hj Hh Hempty Hord Hr).
  cbn [bind]. f_equal. apply list_eq. intros i.
  rewrite list_lookup_imap, map_fmap, list_lookup_fmap.
  destruct (columns !! i) as [col|] eqn:Ecol; [|reflexivity].
  cbn [fmap option_fmap option_map mbind option_bind]. f_equal.
  unfold columnMapping. rewrite list_lookup_imap, Ecol.
  cbn [fmap option_fmap option_map].
  assert (Hin : mapColumn trimSpace (Tables analysis) selectColumns i col
                ∈ imap (mapColumn trimSpace (Tables analysis) selectColumns)
                    columns).
  { apply (list_elem_of_lookup_2 _ i). rewrite list_lookup_imap, Ecol.
    reflexivity. }
  rewrite fold_insert_lookup, lookup_empty. unfold columnMapping.
  destruct (decide (mapColumn trimSpace (Tables analysis) selectColumns i col
                    ∈ imap (mapColumn trimSpace (Tables analysis)
                              selectColumns) columns)) as [_|Hn];
    [|contradiction].
  rewrite Forall_forall in Hcols.
  destruct (Hcols col (list_elem_of_lookup_2 _ _ _ Ecol)) as [_ Hdot].
  unfold defaultPath.
  destruct (mapColumn_cases (Tables analysis) selectColumns i col)
    as [->|(alias & Ha & ->)].
  - rewrite (split_word col Hdot).
    destruct (decide (Tables analysis = ∅)); [contradiction|reflexivity].
  - rewrite (split_alias_column alias col (Hdots alias Ha) Hdot).
    destruct (decide (alias ∈ dom (Tables analysis)));
      [reflexivity|contradiction].
Qed.

(** X27.  The same query when the foreign keys cannot be read: a column
    the SELECT clause qualifies with an alias of the query is placed
    under that alias, at [$[].alias.column], and every other column at
    [$[].column]. *)
Theorem choosePaths_falls_back (e : string) (order : list string)
    (ranges : nat -> columnRanges) (analysis : QueryAnalysis)
    (selectColumns columns : list string) :
  hasExplicitPaths columns = false ->
  choosePaths trimSpace getTableMetadata (Err e) order ranges analysis
    selectColumns columns
  = Ok (map (fun name => "$[]." +:+ name)
          (columnMapping trimSpace (Tables analysis) selectColumns columns))
  /\ Forall2
       (fun col name =>
          name = col
          \/ exists alias, alias ∈ dom (Tables analysis)
                           /\ name = alias +:+ "." +:+ col)
       columns
       (columnMapping trimSpace (Tables analysis) selectColumns columns).
Proof using Type.
  intros Hexp. unfold choosePaths. rewrite Hexp. cbn zeta.
  unfold InferPathsWithFallback, InferPaths, buildCardinalityMap.
  cbn [bind]. split.
  - f_equal. apply list_eq. intros i.
    rewrite list_lookup_imap, map_fmap, list_lookup_fmap.
    unfold columnMapping. rewrite list_lookup_imap.
    destruct (columns !! i) as [col|] eqn:Ecol; [|reflexivity].
    cbn [fmap option_fmap option_map mbind option_bind]. f_equal.
    rewrite (fold_insert_lookup (fun col => "$[]." +:+ col)).
    destruct (decide (mapColumn trimSpace (Tables analysis) selectColumns i
                        col
                      ∈ imap (mapColumn trimSpace (Tables analysis)
                                selectColumns) columns)) as [_|Hn];
      [reflexivity|].
    exfalso. apply Hn. apply (list_elem_of_lookup_2 _ i).
    rewrite list_lookup_imap, Ecol. reflexivity.
  - unfold columnMapping. apply Forall2_same_length_lookup. split.
    + rewrite length_imap. reflexivity.
    + intros i col name Hc Hn. rewrite list_lookup_imap, Hc in Hn.
      injection Hn as <-. apply mapColumn_cases.
Qed.

End PathSelectionFacts.

Lemma choosePaths_plain_columns_witness :
  choosePaths (fun s => s) noMetadata (Ok []) ["posts"]
    (fun _ => sameRange (map_to_list (Tables postsAnalysis))) postsAnalysis
    ["posts.id"; "title"] ["id"; "title"]
  = Ok ["$[].id"; "$[].title"].
Proof.
  apply (choosePaths_plain_columns (fun s => s) noMetadata [] ["posts"]
           (fun _ => sameRange (map_to_list (Tables postsAnalysis)))
           postsAnalysis ["posts.id"; "title"] ["id"; "title"]).
  - intros t. discriminate.
  - reflexivity.
  - reflexivity.
  - intros H. apply (f_equal (fun m => m !! "posts")) in H. discriminate H.
  - apply not_elem_of_dom. reflexivity.
  - intros a Ha. cbn [Tables postsAnalysis] in Ha.
    rewrite dom_singleton, elem_of_singleton in Ha. subst a. reflexivity.
  - intros a Ha. apply list_elem_of_singleton in Ha. subst a.
    apply elem_of_dom. eexists. reflexivity.
  - intros i. repeat split; reflexivity.
  - repeat constructor.
Defined.

Lemma choosePaths_falls_back_witness :
  choosePaths (fun s => s) noMetadata (Err "unsupported driver: sqlite3")
    ["posts"] (fun _ => sameRange (map_to_list (Tables postsAnalysis)))
    postsAnalysis ["posts.id"; "title"] ["id"; "title"]
  = Ok ["$[].posts.id"; "$[].title"].
Proof.
  apply (choosePaths_falls_back (fun s => s) noMetadata
           "unsupported driver: sqlite3" ["posts"]
           (fun _ => sameRange (map_to_list (Tables postsAnalysis)))
           postsAnalysis ["posts.id"; "title"] ["id"; "title"]).
  reflexivity.
Defined.

(** ** The keys of the later getAllRecords *)

Lemma lastIndexFrom_none (s : string) (k : nat) :
  contains s "." = false -> lastIndexFrom s "." k = None.
Proof.
  revert k. induction s as [|c s IH]; intros k H; [reflexivity|].
  apply contains_cons_false in H as [Hp Hc]. cbn [lastIndexFrom].
  rewrite (IH _ Hc), Hp. reflexivity.
Qed.

Lemma lastIndexFrom_app (a g : string) (k : nat) :
  contains g "." = false ->
  lastIndexFrom (a +:+ "." +:+ g) "." k = Some (k + String.length a)%nat.
Proof.
  intros Hg. revert k. induction a as [|c a IH]; intros k.
  - rewrite append_nil_l. change ("." +:+ g) with (String "." g).
    cbn [lastIndexFrom]. rewrite (lastIndexFrom_none g _ Hg).
    cbn [hasPrefix Ascii.eqb Bool.eqb andb]. rewrite hasPrefix_empty.
    cbn [String.length]. f_equal. lia.
  - rewrite append_cons. cbn [lastIndexFrom]. rewrite IH.
    cbn [String.length]. f_equal. lia.
Qed.

Lemma dropStr_app (a b : string) : dropStr (String.length a) (a +:+ b) = b.
Proof. induction a as [|c a IH]; [destruct b; reflexivity|exact IH]. Qed.

Lemma takeStr_app (a b : string) : takeStr (String.length a) (a +:+ b) = a.
Proof.
  induction a as [|c a IH]; [destruct b; reflexivity|].
  rewrite append_cons. cbn [String.length takeStr]. rewrite IH. reflexivity.
Qed.

Lemma hasSuffix_app (f suf : string) : hasSuffix (f +:+ suf) suf = true.
Proof.
  unfold hasSuffix. rewrite length_append.
  replace (String.length f + String.length suf - String.length suf)%nat
    with (String.length f) by lia.
  rewrite dropStr_app, String.eqb_refl, andb_true_r.
  apply Nat.leb_le. lia.
Qed.

Lemma recordKey_dotted (a g : string) :
  contains g "." = false ->
  recordKey ("$" +:+ a +:+ "." +:+ g)
  = if hasSuffix g "[]"
    then a +:+ "." +:+ takeStr (String.length g - 2) g
    else a +:+ "." +:+ g.
Proof.
  intros Hg. unfold recordKey.
  change ("$" +:+ a +:+ "." +:+ g) with (String "$" (a +:+ "." +:+ g)).
  cbn [hasPrefix Ascii.eqb Bool.eqb andb dropStr].
  rewrite hasPrefix_empty.
  unfold lastIndex. rewrite (lastIndexFrom_app a g 0 Hg). cbn [Nat.add].
  assert (Hdrop : dropStr (String.length a + 1) (a +:+ "." +:+ g) = g).
  { replace (String.length a + 1)%nat with (String.length (a +:+ "."))
      by (rewrite length_append; reflexivity).
    rewrite <- (app_str_assoc a "." g). apply dropStr_app. }
  assert (Htake : takeStr (String.length a + 1) (a +:+ "." +:+ g)
                  = a +:+ ".").
  { replace (String.length a + 1)%nat with (String.length (a +:+ "."))
      by (rewrite length_append; reflexivity).
    rewrite <- (app_str_assoc a "." g). apply takeStr_app. }
  rewrite Hdrop, Htake.
  destruct (hasSuffix g "[]"); [|reflexivity].
  rewrite app_str_assoc. reflexivity.
Qed.

(** X28.  The later [getAllRecords] stores a cell under its path without
    the leading [$] and without an array marker at the very end: the
    paths [$a.f] and [$a.f[]] are stored under the same key [a.f], so
    that in one row the cell of the second overwrites the cell of the
    first. *)
Theorem recordKey_final_marker (a f : string) :
  contains f "." = false -> hasSuffix f "[]" = false ->
  recordKey ("$" +:+ a +:+ "." +:+ f) = a +:+ "." +:+ f
  /\ recordKey ("$" +:+ a +:+ "." +:+ f +:+ "[]") = a +:+ "." +:+ f
  /\ forall (v w : value) (record : OrderedMap),
       oget (a +:+ "." +:+ f)
         (oset (recordKey ("$" +:+ a +:+ "." +:+ f +:+ "[]")) w
            (oset (recordKey ("$" +:+ a +:+ "." +:+ f)) v record))
       = Some w.
Proof.
  intros Hf Hs.
  assert (H1 : recordKey ("$" +:+ a +:+ "." +:+ f) = a +:+ "." +:+ f).
  { rewrite (recordKey_dotted a f Hf), Hs. reflexivity. }
  assert (H2 : recordKey ("$" +:+ a +:+ "." +:+ f +:+ "[]")
               = a +:+ "." +:+ f).
  { rewrite (recordKey_dotted a (f +:+ "[]")).
    - rewrite hasSuffix_app, length_append. cbn [String.length].
      replace (String.length f + 2 - 2)%nat with (String.length f) by lia.
      rewrite takeStr_app. reflexivity.
    - apply (contains_app_false f "[]" EmptyString "."); [exact Hf|].
      reflexivity. }
  split; [exact H1|]. split; [exact H2|].
  intros v w record. rewrite H1, H2. apply oget_oset_eq.
Qed.

Lemma recordKey_final_marker_witness :
  recordKey "$[].tags" = "[].tags" /\ recordKey "$[].tags[]" = "[].tags".
Proof.
  destruct (recordKey_final_marker "[]" "tags" eq_refl eq_refl)
    as (H1 & H2 & _).
  split; [exact H1|exact H2].
Defined.

(** ** addHashes *)

Lemma In_oset {V} (k k0 : string) (v v0 : V) (o : list (string * V)) :
  In (k, v) (oset k0 v0 o) -> v = v0 \/ In (k, v) o.
Proof.
  induction o as [|[k1 w] o IH]; cbn [oset].
  - intros [[= _ <-]|[]]. left. reflexivity.
  - destruct (String.eqb k1 k0).
    + intros [[= _ <-]|H]; [left; reflexivity|right; right; exact H].
    + intros [H|H]; [right; left; exact H|].
      destruct (IH H) as [E|Hin]; [left; exact E|right; right; exact Hin].
Qed.

Lemma fold_oset_values (f : string -> string) (record acc : OrderedMap) :
  let result :=
    fold_left (fun result kv => oset (f (fst kv)) (snd kv) result)
      record acc in
  (forall k v, In (k, v) result ->
               In (k, v) acc \/ exists k', In (k', v) record)
  /\ (length result <= length acc + length record)%nat.
Proof.
  revert acc. induction record as [|[k0 v0] record IH]; intros acc;
    cbn [fold_left].
  - split; [intros k v H; left; exact H|cbn [length]; lia].
  - cbn zeta in IH. destruct (IH (oset (f k0) v0 acc)) as [Hv Hl].
    cbn [fst snd] in *. split.
    + intros k v H. destruct (Hv k v H) as [Hin|(k' & Hin)].
      * destruct (In_oset _ _ _ _ _ Hin) as [->|Hacc];
          [right; exists k0; left; reflexivity|left; exact Hacc].
      * right. exists k'. right. exact Hin.
    + pose proof (length_oset (f k0) v0 acc). cbn [length]. lia.
Qed.

Section AddHashesFacts.
Variable jsonMarshal : value -> outcome string.
Variable md5Sum : string -> list ascii.
Variable rangeOrder : list string -> list string.

Lemma hashMapping_fails (entries : list (string * value)) :
  forall mapping,
    match hashMapping jsonMarshal md5Sum entries mapping with
    | Ok _ => True
    | failure =>
        exists key part,
          In (key, part) entries /\ hasSuffix key "[]" = true
          /\ match failure with
             | Err e => jsonMarshal part = Err e
             | _ => jsonMarshal part = Panic
             end
    end.
Proof using Type.
  induction entries as [|[key part] entries IH]; intros mapping;
    cbn [hashMapping]; [exact I|].
  assert (Hrest : forall m,
             match hashMapping jsonMarshal md5Sum entries m with
             | Ok _ => True
             | failure =>
                 exists key0 part0,
                   In (key0, part0) ((key, part) :: entries)
                   /\ hasSuffix key0 "[]" = true
                   /\ match failure with
                      | Err e => jsonMarshal part0 = Err e
                      | _ => jsonMarshal part0 = Panic
                      end
             end).
  { intros m. specialize (IH m).
    destruct (hashMapping jsonMarshal md5Sum entries m); [exact I| |];
      destruct IH as (k & p & Hin & Hs & Hj); exists k, p;
      (split; [right; exact Hin|]); split; assumption. }
  destruct (hasSuffix key "[]") eqn:Es; [|apply Hrest].
  destruct (jsonMarshal part) as [bytes|e|] eqn:Ej; cbn [bind].
  - apply Hrest.
  - exists key, part. split; [left; reflexivity|]. split; assumption.
  - exists key, part. split; [left; reflexivity|]. split; assumption.
Qed.

(** X29.  [addHashes] only renames: every record comes back as a record
    that is not longer and whose values are values of the record.  It
    fails only with the failure of [json.Marshal] on a group whose key
    ends with the array marker; the other groups are not encoded. *)
Theorem addHashes_only_renames (records : list OrderedMap) :
  match addHashes jsonMarshal md5Sum rangeOrder records with
  | Ok results =>
      Forall2
        (fun record result =>
           (length result <= length record)%nat
           /\ forall k v, In (k, v) result -> exists k', In (k', v) record)
        records results
  | failure =>
      exists record key part,
        In record records /\ In (key, part) record
        /\ hasSuffix key "[]" = true
        /\ match failure with
           | Err e => jsonMarshal part = Err e
           | _ => jsonMarshal part = Panic
           end
  end.
Proof using Type.
  induction records as [|record records IH]; cbn [addHashes];
    [constructor|].
  unfold addHashesRecord.
  pose proof (hashMapping_fails record []) as Hm.
  destruct (hashMapping jsonMarshal md5Sum record []) as [mapping|e|];
    cbn [bind].
  - destruct (addHashes jsonMarshal md5Sum rangeOrder records)
      as [results|e|]; cbn [bind].
    + constructor; [|exact IH].
      destruct (fold_oset_values
                  (rewriteKey mapping
                     (sortByRevLen (rangeOrder (okeys mapping))))
                  record []) as [Hv Hl].
      split; [exact Hl|]. intros k v Hin.
      destruct (Hv k v Hin) as [[]|H]. exact H.
    + destruct IH as (r & k & p & Hr & H). exists r, k, p.
      split; [right; exact Hr|exact H].
    + destruct IH as (r & k & p & Hr & H). exists r, k, p.
      split; [right; exact Hr|exact H].
  - destruct Hm as (k & p & H). exists record, k, p.
    split; [left; reflexivity|exact H].
  - destruct Hm as (k & p & H). exists record, k, p.
    split; [left; reflexivity|exact H].
Qed.

End AddHashesFacts.

(** ** The clause as bytes *)

Section Utf8.

Local Open Scope Z_scope.
































(** A byte that starts no well-formed sequence does not come back: it is
    read as U+FFFD and written as the three bytes of that rune. *)
Example splitSelectColumnsBytes_stray_byte :
  splitSelectColumnsBytes (String (byteChar 0xFF) ",b")
  = [utf8 runeError; "b"].
Proof. reflexivity. Qed.

End Utf8.
